(** * p2p-share: signaling server and encrypted chunked file transfer

    A shallow embedding of the stateful protocol engines of the
    repository:

    - [Signaling]: the room registry of the WebSocket signaling server
      (server/src/index.ts): [handleCreateRoom], [handleJoinRoom],
      [handleLeaveRoom], [relayToPeer], [handleMessage];
    - [Encryption]: the IV discipline of [EncryptionManager]
      (client/src/lib/crypto/encryption.ts);
    - [Transfer]: [FileTransferManager]
      (client/src/lib/fileTransfer/FileTransferManager.ts), the framing
      of chunk records, the send queue, the backpressure pause and the
      reassembly of inbound files;
    - [TransferAwait]: the receiving side of [FileTransferManager] with
      the [await] of [handleFileChunk] as a step of its own;
    - [SignalingClient]: the signaling client [SignalingProvider]
      (client/src/lib/signaling): the outbox, the state after each
      message of the server, the reconnection timer;
    - [Hook]: [useFileTransfer] (client/src/lib/fileTransfer), the
      React state around the manager and its guard on file offers.

    Strings are byte strings (the UTF-8 code units of the JavaScript
    string); every identifier the code generates is ASCII.

    Both programs are event driven. A handler is a function from the
    state before an event to the state after it, with what it wrote to
    the outside. Random draws ([randomUUID], [getRandomValues], the
    generated key) and the state of the data channel come in as
    arguments.

    In [Transfer] an [async] method is one step: its awaited reads and
    Web Crypto calls settle before the next event is handled. That is
    one schedule of the program among others. The receiver does not
    await [handleFileChunk], and [handleFileComplete] does not wait for
    the decryptions under way; [TransferAwait] is the receiving side
    with each decryption as a step of its own, which can settle after
    later frames have been handled, and the statements about what the
    receiving application is given are made there. *)

From Stdlib Require Import NArith ZArith Ascii String List Lia.
From Stdlib.Strings Require Import Byte.
From stdpp Require Import base option list gmap strings fin_maps.

Local Open Scope string_scope.
Local Open Scope list_scope.

(** ** JavaScript values shared by both programs *)

(** [if (s)] on a [string | null]: [null] and the empty string are falsy. *)
Definition truthy (s : option string) : bool :=
  match s with
  | Some EmptyString => false
  | Some _ => true
  | None => false
  end.

(** [String.prototype.toUpperCase] on strings of ASCII characters: the
    letters a to z are mapped, every other character is kept. On other
    strings the method follows Unicode and can map one character to
    several; the identifiers the code makes (UUIDs, room codes) are ASCII,
    and where a statement upper-cases a string that comes from outside it
    assumes [is_ascii_string] of it. *)
Definition toUpperCase_ascii (c : ascii) : ascii :=
  let n := nat_of_ascii c in
  if (97 <=? n)%nat && (n <=? 122)%nat then ascii_of_nat (n - 32) else c.

Fixpoint toUpperCase (s : string) : string :=
  match s with
  | EmptyString => EmptyString
  | String c s' => String (toUpperCase_ascii c) (toUpperCase s')
  end.

(** Every character of the string is below 128. *)
Definition is_ascii_string (s : string) : bool :=
  forallb (λ c, (nat_of_ascii c <? 128)%nat) (list_ascii_of_string s).

(** A [Set<string>] iterates in insertion order and holds no duplicate. *)
Definition set_add (x : string) (l : list string) : list string :=
  if decide (x ∈ l) then l else l ++ [x].

Definition set_delete (x : string) (l : list string) : list string :=
  filter (λ y, y ≠ x) l.

(** ASCII lower case, as the File API applies it to a MIME type. *)
Definition toLowerCase_ascii (c : ascii) : ascii :=
  let n := nat_of_ascii c in
  if (65 <=? n)%nat && (n <=? 90)%nat then ascii_of_nat (n + 32) else c.

(** ** The signaling server *)

Module Signaling.

(** [WebSocket.readyState]. *)
Inductive ReadyState := CONNECTING | OPEN | CLOSING | CLOSED.

Module Client.
Record t := mk { socket : ReadyState; roomId : option string }.
End Client.

Module Room.
Record t := mk { id : string; clients : list string; creatorId : string }.
End Room.

(** types.ts: messages from a client, after [JSON.parse]. *)
Inductive ClientMessage :=
| CreateRoomMessage
| JoinRoomMessage (roomId : string)
| LeaveRoomMessage
| OfferMessage (sdp : string)
| AnswerMessage (sdp : string)
| IceCandidateMessage (candidate : string) (sdpMid : option string)
    (sdpMLineIndex : option Z).

(** types.ts: messages from the server. *)
Inductive ServerMessage :=
| ConnectedMessage (clientId : string)
| RoomCreatedMessage (roomId : string)
| RoomJoinedMessage (roomId : string) (isInitiator : bool)
| PeerJoinedMessage
| PeerLeftMessage
| ErrorMessage (code message : string)
| RelayedOfferMessage (sdp : string)
| RelayedAnswerMessage (sdp : string)
| RelayedIceCandidateMessage (candidate : string) (sdpMid : option string)
    (sdpMLineIndex : option Z).



(** What [JSON.parse(raw)] gave [handleMessage]: a syntax error; a value
    whose [type] is none of the six; a typed client message; or one of
    the two values on which the handler throws a [TypeError]: [null], whose
    [type] cannot be read, and a [join-room] message whose [roomId] is not
    a string (it is missing, a number, [null], an array or an object), so
    that [roomId.toUpperCase()] fails. *)
Inductive Frame :=
| InvalidJson
| UnknownType
| Parsed (m : ClientMessage)
| JsonNull
| JoinRoomNoString.

(** The two process-wide maps, and the frames written to the sockets so
    far, oldest first, each with the client it was written to. *)
Record State := mkState {
  clients : gmap string Client.t;
  rooms : gmap string Room.t;
  wire : list (string * ServerMessage)
}.

Definition set_clients (f : gmap string Client.t → gmap string Client.t)
    (s : State) : State :=
  mkState (f (clients s)) (rooms s) (wire s).

Definition set_rooms (f : gmap string Room.t → gmap string Room.t)
    (s : State) : State :=
  mkState (clients s) (f (rooms s)) (wire s).

Definition is_open (r : ReadyState) : bool :=
  match r with OPEN => true | _ => false end.

Definition send (clientId : string) (message : ServerMessage) (s : State)
    : State :=
  match clients s !! clientId with
  | Some client =>
      if is_open (Client.socket client)
      then mkState (clients s) (rooms s) (wire s ++ [(clientId, message)])
      else s
  | None => s
  end.

Definition sendError (clientId code message : string) (s : State) : State :=
  send clientId (ErrorMessage code message) s.

(** [randomUUID().substring(0, 6).toUpperCase()], on the UUID drawn. *)
Definition generateRoomId (uuid : string) : string :=
  toUpperCase (substring 0 6 uuid).

Definition getPeerInRoom (roomId excludeClientId : string) (s : State)
    : option string :=
  match rooms s !! roomId with
  | None => None
  | Some room =>
      head (filter (λ id, id ≠ excludeClientId) (Room.clients room))
  end.

(** [client.roomId = r] on the client object registered under [clientId]. *)
Definition set_roomId (clientId : string) (r : option string) (s : State)
    : State :=
  set_clients (alter (λ c, Client.mk (Client.socket c) r) clientId) s.

Definition handleCreateRoom (clientId uuid : string) (s : State) : State :=
  match clients s !! clientId with
  | None => s
  | Some client =>
      if truthy (Client.roomId client) then
        sendError clientId "ALREADY_IN_ROOM"
          "Leave current room before creating a new one" s
      else
        let roomId := generateRoomId uuid in
        let room := Room.mk roomId [clientId] clientId in
        let s := set_rooms (insert roomId room) s in
        let s := set_roomId clientId (Some roomId) s in
        send clientId (RoomCreatedMessage roomId) s
  end.

Definition handleJoinRoom (clientId roomId : string) (s : State) : State :=
  match clients s !! clientId with
  | None => s
  | Some client =>
      if truthy (Client.roomId client) then
        sendError clientId "ALREADY_IN_ROOM"
          "Leave current room before joining another" s
      else
        match rooms s !! toUpperCase roomId with
        | None =>
            sendError clientId "ROOM_NOT_FOUND"
              "Room does not exist or has expired" s
        | Some room =>
            if (2 <=? length (Room.clients room))%nat then
              sendError clientId "ROOM_FULL"
                "Room already has two participants" s
            else
              let room' :=
                Room.mk (Room.id room) (set_add clientId (Room.clients room))
                  (Room.creatorId room) in
              let s := set_rooms (insert (toUpperCase roomId) room') s in
              let s := set_roomId clientId (Some (Room.id room)) s in
              let s :=
                send clientId (RoomJoinedMessage (Room.id room) false) s in
              let peerId := getPeerInRoom (Room.id room) clientId s in
              if truthy peerId
              then send (default "" peerId) PeerJoinedMessage s
              else s
        end
  end.

Definition handleLeaveRoom (clientId : string) (s : State) : State :=
  match clients s !! clientId with
  | None => s
  | Some client =>
      if truthy (Client.roomId client) then
        let roomId := default "" (Client.roomId client) in
        let s :=
          match rooms s !! roomId with
          | None => s
          | Some room =>
              let left := set_delete clientId (Room.clients room) in
              let room' := Room.mk (Room.id room) left (Room.creatorId room) in
              let s := set_rooms (insert roomId room') s in
              let peerId := getPeerInRoom (Room.id room) clientId s in
              let s :=
                if truthy peerId
                then send (default "" peerId) PeerLeftMessage s
                else s in
              if (length left =? 0)%nat
              then set_rooms (delete (Room.id room)) s
              else s
          end in
        set_roomId clientId None s
      else s
  end.

(** [handleJoinRoom] on a [roomId] that is not a string: the two checks
    on the requester come first, then [roomId.toUpperCase()] throws;
    nothing was changed or written before it. *)
Definition handleJoinRoom_no_string (clientId : string) (s : State) : State :=
  match clients s !! clientId with
  | None => s
  | Some client =>
      if truthy (Client.roomId client) then
        sendError clientId "ALREADY_IN_ROOM"
          "Leave current room before joining another" s
      else s
  end.

Definition relayToPeer (clientId : string) (message : ServerMessage)
    (s : State) : State :=
  let roomId := clients s !! clientId ≫= Client.roomId in
  if truthy roomId then
    let peerId := getPeerInRoom (default "" roomId) clientId s in
    if truthy peerId
    then send (default "" peerId) message s
    else sendError clientId "NO_PEER" "No peer connected to relay message to" s
  else
    sendError clientId "NOT_IN_ROOM"
      "Join a room before sending WebRTC messages" s.

(** [uuid] is the value [randomUUID()] returns if this request draws one.
    On the two frames that make it throw, the state is as the exception
    leaves it. *)
Definition handleMessage (clientId : string) (raw : Frame) (uuid : string)
    (s : State) : State :=
  match raw with
  | InvalidJson =>
      sendError clientId "INVALID_JSON" "Message must be valid JSON" s
  | UnknownType =>
      sendError clientId "UNKNOWN_MESSAGE" "Unknown message type" s
  | JsonNull => s
  | JoinRoomNoString => handleJoinRoom_no_string clientId s
  | Parsed message =>
      match message with
      | CreateRoomMessage => handleCreateRoom clientId uuid s
      | JoinRoomMessage roomId => handleJoinRoom clientId roomId s
      | LeaveRoomMessage => handleLeaveRoom clientId s
      | OfferMessage sdp => relayToPeer clientId (RelayedOfferMessage sdp) s
      | AnswerMessage sdp => relayToPeer clientId (RelayedAnswerMessage sdp) s
      | IceCandidateMessage candidate sdpMid sdpMLineIndex =>
          relayToPeer clientId
            (RelayedIceCandidateMessage candidate sdpMid sdpMLineIndex) s
      end
  end.

(** Whether [handleMessage] ends in an exception, which leaves the
    listener without a reply having been written. *)
Definition throws (clientId : string) (raw : Frame) (s : State) : bool :=
  match raw with
  | JsonNull => true
  | JoinRoomNoString =>
      match clients s !! clientId with
      | Some client => negb (truthy (Client.roomId client))
      | None => false
      end
  | _ => false
  end.

(** The connection listener: a fresh client record, then [connected]. *)
Definition onConnection (clientId : string) (s : State) : State :=
  send clientId (ConnectedMessage clientId)
    (set_clients (insert clientId (Client.mk OPEN None)) s).

(** The close listener. *)
Definition onClose (clientId : string) (s : State) : State :=
  set_clients (delete clientId) (handleLeaveRoom clientId s).

End Signaling.

(** ** Typed arrays and [DataView] *)

Module Bytes.

Local Open Scope N_scope.

(** Storing a number into a [Uint8Array] cell keeps it modulo 256. *)
Definition byte_of_N (n : N) : byte :=
  default Byte.x00 (Byte.of_N (n mod 256)).

(** [len] bytes, most significant first, of [v] modulo [2^(8*len)]:
    [DataView.setUint8], [setUint32] and [setBigUint64] with
    [littleEndian = false]. *)
Fixpoint be_bytes (len : nat) (v : N) : list byte :=
  match len with
  | O => []
  | S k => byte_of_N (v / 256 ^ N.of_nat k) :: be_bytes k v
  end.

(** [DataView.getUint8], [getUint32] with [littleEndian = false]. *)
Definition be_value (bs : list byte) : N :=
  fold_left (λ acc b, acc * 256 + Byte.to_N b) bs 0.

(** [new Uint8Array(len)]. *)
Definition zeros (len : nat) : list byte := replicate len Byte.x00.

(** [dst.set(src, offset)] for a source that fits. *)
Definition array_set (dst src : list byte) (offset : nat) : list byte :=
  take offset dst ++ src ++ drop (offset + length src) dst.

(** [blob.slice(start, end)] and [buffer.slice(start, end)]. *)
Definition slice (start stop : N) (bs : list byte) : list byte :=
  take (N.to_nat (stop - start)) (drop (N.to_nat start) bs).

Definition byteLength (bs : list byte) : N := N.of_nat (length bs).

End Bytes.

(** ** The encryption manager *)

(** What the program takes from Web Crypto: AES-GCM under a key object,
    the raw export and import of keys. Decryption fails on a wrong tag. *)
Class WebCrypto := {
  CryptoKey : Type;
  exportKey : CryptoKey → list byte;
  importRawKey : list byte → option CryptoKey;
  aes_gcm_encrypt : CryptoKey → list byte → list byte → list byte;
  aes_gcm_decrypt : CryptoKey → list byte → list byte → option (list byte)
}.

Module Encryption.
Section WithCrypto.
Context `{WebCrypto}.

Local Open Scope N_scope.

Definition IV_LENGTH : nat := 12.
Definition SESSION_ID_LENGTH : nat := 4.

Record EncryptionManager := mk {
  key : option CryptoKey;
  sessionId : list byte;
  counter : N
}.

(** The constructor, on the four bytes [crypto.getRandomValues] wrote. *)
Definition new (r0 r1 r2 r3 : byte) : EncryptionManager :=
  mk None [r0; r1; r2; r3] 0.

(** [generateKey], on the key [crypto.subtle.generateKey] drew. *)
Definition generateKey (k : CryptoKey) (em : EncryptionManager)
    : list byte * EncryptionManager :=
  (exportKey k, mk (Some k) (sessionId em) (counter em)).

(** [importKey]: [None] when [crypto.subtle.importKey] rejects. *)
Definition importKey (keyData : list byte) (em : EncryptionManager)
    : option EncryptionManager :=
  match importRawKey keyData with
  | Some k => Some (mk (Some k) (sessionId em) (counter em))
  | None => None
  end.

Definition generateIV (em : EncryptionManager)
    : list byte * EncryptionManager :=
  let iv := Bytes.zeros IV_LENGTH in
  let iv := Bytes.array_set iv (sessionId em) 0 in
  let iv := Bytes.array_set iv (Bytes.be_bytes 8 (counter em))
              SESSION_ID_LENGTH in
  (iv, mk (key em) (sessionId em) (counter em + 1)).

(** [encryptChunk]: [None] when it throws for want of a key. *)
Definition encryptChunk (data : list byte) (em : EncryptionManager)
    : option (list byte * list byte * EncryptionManager) :=
  match key em with
  | None => None
  | Some k =>
      let '(iv, em') := generateIV em in
      Some (aes_gcm_encrypt k iv data, iv, em')
  end.

(** [decryptChunk]: [None] when it throws, for want of a key or because
    [crypto.subtle.decrypt] rejects. *)
Definition decryptChunk (encrypted iv : list byte) (em : EncryptionManager)
    : option (list byte) :=
  match key em with
  | None => None
  | Some k => aes_gcm_decrypt k iv encrypted
  end.

(** [reset], on the four fresh random bytes. *)
Definition reset (r0 r1 r2 r3 : byte) (em : EncryptionManager)
    : EncryptionManager :=
  mk None [r0; r1; r2; r3] 0.

(** The calls a holder of the manager can make. *)
Inductive Call :=
| CallGenerateKey (k : CryptoKey)
| CallImportKey (keyData : list byte)
| CallEncryptChunk (data : list byte)
| CallDecryptChunk (encrypted iv : list byte)
| CallReset (r0 r1 r2 r3 : byte).

(** One use of the cipher for encryption: the key, the IV, the plaintext. *)
Record Use := mkUse {
  use_key : CryptoKey;
  use_iv : list byte;
  use_plain : list byte
}.

Definition call (c : Call) (em : EncryptionManager)
    : EncryptionManager * list Use :=
  match c with
  | CallGenerateKey k => (snd (generateKey k em), [])
  | CallImportKey keyData => (default em (importKey keyData em), [])
  | CallEncryptChunk data =>
      match key em, encryptChunk data em with
      | Some k, Some (_, iv, em') => (em', [mkUse k iv data])
      | _, _ => (em, [])
      end
  | CallDecryptChunk _ _ => (em, [])
  | CallReset r0 r1 r2 r3 => (reset r0 r1 r2 r3 em, [])
  end.

(** A sequence of calls, with the encryptions it performed, oldest first. *)
Fixpoint calls (cs : list Call) (em : EncryptionManager)
    : EncryptionManager * list Use :=
  match cs with
  | [] => (em, [])
  | c :: cs' =>
      let '(em1, u1) := call c em in
      let '(em2, u2) := calls cs' em1 in
      (em2, u1 ++ u2)
  end.

Definition is_reset (c : Call) : bool :=
  match c with CallReset _ _ _ _ => true | _ => false end.

End WithCrypto.
End Encryption.

(** ** The file transfer manager *)

Module File.
(** A browser [File]: its name, MIME type, relative path within a
    selected folder, and content; [size] is the length of the content. *)
Record t := mk {
  name : string;
  type : string;
  webkitRelativePath : string;
  bytes : list byte
}.
Definition size (f : t) : N := Bytes.byteLength (bytes f).

(** The [type] that [new File(bits, name, {type})] gives the file: the
    empty string when the option holds a character outside U+0020 to
    U+007E (in UTF-8 every byte of such a character is outside that
    range), the option in ASCII lower case otherwise. *)
Definition normal_type (type : string) : string :=
  if forallb (λ c, (32 <=? nat_of_ascii c)%nat && (nat_of_ascii c <=? 126)%nat)
       (list_ascii_of_string type)
  then string_of_list_ascii (map toLowerCase_ascii (list_ascii_of_string type))
  else "".
End File.

Module FileInfo.
Record t := mk {
  id : string;
  name : string;
  size : N;
  type : string;
  totalChunks : N;
  path : option string
}.
End FileInfo.

Module QueueInfo.
Record t := mk { totalFiles : N; currentIndex : N }.
End QueueInfo.

Module FileMetadata.
(** [FileMetadata extends FileInfo]; a hole of [receivedChunks] is [None]. *)
Record t := mk {
  info : FileInfo.t;
  receivedChunks : list (option (list byte));
  bytesReceived : N
}.
End FileMetadata.

Module QueuedFile.
Record t := mk { file : File.t; info : FileInfo.t }.
End QueuedFile.

(** [JSON.stringify] followed by [TextEncoder], and [TextDecoder] followed
    by [JSON.parse] ([None] when it throws), at the two record types. *)
Class JsonText := {
  json_of_FileInfo : FileInfo.t → list byte;
  FileInfo_of_json : list byte → option FileInfo.t;
  json_of_QueueInfo : QueueInfo.t → list byte;
  QueueInfo_of_json : list byte → option QueueInfo.t
}.

(** The application's answer to a file offer ([false] when it has no
    [onFileOffer]). *)
Class FileTransferCallbacks := {
  onFileOffer : FileInfo.t → QueueInfo.t → bool
}.

Module Transfer.

Local Open Scope N_scope.

Definition CHUNK_SIZE : N := 64 * 1024.
Definition BUFFER_FULL_THRESHOLD : N := 256 * 1024.
Definition BUFFER_LOW_THRESHOLD : N := 128 * 1024.

Inductive MessageType :=
| FILE_INFO | FILE_CHUNK | FILE_COMPLETE | FILE_ACCEPT | FILE_REJECT
| PROGRESS | ENCRYPTION_KEY | QUEUE_INFO.

Definition MessageType_value (t : MessageType) : N :=
  match t with
  | FILE_INFO => 1
  | FILE_CHUNK => 2
  | FILE_COMPLETE => 3
  | FILE_ACCEPT => 4
  | FILE_REJECT => 5
  | PROGRESS => 16
  | ENCRYPTION_KEY => 32
  | QUEUE_INFO => 33
  end.

Definition MessageType_of_value (n : N) : option MessageType :=
  if n =? 1 then Some FILE_INFO
  else if n =? 2 then Some FILE_CHUNK
  else if n =? 3 then Some FILE_COMPLETE
  else if n =? 4 then Some FILE_ACCEPT
  else if n =? 5 then Some FILE_REJECT
  else if n =? 16 then Some PROGRESS
  else if n =? 32 then Some ENCRYPTION_KEY
  else if n =? 33 then Some QUEUE_INFO
  else None.

(** [RTCDataChannel], as far as the manager reads and writes it. *)
Inductive RTCDataChannelState := connecting | open | closing | closed.

Record RTCDataChannel := mkChannel {
  readyState : RTCDataChannelState;
  bufferedAmount : N;
  bufferedAmountLowThreshold : N
}.

Definition is_open (ch : RTCDataChannel) : bool :=
  match readyState ch with open => true | _ => false end.

Inductive Timer := TimerSendNextChunk | TimerProcessNextFile.

(** What a handler does to the outside, in order: a frame handed to
    [sendChannel.send], a timer set, a callback of the application
    called, a promise rejected to the caller. *)
Inductive Effect :=
| ChannelSend (data : list byte)
| SetTimeout (t : Timer) (ms : N)
| OnProgress (transferred total : N) (isSending : bool) (info : FileInfo.t)
| OnFileReceived (file : File.t) (info : FileMetadata.t)
| OnTransferComplete
| OnError (error : string)
| Rejected (error : string).

(** ** The chunk record *)

(** [encodeEncryptedChunk]. *)
Definition encodeEncryptedChunk (index : N) (encrypted iv : list byte)
    (fileId : string) : list byte :=
  let fileIdBytes := list_byte_of_string fileId in
  Bytes.be_bytes 4 index
  ++ Bytes.be_bytes 1 (Bytes.byteLength fileIdBytes) ++ fileIdBytes
  ++ Bytes.be_bytes 1 (Bytes.byteLength iv) ++ iv
  ++ encrypted.

Record EncryptedChunk := mkChunk {
  fileId : string;
  chunkIndex : N;
  encrypted : list byte;
  iv : list byte
}.

(** [decodeEncryptedChunk]: [None] when a read leaves the payload and the
    [DataView] or the [Uint8Array] constructor throws. The file id is the
    bytes as they are, which is what [TextDecoder] gives for the bytes of
    an ASCII string; it drops a leading byte order mark and replaces
    malformed sequences, so a statement about the id decoded assumes the
    id sent ASCII or names the bytes. *)
Definition decodeEncryptedChunk (payload : list byte) : option EncryptedChunk :=
  if (length payload <? 5)%nat then None else
  let chunkIndex := Bytes.be_value (take 4 payload) in
  let fileIdLength := N.to_nat (Bytes.be_value (take 1 (drop 4 payload))) in
  let offset := 5%nat in
  if (length payload <? offset + fileIdLength)%nat then None else
  let fileIdBytes := take fileIdLength (drop offset payload) in
  let offset := (offset + fileIdLength)%nat in
  if (length payload <? offset + 1)%nat then None else
  let ivLength := N.to_nat (Bytes.be_value (take 1 (drop offset payload))) in
  let offset := (offset + 1)%nat in
  if (length payload <? offset + ivLength)%nat then None else
  let iv := take ivLength (drop offset payload) in
  let offset := (offset + ivLength)%nat in
  Some (mkChunk (string_of_list_byte fileIdBytes) chunkIndex
          (drop offset payload) iv).

(** [arr[i] = v] on a JavaScript array: a store past the end lengthens the
    array and leaves holes; [2^32 - 1] is not an array index, the store
    then makes a property that [filter] never visits. *)
Definition array_store {A} (arr : list (option A)) (i : N) (v : A)
    : list (option A) :=
  if 4294967295 <=? i then arr
  else
    let n := N.to_nat i in
    if (n <? length arr)%nat then <[n := Some v]> arr
    else arr ++ replicate (n - length arr) None ++ [Some v].

(** [arr.filter(c => c !== undefined)]. *)
Definition filter_defined {A} (arr : list (option A)) : list A :=
  omap id arr.

Section WithHost.
Context `{WebCrypto} `{JsonText} `{FileTransferCallbacks}.

(** The fields of the class; the two clock readings kept for the speed
    estimate of progress reports are left out. *)
Record FileTransferManager := mk {
  sendChannel : option RTCDataChannel;
  sendQueue : list QueuedFile.t;
  currentSendFile : option QueuedFile.t;
  currentChunkIndex : N;
  totalChunks : N;
  isPaused : bool;
  receivingFiles : gmap string FileMetadata.t;
  currentReceiveFileId : option string;
  encryption : Encryption.EncryptionManager;
  isEncryptionReady : bool
}.

(** The constructor. *)
Definition new (r0 r1 r2 r3 : byte) : FileTransferManager :=
  mk None [] None 0 0 false ∅ None (Encryption.new r0 r1 r2 r3) false.

Definition set_sendChannel v m :=
  mk v (sendQueue m) (currentSendFile m) (currentChunkIndex m) (totalChunks m)
    (isPaused m) (receivingFiles m) (currentReceiveFileId m) (encryption m)
    (isEncryptionReady m).
Definition set_sendQueue v m :=
  mk (sendChannel m) v (currentSendFile m) (currentChunkIndex m)
    (totalChunks m) (isPaused m) (receivingFiles m) (currentReceiveFileId m)
    (encryption m) (isEncryptionReady m).
Definition set_currentSendFile v m :=
  mk (sendChannel m) (sendQueue m) v (currentChunkIndex m) (totalChunks m)
    (isPaused m) (receivingFiles m) (currentReceiveFileId m) (encryption m)
    (isEncryptionReady m).
Definition set_currentChunkIndex v m :=
  mk (sendChannel m) (sendQueue m) (currentSendFile m) v (totalChunks m)
    (isPaused m) (receivingFiles m) (currentReceiveFileId m) (encryption m)
    (isEncryptionReady m).
Definition set_totalChunks v m :=
  mk (sendChannel m) (sendQueue m) (currentSendFile m) (currentChunkIndex m) v
    (isPaused m) (receivingFiles m) (currentReceiveFileId m) (encryption m)
    (isEncryptionReady m).
Definition set_isPaused v m :=
  mk (sendChannel m) (sendQueue m) (currentSendFile m) (currentChunkIndex m)
    (totalChunks m) v (receivingFiles m) (currentReceiveFileId m)
    (encryption m) (isEncryptionReady m).
Definition set_receivingFiles v m :=
  mk (sendChannel m) (sendQueue m) (currentSendFile m) (currentChunkIndex m)
    (totalChunks m) (isPaused m) v (currentReceiveFileId m) (encryption m)
    (isEncryptionReady m).
Definition set_currentReceiveFileId v m :=
  mk (sendChannel m) (sendQueue m) (currentSendFile m) (currentChunkIndex m)
    (totalChunks m) (isPaused m) (receivingFiles m) v (encryption m)
    (isEncryptionReady m).
Definition set_encryption v m :=
  mk (sendChannel m) (sendQueue m) (currentSendFile m) (currentChunkIndex m)
    (totalChunks m) (isPaused m) (receivingFiles m) (currentReceiveFileId m) v
    (isEncryptionReady m).
Definition set_isEncryptionReady v m :=
  mk (sendChannel m) (sendQueue m) (currentSendFile m) (currentChunkIndex m)
    (totalChunks m) (isPaused m) (receivingFiles m) (currentReceiveFileId m)
    (encryption m) v.

(** A method body: the fields after it, and what it did to the outside. *)
Definition Action : Type :=
  FileTransferManager → FileTransferManager * list Effect.

Definition skip : Action := λ m, (m, []).
Definition emit (e : Effect) : Action := λ m, (m, [e]).
Definition modify (f : FileTransferManager → FileTransferManager) : Action :=
  λ m, (f m, []).
Definition andThen (a b : Action) : Action :=
  λ m, let '(m1, e1) := a m in
       let '(m2, e2) := b m1 in
       (m2, e1 ++ e2).

Notation "a >>> b" := (andThen a b) (at level 65, right associativity).

(** [sendMessage]: the tag byte, then the payload; a frame handed to
    [send] counts in [bufferedAmount] until the transport has sent it. *)
Definition sendMessage (type : MessageType) (payload : list byte) : Action :=
  λ m,
    match sendChannel m with
    | None => (m, [])
    | Some ch =>
        if is_open ch then
          let message := Bytes.byte_of_N (MessageType_value type) :: payload in
          let ch' :=
            mkChannel (readyState ch)
              (bufferedAmount ch + Bytes.byteLength message)
              (bufferedAmountLowThreshold ch) in
          (set_sendChannel (Some ch') m, [ChannelSend message])
        else (m, [])
    end.

Definition encodeQueueInfo (info : QueueInfo.t) : list byte :=
  json_of_QueueInfo info.
Definition decodeQueueInfo (payload : list byte) : option QueueInfo.t :=
  QueueInfo_of_json payload.
Definition encodeFileInfo (info : FileInfo.t) : list byte :=
  json_of_FileInfo info.
Definition decodeFileInfo (payload : list byte) : option FileInfo.t :=
  FileInfo_of_json payload.

(** [notifyProgress]: the byte counts given to [onProgress]; percentage,
    speed and time remaining are floating-point readings of the clock. *)
Definition notifyProgress (transferred total : N) (isSending : bool)
    (fileInfo : FileInfo.t) : Action :=
  emit (OnProgress transferred total isSending fileInfo).

(** [initializeEncryption], on the key drawn. *)
Definition initializeEncryption (k : CryptoKey) : Action :=
  λ m,
    let '(keyData, em) := Encryption.generateKey k (encryption m) in
    (modify (set_encryption em) >>>
     modify (set_isEncryptionReady true) >>>
     sendMessage ENCRYPTION_KEY keyData) m.

(** [setDataChannel]; the listeners it adds are [onBufferedAmountLow] and
    [handleMessage] below (a manager is given a channel once, so each
    event reaches one listener). *)
Definition setDataChannel (channel : RTCDataChannel) (isInitiator : bool)
    (k : CryptoKey) : Action :=
  modify (set_sendChannel
            (Some (mkChannel (readyState channel) (bufferedAmount channel)
                     BUFFER_LOW_THRESHOLD))) >>>
  (if isInitiator then initializeEncryption k else skip).

Definition processNextFile : Action :=
  λ m,
    match sendQueue m with
    | [] => emit OnTransferComplete m
    | queued :: rest =>
        (modify (set_sendQueue rest) >>>
         modify (set_currentSendFile (Some queued)) >>>
         modify (set_currentChunkIndex 0) >>>
         modify (set_totalChunks (FileInfo.totalChunks (QueuedFile.info queued))) >>>
         modify (set_isPaused false) >>>
         sendMessage FILE_INFO (encodeFileInfo (QueuedFile.info queued))) m
    end.

(** [Math.ceil(file.size / CHUNK_SIZE)]. *)
Definition chunk_count (size : N) : N := (size + (CHUNK_SIZE - 1)) / CHUNK_SIZE.

(** The queue entry [sendFiles] makes of a file and the UUID drawn for it. *)
Definition queue_file (f : File.t * string) : QueuedFile.t :=
  let '(file, uuid) := f in
  QueuedFile.mk file
    (FileInfo.mk uuid (File.name file) (File.size file) (File.type file)
       (chunk_count (File.size file))
       (Some (if truthy (Some (File.webkitRelativePath file))
              then File.webkitRelativePath file
              else File.name file))).

(** [sendFiles], each file with the [crypto.randomUUID()] drawn for it. *)
Definition sendFiles (files : list (File.t * string)) : Action :=
  λ m,
    if negb (from_option is_open false (sendChannel m)) then
      emit (Rejected "DataChannel not ready") m
    else if negb (isEncryptionReady m) then
      emit (Rejected "Encryption not initialized") m
    else
      let queuedFiles := map queue_file files in
      (modify (λ m, set_sendQueue (sendQueue m ++ queuedFiles) m) >>>
       (λ m, sendMessage QUEUE_INFO
               (encodeQueueInfo
                  (QueueInfo.mk (N.of_nat (length (sendQueue m))) 0)) m) >>>
       (λ m, match currentSendFile m with
             | Some _ => skip m
             | None => processNextFile m
             end)) m.

(** [sendNextChunk], with [chunk.arrayBuffer()] and [encryptChunk]
    settled within the step: no other event is handled between the test
    of the buffer and the send. *)
Definition sendNextChunk : Action :=
  λ m,
    match currentSendFile m, sendChannel m with
    | Some cur, Some ch =>
        if isPaused m then skip m
        else if totalChunks m <=? currentChunkIndex m then
          let totalBytes := File.size (QueuedFile.file cur) in
          (sendMessage FILE_COMPLETE [] >>>
           notifyProgress totalBytes totalBytes true (QueuedFile.info cur) >>>
           modify (set_currentSendFile None) >>>
           emit (SetTimeout TimerProcessNextFile 100)) m
        else if BUFFER_FULL_THRESHOLD <? bufferedAmount ch then
          modify (set_isPaused true) m
        else
          let start := currentChunkIndex m * CHUNK_SIZE in
          let stop := N.min (start + CHUNK_SIZE) (File.size (QueuedFile.file cur)) in
          let plainChunk := Bytes.slice start stop (File.bytes (QueuedFile.file cur)) in
          match Encryption.encryptChunk plainChunk (encryption m) with
          | Some (encrypted, iv, em) =>
              let data :=
                encodeEncryptedChunk (currentChunkIndex m) encrypted iv
                  (FileInfo.id (QueuedFile.info cur)) in
              (modify (set_encryption em) >>>
               sendMessage FILE_CHUNK data >>>
               modify (λ m, set_currentChunkIndex (currentChunkIndex m + 1) m) >>>
               notifyProgress stop (File.size (QueuedFile.file cur)) true
                 (QueuedFile.info cur) >>>
               emit (SetTimeout TimerSendNextChunk 0)) m
          | None =>
              (emit (OnError "Failed to process file chunk") >>>
               modify (set_currentSendFile None)) m
          end
    | _, _ => skip m
    end.

(** The [bufferedamountlow] listener. *)
Definition onBufferedAmountLow : Action :=
  λ m,
    match isPaused m, currentSendFile m with
    | true, Some _ => (modify (set_isPaused false) >>> sendNextChunk) m
    | _, _ => skip m
    end.

Definition handleEncryptionKey (keyData : list byte) : Action :=
  λ m,
    if isEncryptionReady m then skip m
    else
      match Encryption.importKey keyData (encryption m) with
      | Some em =>
          (modify (set_encryption em) >>> modify (set_isEncryptionReady true)) m
      | None => emit (OnError "Failed to initialize encryption") m
      end.

(** [handleQueueInfo] decodes the payload and logs it. *)
Definition handleQueueInfo (payload : list byte) : Action := skip.

(** [handleFileInfo]; it ends without effect when the payload does not
    parse or [new Array(totalChunks)] throws. *)
Definition handleFileInfo (payload : list byte) : Action :=
  λ m,
    match decodeFileInfo payload with
    | None => skip m
    | Some fileInfo =>
        if onFileOffer fileInfo (QueueInfo.mk 1 0) then
          if 4294967296 <=? FileInfo.totalChunks fileInfo then skip m
          else
            let metadata :=
              FileMetadata.mk fileInfo
                (replicate (N.to_nat (FileInfo.totalChunks fileInfo)) None) 0 in
            (modify (λ m, set_receivingFiles
                            (<[FileInfo.id fileInfo := metadata]>
                               (receivingFiles m)) m) >>>
             modify (set_currentReceiveFileId (Some (FileInfo.id fileInfo))) >>>
             sendMessage FILE_ACCEPT []) m
        else sendMessage FILE_REJECT [] m
    end.

(** [handleFileChunk], with [decryptChunk] settled within the step: the
    chunk is stored before the next frame is handled.
    [TransferAwait.handleFileChunk] is the method with its [await]. *)
Definition handleFileChunk (payload : list byte) : Action :=
  λ m,
    match decodeEncryptedChunk payload with
    | None => skip m
    | Some c =>
        match receivingFiles m !! fileId c with
        | None => skip m
        | Some receivingFile =>
            match Encryption.decryptChunk (encrypted c) (iv c) (encryption m) with
            | Some decrypted =>
                let receivingFile' :=
                  FileMetadata.mk (FileMetadata.info receivingFile)
                    (array_store (FileMetadata.receivedChunks receivingFile)
                       (chunkIndex c) decrypted)
                    (FileMetadata.bytesReceived receivingFile
                     + Bytes.byteLength decrypted) in
                (modify (λ m, set_receivingFiles
                                (<[fileId c := receivingFile']>
                                   (receivingFiles m)) m) >>>
                 notifyProgress (FileMetadata.bytesReceived receivingFile')
                   (FileInfo.size (FileMetadata.info receivingFile)) false
                   (FileMetadata.info receivingFile)) m
            | None => emit (OnError "Failed to decrypt file chunk") m
            end
        end
    end.

(** [handleFileComplete]. The file is written with the name and the type
    of the offer, as [new File] is called; the type the object then
    reports is [File.normal_type] of it, which
    [TransferAwait.handleFileComplete] applies. *)
Definition handleFileComplete : Action :=
  λ m,
    if truthy (currentReceiveFileId m) then
      let fileId := default "" (currentReceiveFileId m) in
      match receivingFiles m !! fileId with
      | None => skip m
      | Some receivingFile =>
          let allChunks :=
            filter_defined (FileMetadata.receivedChunks receivingFile) in
          let info := FileMetadata.info receivingFile in
          let file :=
            File.mk (FileInfo.name info) (FileInfo.type info) ""
              (concat allChunks) in
          (emit (OnFileReceived file receivingFile) >>>
           modify (λ m, set_receivingFiles (delete fileId (receivingFiles m)) m) >>>
           modify (set_currentReceiveFileId None)) m
      end
    else skip m.

Definition handleFileAccept : Action := sendNextChunk.

Definition handleFileReject : Action :=
  emit (OnError "File transfer rejected") >>>
  modify (set_currentSendFile None) >>>
  modify (set_sendQueue []).

(** [handleMessage]: an empty frame makes [getUint8(0)] throw. *)
Definition handleMessage (data : list byte) : Action :=
  match data with
  | [] => skip
  | tag :: payload =>
      match MessageType_of_value (Byte.to_N tag) with
      | Some ENCRYPTION_KEY => handleEncryptionKey payload
      | Some QUEUE_INFO => handleQueueInfo payload
      | Some FILE_INFO => handleFileInfo payload
      | Some FILE_CHUNK => handleFileChunk payload
      | Some FILE_COMPLETE => handleFileComplete
      | Some FILE_ACCEPT => handleFileAccept
      | Some FILE_REJECT => handleFileReject
      | Some PROGRESS | None => skip
      end
  end.

(** [reset], on the four fresh random bytes of the session prefix. *)
Definition reset (r0 r1 r2 r3 : byte) : Action :=
  λ m,
    (mk (sendChannel m) [] None 0 0 false ∅ None
       (Encryption.reset r0 r1 r2 r3 (encryption m)) false, []).

(** What can happen to a manager: a call of its public methods, one of
    the channel's two events, a timer it set coming due, or the transport
    changing the channel's state and its count of buffered bytes. Each is
    handled to its end, awaited steps included, before the next. *)
Inductive Event :=
| EvSetDataChannel (channel : RTCDataChannel) (isInitiator : bool) (k : CryptoKey)
| EvSendFiles (files : list (File.t * string))
| EvReset (r0 r1 r2 r3 : byte)
| EvMessage (data : list byte)
| EvBufferedAmountLow
| EvTimer (t : Timer)
| EvTransport (state : RTCDataChannelState) (buffered : N).

Definition onTransport (state : RTCDataChannelState) (buffered : N) : Action :=
  modify (λ m, set_sendChannel
                 (option_map
                    (λ ch, mkChannel state buffered
                             (bufferedAmountLowThreshold ch))
                    (sendChannel m)) m).

Definition handle (ev : Event) : Action :=
  match ev with
  | EvSetDataChannel channel isInitiator k => setDataChannel channel isInitiator k
  | EvSendFiles files => sendFiles files
  | EvReset r0 r1 r2 r3 => reset r0 r1 r2 r3
  | EvMessage data => handleMessage data
  | EvBufferedAmountLow => onBufferedAmountLow
  | EvTimer TimerSendNextChunk => sendNextChunk
  | EvTimer TimerProcessNextFile => processNextFile
  | EvTransport state buffered => onTransport state buffered
  end.

(** A run: the events handled one after the other. *)
Fixpoint run (evs : list Event) : Action :=
  match evs with
  | [] => skip
  | ev :: evs' => handle ev >>> run evs'
  end.

(** The frames among the effects, in order. *)
Definition frames (es : list Effect) : list (list byte) :=
  omap (λ e, match e with ChannelSend d => Some d | _ => None end) es.

(** The files given to [onFileReceived], in order. *)
Definition received (es : list Effect) : list File.t :=
  omap (λ e, match e with OnFileReceived f _ => Some f | _ => None end) es.

(** The tag of a frame. *)
Definition frame_type (data : list byte) : option MessageType :=
  match data with
  | [] => None
  | tag :: _ => MessageType_of_value (Byte.to_N tag)
  end.

End WithHost.
End Transfer.

(** ** Statements about the signaling server *)

Module SignalingSpec.
Import Signaling.

(** The state after the server has answered [clientId] with an error and
    changed nothing else. *)
Definition error_reply (clientId code message : string) (s : State) : State :=
  mkState (clients s) (rooms s)
    (wire s ++ [(clientId, ErrorMessage code message)]).

(** Every room is stored under its own code. *)
Definition rooms_keyed (s : State) : Prop :=
  ∀ k room, rooms s !! k = Some room → Room.id room = k.

(** The create-room sentence as the specification words it: the code of
    the new room is not the code of an existing room, the requester is its
    sole member and its creator, and every existing room is still there. *)
Definition create_room_fresh : Prop :=
  ∀ s clientId client uuid,
    clients s !! clientId = Some client →
    truthy (Client.roomId client) = false →
    let s' := handleCreateRoom clientId uuid s in
    ∃ code,
      rooms s !! code = None
      ∧ rooms s' !! code = Some (Room.mk code [clientId] clientId)
      ∧ ∀ k room, rooms s !! k = Some room → rooms s' !! k = Some room.

(** Alice and Bob share room ABCDEF; Carol is connected and in no room. *)
Definition two_in_room : State :=
  mkState
    (<["alice" := Client.mk OPEN (Some "ABCDEF")]>
       (<["bob" := Client.mk OPEN (Some "ABCDEF")]>
          (<["carol" := Client.mk OPEN None]> ∅)))
    (<["ABCDEF" := Room.mk "ABCDEF" ["alice"; "bob"] "alice"]> ∅)
    [].





(** The state after [message] was written to [peer] and nothing else
    changed. *)
Definition delivered (peer : string) (message : ServerMessage) (s : State)
    : State :=
  mkState (clients s) (rooms s) (wire s ++ [(peer, message)]).

(** Alice and Bob share room ABC123. *)
Definition paired : State :=
  mkState
    (<["alice" := Client.mk OPEN (Some "ABC123")]>
       (<["bob" := Client.mk OPEN (Some "ABC123")]> ∅))
    (<["ABC123" := Room.mk "ABC123" ["alice"; "bob"] "alice"]> ∅)
    [].

End SignalingSpec.

(** ** Statements about the encryption manager *)

Module EncryptionSpec.

(** The IV the specification gives the [n]-th encryption of a sender: the
    session prefix, then [n] as a 64-bit big-endian integer. *)
Definition expected_iv (sessionId : list byte) (n : N) : list byte :=
  sessionId ++ Bytes.be_bytes 8 n.

(** No call of the sequence is [reset]: the manager keeps the key it has. *)
Definition key_held `{WebCrypto} (cs : list Encryption.Call) : Prop :=
  forallb (λ c, negb (Encryption.is_reset c)) cs = true.

End EncryptionSpec.

(** ** A stand-in for the host, to run the model on examples *)

Module Toy.

(** A keyed transformation with a check value, in place of AES-GCM: the
    plaintext reversed, then sixteen bytes taken from the key and the IV;
    decryption checks them. *)
Definition tag (k iv : list byte) : list byte :=
  take 16 (k ++ iv ++ Bytes.zeros 16).

Definition encrypt (k iv plain : list byte) : list byte :=
  rev plain ++ tag k iv.

Definition decrypt (k iv c : list byte) : option (list byte) :=
  let n := (length c - 16)%nat in
  if (16 <=? length c)%nat
     && forallb (λ p, Byte.eqb (fst p) (snd p)) (combine (drop n c) (tag k iv))
  then Some (rev (take n c))
  else None.

#[local] Instance crypto : WebCrypto := {|
  CryptoKey := list byte;
  exportKey := id;
  importRawKey := λ raw, if (length raw =? 32)%nat then Some raw else None;
  aes_gcm_encrypt := encrypt;
  aes_gcm_decrypt := decrypt
|}.

Definition key : list byte := replicate 32 Byte.x2a.

(** A length-prefixed rendering of the two records, in place of JSON. *)
Definition put_str (s : string) : list byte :=
  let bs := list_byte_of_string s in
  Bytes.be_bytes 1 (Bytes.byteLength bs) ++ bs.

Definition get_str (bs : list byte) : option (string * list byte) :=
  match bs with
  | [] => None
  | l :: r =>
      let n := N.to_nat (Byte.to_N l) in
      if (length r <? n)%nat then None
      else Some (string_of_list_byte (take n r), drop n r)
  end.

Definition get_num (bs : list byte) : option (N * list byte) :=
  if (length bs <? 8)%nat then None
  else Some (Bytes.be_value (take 8 bs), drop 8 bs).

Definition put_FileInfo (i : FileInfo.t) : list byte :=
  put_str (FileInfo.id i) ++ put_str (FileInfo.name i)
  ++ Bytes.be_bytes 8 (FileInfo.size i) ++ put_str (FileInfo.type i)
  ++ Bytes.be_bytes 8 (FileInfo.totalChunks i)
  ++ match FileInfo.path i with
     | Some p => Byte.x01 :: put_str p
     | None => [Byte.x00]
     end.

Definition get_FileInfo (bs : list byte) : option FileInfo.t :=
  '(id, bs) ← get_str bs;
  '(name, bs) ← get_str bs;
  '(size, bs) ← get_num bs;
  '(type, bs) ← get_str bs;
  '(total, bs) ← get_num bs;
  match bs with
  | [] => None
  | flag :: bs =>
      if Byte.eqb flag Byte.x00
      then Some (FileInfo.mk id name size type total None)
      else '(p, _) ← get_str bs;
           Some (FileInfo.mk id name size type total (Some p))
  end.

#[local] Instance json : JsonText := {|
  json_of_FileInfo := put_FileInfo;
  FileInfo_of_json := get_FileInfo;
  json_of_QueueInfo := λ q,
    Bytes.be_bytes 8 (QueueInfo.totalFiles q)
    ++ Bytes.be_bytes 8 (QueueInfo.currentIndex q);
  QueueInfo_of_json := λ bs,
    '(total, bs) ← get_num bs;
    '(idx, _) ← get_num bs;
    Some (QueueInfo.mk total idx)
|}.

(** An application that accepts every offer. *)
#[local] Instance accept_all : FileTransferCallbacks := {|
  onFileOffer := λ _ _, true
|}.

(** An open channel with nothing buffered. *)
Definition channel : Transfer.RTCDataChannel :=
  Transfer.mkChannel Transfer.open 0 0.

(** The initiator's manager once the channel is set and the key sent. *)
Definition initiator : Transfer.FileTransferManager :=
  fst (Transfer.setDataChannel channel true key
         (Transfer.new Byte.xa0 Byte.xa1 Byte.xa2 Byte.xa3)).

(** The joiner's manager once it has handled the key message. *)
Definition joiner : Transfer.FileTransferManager :=
  fst (Transfer.run
         [Transfer.EvSetDataChannel channel false key;
          Transfer.EvMessage
            (Bytes.byte_of_N (Transfer.MessageType_value Transfer.ENCRYPTION_KEY)
             :: key)]
         (Transfer.new Byte.xb0 Byte.xb1 Byte.xb2 Byte.xb3)).

Definition uuid1 : string := "6f1c2a3b-0d4e-4f5a-8b6c-7d8e9f0a1b2c".
Definition uuid2 : string := "0a1b2c3d-4e5f-4a6b-8c7d-8e9f0a1b2c3d".

(** The initiator with one file in its queue, no file in flight. *)
Definition queued (f : File.t) (uuid : string) : Transfer.FileTransferManager :=
  Transfer.set_sendQueue [Transfer.queue_file (f, uuid)] initiator.

(** The peer's [FILE_ACCEPT], then the timer between two chunks. *)
Definition accept_then_timer : list Transfer.Event :=
  [Transfer.EvMessage
     [Bytes.byte_of_N (Transfer.MessageType_value Transfer.FILE_ACCEPT)];
   Transfer.EvTimer Transfer.TimerSendNextChunk].


(** The initiator after a batch of two files was submitted: the first is
    offered, the second waits in the queue. *)
Definition offered (f1 f2 : File.t) (uuid1 uuid2 : string)
    : Transfer.FileTransferManager :=
  fst (Transfer.sendFiles [(f1, uuid1); (f2, uuid2)] initiator).

(** What may follow a rejection: a late accept, both timers, a low-water
    event, the transport draining. *)
Definition after_reject : list Transfer.Event :=
  accept_then_timer
  ++ [Transfer.EvTimer Transfer.TimerProcessNextFile;
      Transfer.EvBufferedAmountLow;
      Transfer.EvTransport Transfer.open 0].



(** A file of three bytes, an empty file, a file of one byte. *)
Definition hello : File.t :=
  File.mk "hello.bin" "application/octet-stream" ""
    [Byte.x68; Byte.x69; Byte.x21].
Definition empty : File.t := File.mk "empty.txt" "text/plain" "" [].
Definition one : File.t := File.mk "one.bin" "" "" [Byte.x31].

End Toy.

(** ** Statements about the file transfer manager *)

Module TransferSpec.
Import Transfer.
Section WithHost.
Context `{WebCrypto} `{JsonText} `{FileTransferCallbacks}.
Local Open Scope N_scope.

(** A frame on the channel: the tag byte, then the payload. *)
Definition frame (type : MessageType) (payload : list byte) : list byte :=
  Bytes.byte_of_N (MessageType_value type) :: payload.

(** The plaintext of chunk [i] of a file. *)
Definition chunk_of (file : File.t) (i : nat) : list byte :=
  Bytes.slice (N.of_nat i * CHUNK_SIZE)
    (N.min (N.of_nat i * CHUNK_SIZE + CHUNK_SIZE) (File.size file))
    (File.bytes file).

(** The [FILE_CHUNK] frame of chunk [i] of a queued file, for a sender
    with key [k] and session prefix [sid] whose counter was [c0] when the
    file began. *)
Definition chunk_frame (k : CryptoKey) (sid : list byte) (c0 : N)
    (qf : QueuedFile.t) (i : nat) : list byte :=
  let iv := EncryptionSpec.expected_iv sid (c0 + N.of_nat i) in
  frame FILE_CHUNK
    (encodeEncryptedChunk (N.of_nat i)
       (aes_gcm_encrypt k iv (chunk_of (QueuedFile.file qf) i)) iv
       (FileInfo.id (QueuedFile.info qf))).

(** The events of a sender while one file streams: the peer's
    [FILE_ACCEPT], the timer between two chunks, the low-water event, the
    transport draining or filling its buffer with the channel open. *)
Definition is_streaming (ev : Event) : bool :=
  match ev with
  | EvMessage (tag :: _) => Byte.to_N tag =? MessageType_value FILE_ACCEPT
  | EvBufferedAmountLow => true
  | EvTimer TimerSendNextChunk => true
  | EvTransport open _ => true
  | _ => false
  end.

(** A schedule under which a file of [n] chunks streams without pausing:
    the transport has drained its buffer before the peer's accept and
    before each timer comes due; one timer more than chunks, the last one
    sending [FILE_COMPLETE]. *)
Definition drained_schedule (n : nat) : list Event :=
  [EvTransport open 0; EvMessage (frame FILE_ACCEPT [])]
  ++ concat (replicate n [EvTransport open 0; EvTimer TimerSendNextChunk]).

(** The sender has file [qf] in flight and has sent its first [i] chunks. *)
Definition sending (k : CryptoKey) (sid : list byte) (c0 : N)
    (qf : QueuedFile.t) (i : nat) (m : FileTransferManager) : Prop :=
  currentSendFile m = Some qf
  ∧ totalChunks m = FileInfo.totalChunks (QueuedFile.info qf)
  ∧ currentChunkIndex m = N.of_nat i
  ∧ Encryption.key (encryption m) = Some k
  ∧ Encryption.sessionId (encryption m) = sid
  ∧ Encryption.counter (encryption m) = c0 + N.of_nat i
  ∧ from_option is_open false (sendChannel m) = true.

(** The frames a sender puts on the channel for the file at the head of
    its queue: those of [processNextFile], then those of the events [evs]
    that follow. *)
Definition file_frames (m0 : FileTransferManager) (evs : list Event)
    : list (list byte) :=
  frames (snd (processNextFile m0))
  ++ frames (snd (run evs (fst (processNextFile m0)))).


(** The steps of a run: the manager before each event, the event, and
    what handling it did. *)
Fixpoint history (evs : list Event) (m : FileTransferManager)
    : list (FileTransferManager * Event * list Effect) :=
  match evs with
  | [] => []
  | ev :: evs' => (m, ev, snd (handle ev m)) :: history evs' (fst (handle ev m))
  end.

(** The count of buffered bytes a manager reads from its channel. *)
Definition buffered (m : FileTransferManager) : N :=
  from_option bufferedAmount 0 (sendChannel m).


Definition is_low (ev : Event) : bool :=
  match ev with EvBufferedAmountLow => true | _ => false end.

Definition is_sendFiles (ev : Event) : bool :=
  match ev with EvSendFiles _ => true | _ => false end.

(** A frame of the outbound file stream: [FILE_INFO] or [FILE_CHUNK]. *)
Definition is_file_frame (f : list byte) : bool :=
  match frame_type f with
  | Some FILE_INFO | Some FILE_CHUNK => true
  | _ => false
  end.


(** The receiver's array after the chunks numbered in [got] were stored
    into [n] holes. *)
Definition stored (file : File.t) (got : list nat) (n : nat)
    : list (option (list byte)) :=
  (λ j, if decide (j ∈ got) then Some (chunk_of file j) else None)
  <$> seq 0 n.

(** The receiver holds the session key and an active reassembly record
    for [info], with the chunks numbered in [got] stored. *)
Definition receiving (k : CryptoKey) (info : FileInfo.t) (file : File.t)
    (got : list nat) (r : FileTransferManager) : Prop :=
  Encryption.key (encryption r) = Some k
  ∧ currentReceiveFileId r = Some (FileInfo.id info)
  ∧ ∃ n, receivingFiles r !! FileInfo.id info
         = Some (FileMetadata.mk info
                   (stored file got (N.to_nat (FileInfo.totalChunks info))) n).

(** The frames of one file as the receiver gets them when chunk [j] never
    arrives. *)
Definition frames_without (k : CryptoKey) (sid : list byte) (c0 : N)
    (qf : QueuedFile.t) (j : nat) : list (list byte) :=
  let n := N.to_nat (FileInfo.totalChunks (QueuedFile.info qf)) in
  frame FILE_INFO (encodeFileInfo (QueuedFile.info qf))
  :: map (chunk_frame k sid c0 qf) (seq 0 j ++ seq (S j) (n - S j))
  ++ [frame FILE_COMPLETE []].

(** Where a frame of type [t] sent while handling [ev] in state [m] can
    come from: a chunk or a completion needs a file in flight and a sender
    that is not paused or is being woken by the low-water event, a chunk
    moreover a buffer within the high-water mark; an offer needs a queued
    file or a call of [sendFiles]. *)
Definition frame_origin (ev : Event) (m : FileTransferManager)
    (t : MessageType) : Prop :=
  match t with
  | FILE_CHUNK =>
      is_Some (currentSendFile m)
      ∧ (isPaused m = false ∨ is_low ev = true)
      ∧ buffered m <= BUFFER_FULL_THRESHOLD
  | FILE_COMPLETE =>
      is_Some (currentSendFile m)
      ∧ (isPaused m = false ∨ is_low ev = true)
  | FILE_INFO => sendQueue m ≠ [] ∨ is_sendFiles ev = true
  | _ => True
  end.


End WithHost.
End TransferSpec.

(** ** The listeners of the server, and the states it can reach *)

Module SignalingEvents.
Import Signaling SignalingSpec.

(** What the listeners receive: a socket connecting (the listener draws
    [clientId]), a frame on a connected socket (with the UUID drawn if the
    request creates a room), a socket closing. *)
Inductive Event :=
| Connection (clientId : string)
| Message (clientId : string) (raw : Frame) (uuid : string)
| Close (clientId : string).

Definition handle (ev : Event) (s : State) : State :=
  match ev with
  | Connection clientId => onConnection clientId s
  | Message clientId raw uuid => handleMessage clientId raw uuid s
  | Close clientId => onClose clientId s
  end.

Fixpoint run (evs : list Event) (s : State) : State :=
  match evs with
  | [] => s
  | ev :: evs' => run evs' (handle ev s)
  end.

(** The server as it starts: both maps empty, nothing written. *)
Definition initial : State := mkState ∅ ∅ [].

(** What [randomUUID()] gives: an id no connected client has, and a
    string that is not empty. *)
Definition well_drawn (ev : Event) (s : State) : Prop :=
  match ev with
  | Connection clientId => clients s !! clientId = None
  | Message _ (Parsed CreateRoomMessage) uuid => uuid ≠ ""
  | _ => True
  end.

Fixpoint well_drawn_run (evs : list Event) (s : State) : Prop :=
  match evs with
  | [] => True
  | ev :: evs' => well_drawn ev s ∧ well_drawn_run evs' (handle ev s)
  end.

(** The frames a handler wrote: those of [s'] past those of [s]. *)
Definition written (s s' : State) : list (string * ServerMessage) :=
  drop (length (wire s)) (wire s').

(** Every room is stored under its own code, which is not empty; it has
    one or two members, each listed once, and each member is a connected
    client whose record names the room. *)
Definition consistent (s : State) : Prop :=
  ∀ k room, rooms s !! k = Some room →
    Room.id room = k ∧ k ≠ ""
    ∧ NoDup (Room.clients room)
    ∧ (1 <= length (Room.clients room) <= 2)%nat
    ∧ ∀ c, c ∈ Room.clients room →
        ∃ client, clients s !! c = Some client ∧ Client.roomId client = Some k.

(** The room a request is about: the room asked for by a join, the room
    the requester's record names otherwise. *)
Definition room_concerned (clientId : string) (raw : Frame) (s : State)
    : option string :=
  match raw with
  | Parsed (JoinRoomMessage roomId) => Some (toUpperCase roomId)
  | _ => clients s !! clientId ≫= Client.roomId
  end.

(** The codes the server answers a failed request with. *)
Definition error_codes : list string :=
  ["ALREADY_IN_ROOM"; "ROOM_NOT_FOUND"; "ROOM_FULL"; "NOT_IN_ROOM"; "NO_PEER";
   "INVALID_JSON"; "UNKNOWN_MESSAGE"].

(** The frames one request makes the server write, each with whom it
    goes to: an error goes to the requester and nothing else happens; a
    confirmation goes to the requester; anything else goes to another
    client, a member of the room the request is about. *)
Definition frame_ok (clientId : string) (raw : Frame) (s s' : State)
    (f : string * ServerMessage) : Prop :=
  match f.2 with
  | ErrorMessage code message =>
      f.1 = clientId ∧ code ∈ error_codes
      ∧ s' = error_reply clientId code message s
  | ConnectedMessage _ | RoomCreatedMessage _ | RoomJoinedMessage _ _ =>
      f.1 = clientId
  | _ =>
      f.1 ≠ clientId
      ∧ ∃ k room, room_concerned clientId raw s = Some k
          ∧ rooms s !! k = Some room
          ∧ (Room.id room = k → f.1 ∈ Room.clients room)
  end.

(** The frames that carry a peer's offer, answer or candidate, and the
    frames that answer a request. *)
Definition is_relayed (message : ServerMessage) : bool :=
  match message with
  | RelayedOfferMessage _ | RelayedAnswerMessage _
  | RelayedIceCandidateMessage _ _ _ => true
  | _ => false
  end.

Definition is_reply (message : ServerMessage) : bool :=
  match message with
  | ConnectedMessage _ | RoomCreatedMessage _ | RoomJoinedMessage _ _
  | ErrorMessage _ _ => true
  | _ => false
  end.


(** The join-room sentence as the specification words it, of one
    request: the server answers the requester with one of the three
    errors and does nothing else; or it adds the requester to a room and
    writes [room-joined] with [isInitiator] false to the requester, then
    [peer-joined] to the other occupant of the room. *)
Definition join_room_reply (clientId : string) (raw : Frame) (s : State)
    : Prop :=
  let s' := handleMessage clientId raw "" s in
  (∃ code message,
     code ∈ ["ALREADY_IN_ROOM"; "ROOM_NOT_FOUND"; "ROOM_FULL"]
     ∧ s' = error_reply clientId code message s)
  ∨ (∃ k room room' peer,
       rooms s !! k = Some room ∧ rooms s' !! k = Some room'
       ∧ peer ∈ Room.clients room ∧ peer ≠ clientId
       ∧ clientId ∈ Room.clients room'
       ∧ written s s'
         = [(clientId, RoomJoinedMessage (Room.id room) false);
            (peer, PeerJoinedMessage)]).




(** Alice waits alone in room ABC123 and her socket is closing (the
    closing handshake has begun, the close listener has not run yet); Bob
    is connected and in no room. *)
Definition host_closing : State :=
  mkState
    (<["alice" := Client.mk CLOSING (Some "ABC123")]>
       (<["bob" := Client.mk OPEN None]> ∅))
    (<["ABC123" := Room.mk "ABC123" ["alice"] "alice"]> ∅)
    [].


End SignalingEvents.

(** ** The signaling client *)

(** [SignalingProvider] (client/src/lib/signaling): the state it
    publishes, the refs it keeps, the functions it gives its consumers
    and the listeners of its socket. One socket is current at a time, and
    the events handled are those of the current socket. *)
Module SignalingClient.
Import Signaling.

Inductive ConnectionState := disconnected | connecting | connected.

Record SignalingState := mkSignalingState {
  connectionState : ConnectionState;
  clientId : option string;
  roomId : option string;
  isInitiator : bool;
  error : option (string * string)
}.

(** The published state and the refs: the ready state of the current
    socket if there is one, the count of reconnection attempts, the
    messages waiting for the socket to open. *)
Record Provider := mkProvider {
  state : SignalingState;
  socketRef : option ReadyState;
  reconnectAttemptRef : nat;
  messageQueueRef : list ClientMessage
}.

(** The provider as it mounts, before [connect]. *)
Definition initial : Provider :=
  mkProvider (mkSignalingState disconnected None None false None) None 0 [].

(** What the provider does to the outside: a frame given to the
    socket, a new socket made, a timer set, a message handed to the
    subscribers. *)
Inductive Out :=
| SocketSend (message : ClientMessage)
| NewSocket
| SetTimeout (delay : N)
| Notify (message : ServerMessage).

Definition RECONNECT_DELAYS : list N := [1000; 2000; 4000; 8000; 16000]%N.

Definition set_state (f : SignalingState → SignalingState) (p : Provider)
    : Provider :=
  mkProvider (f (state p)) (socketRef p) (reconnectAttemptRef p)
    (messageQueueRef p).

Definition socket_open (p : Provider) : bool :=
  match socketRef p with Some OPEN => true | _ => false end.

Definition flushMessageQueue (p : Provider) : Provider * list Out :=
  if socket_open p then
    (mkProvider (state p) (socketRef p) (reconnectAttemptRef p) [],
     map SocketSend (messageQueueRef p))
  else (p, []).

Definition send (message : ClientMessage) (p : Provider)
    : Provider * list Out :=
  if socket_open p then (p, [SocketSend message])
  else
    (mkProvider (state p) (socketRef p) (reconnectAttemptRef p)
       (messageQueueRef p ++ [message]),
     []).

Definition createRoom : Provider → Provider * list Out :=
  send CreateRoomMessage.

Definition joinRoom (roomId : string) : Provider → Provider * list Out :=
  send (JoinRoomMessage (toUpperCase roomId)).

Definition leaveRoom (p : Provider) : Provider * list Out :=
  let '(p, out) := send LeaveRoomMessage p in
  (set_state (λ prev, mkSignalingState (connectionState prev) (clientId prev)
                        None false (error prev)) p,
   out).

(** The state after a message of the server. *)
Definition reduce (message : ServerMessage) (prev : SignalingState)
    : SignalingState :=
  match message with
  | ConnectedMessage id =>
      mkSignalingState connected (Some id) (roomId prev) (isInitiator prev)
        None
  | RoomCreatedMessage r =>
      mkSignalingState (connectionState prev) (clientId prev) (Some r) true
        (error prev)
  | RoomJoinedMessage r i =>
      mkSignalingState (connectionState prev) (clientId prev) (Some r) i
        (error prev)
  | PeerLeftMessage =>
      mkSignalingState (connectionState prev) (clientId prev) None false
        (error prev)
  | ErrorMessage code message =>
      mkSignalingState (connectionState prev) (clientId prev) (roomId prev)
        (isInitiator prev) (Some (code, message))
  | _ => prev
  end.

Definition handleMessage (message : ServerMessage) (p : Provider)
    : Provider * list Out :=
  (set_state (reduce message) p, [Notify message]).

Definition connect (p : Provider) : Provider * list Out :=
  if socket_open p then (p, [])
  else
    (mkProvider
       (mkSignalingState connecting (clientId (state p)) (roomId (state p))
          (isInitiator (state p)) (error (state p)))
       (Some CONNECTING) (reconnectAttemptRef p) (messageQueueRef p),
     [NewSocket]).

(** The listeners of the socket; the event finds the socket open, or
    closed. [onmessage] gets the frame as [JSON.parse] gives it, [None]
    when it throws. *)
Definition onopen (p : Provider) : Provider * list Out :=
  flushMessageQueue
    (mkProvider (state p) (Some OPEN) 0 (messageQueueRef p)).

Definition onmessage (data : option ServerMessage) (p : Provider)
    : Provider * list Out :=
  match data with
  | Some message => handleMessage message p
  | None => (p, [])
  end.

Definition onclose (p : Provider) : Provider * list Out :=
  let attempt := reconnectAttemptRef p in
  let delay :=
    nth (Nat.min attempt (length RECONNECT_DELAYS - 1)) RECONNECT_DELAYS 0%N in
  (mkProvider
     (mkSignalingState disconnected (clientId (state p)) None false
        (error (state p)))
     (Some CLOSED) attempt (messageQueueRef p),
   [SetTimeout delay]).

(** The reconnection timer coming due. *)
Definition onReconnect (p : Provider) : Provider * list Out :=
  connect
    (mkProvider (state p) (socketRef p) (S (reconnectAttemptRef p))
       (messageQueueRef p)).

Inductive Event :=
| EvConnect
| EvSend (message : ClientMessage)
| EvCreateRoom
| EvJoinRoom (roomId : string)
| EvLeaveRoom
| EvOpen
| EvFrame (data : option ServerMessage)
| EvClose
| EvReconnect.

Definition handle (ev : Event) (p : Provider) : Provider * list Out :=
  match ev with
  | EvConnect => connect p
  | EvSend message => send message p
  | EvCreateRoom => createRoom p
  | EvJoinRoom roomId => joinRoom roomId p
  | EvLeaveRoom => leaveRoom p
  | EvOpen => onopen p
  | EvFrame data => onmessage data p
  | EvClose => onclose p
  | EvReconnect => onReconnect p
  end.

Fixpoint run (evs : list Event) (p : Provider) : Provider * list Out :=
  match evs with
  | [] => (p, [])
  | ev :: evs' =>
      let '(p1, o1) := handle ev p in
      let '(p2, o2) := run evs' p1 in
      (p2, o1 ++ o2)
  end.

(** The messages the consumers asked to send, and the frames given to
    the socket, each in order. *)
Definition requested (evs : list Event) : list ClientMessage :=
  omap (λ ev, match ev with
              | EvSend message => Some message
              | EvCreateRoom => Some CreateRoomMessage
              | EvJoinRoom roomId => Some (JoinRoomMessage (toUpperCase roomId))
              | EvLeaveRoom => Some LeaveRoomMessage
              | _ => None
              end) evs.

Definition sent (out : list Out) : list ClientMessage :=
  omap (λ o, match o with SocketSend message => Some message | _ => None end)
    out.

Definition timers (out : list Out) : list N :=
  omap (λ o, match o with SetTimeout delay => Some delay | _ => None end) out.

(** The sockets made, counted. *)
Definition sockets (out : list Out) : nat :=
  length (omap (λ o, match o with NewSocket => Some () | _ => None end) out).

(** The frames of the server addressed to one client, handled by that
    client's provider in the order written. *)
Definition deliver (frames : list (string * ServerMessage)) (who : string)
    (p : Provider) : Provider :=
  fold_left (λ p f, if decide (f.1 = who) then fst (handleMessage f.2 p) else p)
    frames p.

(** A connection that fails [k] times in a row: the socket closes and
    the timer comes due, [k] times. *)
Definition failures (k : nat) : list Event :=
  concat (replicate k [EvClose; EvReconnect]).

End SignalingClient.

Module TransferRuns.
Import Transfer TransferSpec.
Section WithHost.
Context `{WebCrypto} `{JsonText} `{FileTransferCallbacks}.
Local Open Scope N_scope.

(** A manager holds a key whenever it says encryption is ready, and says
    so whenever a file is in flight or queued. *)
Definition keyed (m : FileTransferManager) : Prop :=
  (isEncryptionReady m = true → is_Some (Encryption.key (encryption m)))
  ∧ (is_Some (currentSendFile m) ∨ sendQueue m ≠ [] →
     isEncryptionReady m = true).

(** An effect other than the error [sendNextChunk] reports when it cannot
    encrypt a chunk. *)
Definition no_chunk_error (e : Effect) : Prop :=
  e ≠ OnError "Failed to process file chunk".

(** The frames of the receiving side: the peer's key, the queue
    announcement, the offer, a chunk, the completion. *)
Definition is_inbound (ev : Event) : bool :=
  match ev with
  | EvMessage data =>
      match frame_type data with
      | Some FILE_INFO | Some FILE_CHUNK | Some FILE_COMPLETE
      | Some QUEUE_INFO | Some ENCRYPTION_KEY => true
      | _ => false
      end
  | _ => false
  end.

(** What drives the sending side: a submission, the peer's answer to an
    offer, the timers, the low-water event, the transport. *)
Definition is_outbound (ev : Event) : bool :=
  match ev with
  | EvSendFiles _ | EvBufferedAmountLow | EvTimer _ | EvTransport _ _ => true
  | EvMessage data =>
      match frame_type data with
      | Some FILE_ACCEPT | Some FILE_REJECT => true
      | _ => false
      end
  | _ => false
  end.

(** Two managers receive alike: the same reassembly table, the same
    active receive, the same key, held ready or not. *)
Definition receive_alike (m1 m2 : FileTransferManager) : Prop :=
  receivingFiles m1 = receivingFiles m2
  ∧ currentReceiveFileId m1 = currentReceiveFileId m2
  ∧ Encryption.key (encryption m1) = Encryption.key (encryption m2)
  ∧ isEncryptionReady m1 = isEncryptionReady m2.

(** The events under which a batch streams to its end: for each file,
    the drained schedule of its chunks, then the timer that
    [sendNextChunk] set on completing it, which starts the next file or
    reports the batch complete. *)
Definition batch_schedule (qs : list QueuedFile.t) : list Event :=
  concat
    (map (λ qf,
            drained_schedule
              (N.to_nat (FileInfo.totalChunks (QueuedFile.info qf)))
            ++ [EvTimer TimerProcessNextFile]) qs).

(** A file and the id drawn for it that go through: the offer survives
    its encoding, the application accepts it, the file has fewer than
    [2^32] chunks, the id is a string of ASCII characters, not empty and
    shorter than 256 bytes. *)
Definition deliverable (f : File.t * string) : Prop :=
  let info := QueuedFile.info (queue_file f) in
  decodeFileInfo (encodeFileInfo info) = Some info
  ∧ onFileOffer info (QueueInfo.mk 1 0) = true
  ∧ chunk_count (File.size f.1) < 4294967296
  ∧ is_ascii_string f.2 = true
  ∧ (length (list_byte_of_string f.2) < 256)%nat
  ∧ f.2 ≠ "".

(** The file the receiving application is given for a file sent: its
    name, its type as [new File] reports it and its bytes; the path
    within a folder is not part of it. *)
Definition delivered_file (f : File.t * string) : File.t :=
  File.mk (File.name f.1) (File.normal_type (File.type f.1)) ""
    (File.bytes f.1).

(** What a call of [sendNextChunk] keeps: the queue, the key and the
    session prefix, and an open channel open. *)
Definition kept (m m' : FileTransferManager) : Prop :=
  sendQueue m' = sendQueue m
  ∧ Encryption.key (encryption m') = Encryption.key (encryption m)
  ∧ Encryption.sessionId (encryption m') = Encryption.sessionId (encryption m)
  ∧ (from_option is_open false (sendChannel m) = true →
     from_option is_open false (sendChannel m') = true).

End WithHost.
End TransferRuns.

(** ** The hook around the manager *)

(** [useFileTransfer] (client/src/lib/fileTransfer/useFileTransfer.ts):
    the React state the views read, the two refs that guard file offers,
    the callbacks it gives the manager and the functions it returns. *)

Module TransferProgress.
(** [TransferProgress], its two byte counts. *)
Record t := mk { transferred : N; total : N }.
End TransferProgress.

Module Hook.
Import Transfer.
Section WithHost.
Context `{WebCrypto} `{JsonText} `{FileTransferCallbacks}.
Local Open Scope N_scope.

(** An offer as [onFileOffer] gets it; the promise made for it is known
    by the offer it answers. *)
Definition Offer : Type := FileInfo.t * QueueInfo.t.

Record State := mk {
  isSending : bool;
  isReceiving : bool;
  sendProgress : option TransferProgress.t;
  receiveProgress : option TransferProgress.t;
  pendingOffer : option Offer;
  currentSendFile : option FileInfo.t;
  currentReceiveFile : option FileInfo.t;
  resolveOfferRef : option Offer;
  isProcessingOfferRef : bool
}.

(** The state of a hook just mounted. *)
Definition initial : State :=
  mk false false None None None None None None false.

(** What the hook does to the outside: it settles the promise of an
    offer, or calls one of the two callbacks of the application. *)
Inductive Out :=
| Resolve (offer : Offer) (accept : bool)
| AppFileReceived (file : File.t) (info : FileMetadata.t)
| AppError (error : string).

(** The callbacks given to the manager. *)
Definition onFileOffer (fileInfo : FileInfo.t) (queueInfo : QueueInfo.t)
    (h : State) : State * list Out :=
  if isProcessingOfferRef h then (h, [Resolve (fileInfo, queueInfo) false])
  else
    (mk (isSending h) (isReceiving h) (sendProgress h) (receiveProgress h)
       (Some (fileInfo, queueInfo)) (currentSendFile h) (currentReceiveFile h)
       (Some (fileInfo, queueInfo)) true,
     []).

Definition onProgress (progress : TransferProgress.t) (sending : bool)
    (fileInfo : option FileInfo.t) (h : State) : State * list Out :=
  if sending then
    (mk (isSending h) (isReceiving h) (Some progress) (receiveProgress h)
       (pendingOffer h)
       (match fileInfo with Some i => Some i | None => currentSendFile h end)
       (currentReceiveFile h) (resolveOfferRef h) (isProcessingOfferRef h),
     [])
  else
    (mk (isSending h) (isReceiving h) (sendProgress h) (Some progress)
       (pendingOffer h) (currentSendFile h)
       (match fileInfo with Some i => Some i | None => currentReceiveFile h end)
       (resolveOfferRef h) (isProcessingOfferRef h),
     []).

Definition onFileReceived (file : File.t) (fileInfo : FileMetadata.t)
    (h : State) : State * list Out :=
  (mk (isSending h) false (sendProgress h) None (pendingOffer h)
     (currentSendFile h) None (resolveOfferRef h) (isProcessingOfferRef h),
   [AppFileReceived file fileInfo]).

Definition onTransferComplete (h : State) : State * list Out :=
  (mk false (isReceiving h) None (receiveProgress h) (pendingOffer h)
     None (currentReceiveFile h) (resolveOfferRef h) (isProcessingOfferRef h),
   []).

Definition onError (err : string) (h : State) : State * list Out :=
  (mk false false None None (pendingOffer h) None None
     (resolveOfferRef h) (isProcessingOfferRef h),
   [AppError err]).

(** A callback of the manager, as the manager's model reports it. *)
Definition callback (e : Effect) (h : State) : State * list Out :=
  match e with
  | OnProgress transferred total sending info =>
      onProgress (TransferProgress.mk transferred total) sending (Some info) h
  | OnFileReceived file info => onFileReceived file info h
  | OnTransferComplete => onTransferComplete h
  | OnError error => onError error h
  | ChannelSend _ | SetTimeout _ _ | Rejected _ => (h, [])
  end.

Fixpoint callbacks (es : list Effect) (h : State) : State * list Out :=
  match es with
  | [] => (h, [])
  | e :: es' =>
      let '(h1, o1) := callback e h in
      let '(h2, o2) := callbacks es' h1 in
      (h2, o1 ++ o2)
  end.

(** The message of the error a call of the manager threw, if it did. *)
Definition thrown (es : list Effect) : option string :=
  head (omap (λ e, match e with Rejected m => Some m | _ => None end) es).

(** [files.reduce((sum, f) => sum + f.size, 0)]. *)
Definition total_size (files : list File.t) : N :=
  fold_left (λ sum f, sum + File.size f) files 0.

(** [sendFiles], on the manager the hook holds. *)
Definition sendFiles (files : list (File.t * string))
    (m : FileTransferManager) (h : State)
    : FileTransferManager * State * list Out :=
  let h :=
    mk true (isReceiving h)
      (Some (TransferProgress.mk 0 (total_size (map fst files))))
      (receiveProgress h) (pendingOffer h) (currentSendFile h)
      (currentReceiveFile h) (resolveOfferRef h) (isProcessingOfferRef h) in
  let '(m', es) := Transfer.sendFiles files m in
  let '(h, out) := callbacks es h in
  match thrown es with
  | Some message =>
      (m',
       mk false (isReceiving h) None (receiveProgress h) (pendingOffer h)
         (currentSendFile h) (currentReceiveFile h) (resolveOfferRef h)
         (isProcessingOfferRef h),
       out ++ [AppError message])
  | None => (m', h, out)
  end.

Definition acceptFile (h : State) : State * list Out :=
  match resolveOfferRef h with
  | Some offer =>
      (mk (isSending h) true (sendProgress h)
         (Some (TransferProgress.mk 0 0)) None (currentSendFile h)
         (currentReceiveFile h) None false,
       [Resolve offer true])
  | None => (h, [])
  end.

Definition rejectFile (h : State) : State * list Out :=
  match resolveOfferRef h with
  | Some offer =>
      (mk (isSending h) (isReceiving h) (sendProgress h) (receiveProgress h)
         None (currentSendFile h) (currentReceiveFile h) None false,
       [Resolve offer false])
  | None => (h, [])
  end.

(** What happens to a mounted hook: the manager calls [onFileOffer] or
    reports through another callback, the view calls [acceptFile] or
    [rejectFile]. *)
Inductive Event :=
| EvOffer (fileInfo : FileInfo.t) (queueInfo : QueueInfo.t)
| EvCallback (e : Effect)
| EvAccept
| EvReject.

Definition handle (ev : Event) (h : State) : State * list Out :=
  match ev with
  | EvOffer fileInfo queueInfo => onFileOffer fileInfo queueInfo h
  | EvCallback e => callback e h
  | EvAccept => acceptFile h
  | EvReject => rejectFile h
  end.

Fixpoint run (evs : list Event) (h : State) : State * list Out :=
  match evs with
  | [] => (h, [])
  | ev :: evs' =>
      let '(h1, o1) := handle ev h in
      let '(h2, o2) := run evs' h1 in
      (h2, o1 ++ o2)
  end.

(** The manager's events with the hook's callbacks behind them. *)
Definition manage (ev : Transfer.Event) (m : FileTransferManager) (h : State)
    : FileTransferManager * State * list Out :=
  let '(m', es) := Transfer.handle ev m in
  let '(h', out) := callbacks es h in
  (m', h', out).

Fixpoint manage_all (evs : list Transfer.Event) (m : FileTransferManager)
    (h : State) : FileTransferManager * State * list Out :=
  match evs with
  | [] => (m, h, [])
  | ev :: evs' =>
      let '(m1, h1, o1) := manage ev m h in
      let '(m2, h2, o2) := manage_all evs' m1 h1 in
      (m2, h2, o1 ++ o2)
  end.

(** The offers among the events, and the answers among the outputs. *)
Definition offers (evs : list Event) : list Offer :=
  omap (λ ev, match ev with EvOffer i q => Some (i, q) | _ => None end) evs.

Definition answers (out : list Out) : list (Offer * bool) :=
  omap (λ o, match o with Resolve offer a => Some (offer, a) | _ => None end)
    out.

(** The guard on offers between two events: the offer shown to the user
    is the one whose promise is held, and the flag is up exactly when a
    promise is held. *)
Definition one_pending (h : State) : Prop :=
  pendingOffer h = resolveOfferRef h
  ∧ (isProcessingOfferRef h = true ↔ is_Some (resolveOfferRef h)).

End WithHost.
End Hook.

(** ** The receiving side with its awaits *)

(** [handleFileChunk] is an [async] method that [handleMessage] calls
    without awaiting it. While the frame is handled it runs up to
    [await this.encryption.decryptChunk(...)]: the record is decoded, the
    metadata object is read from the table and the decryption is started
    with the key held then. The rest of it (the store into
    [receivedChunks], the byte count, the progress report, or the error
    report) runs when the decryption settles, which can be after later
    frames were handled. It writes to the metadata object it read before
    the [await], whether the table still holds that object or not.
    [handleFileComplete] is not [async]: it reads the table and the array
    as they are when [FILE_COMPLETE] is handled.

    So the metadata objects are kept in a heap, the table maps a file id
    to the place of its object, and the calls of [handleFileChunk] that
    wait for their decryption are part of the state. The other methods
    are those of [Transfer], on the other fields. *)
Module TransferAwait.
Import Transfer.
Section WithHost.
Context `{WebCrypto} `{JsonText} `{FileTransferCallbacks}.
Local Open Scope N_scope.

(** A call of [handleFileChunk] stopped at its [await]: the metadata
    object it holds, the chunk index it decoded, and what the decryption
    gives it ([None] when the promise rejects). *)
Record PendingChunk := mkPending {
  held : nat;
  index : N;
  decrypted : option (list byte)
}.

(** The manager between two steps. [fields] are the fields of the class
    other than [receivingFiles], which is [table] read through [heap]
    ([receivingFiles fields] is not used). *)
Record Manager := mkManager {
  fields : FileTransferManager;
  heap : list FileMetadata.t;
  table : gmap string nat;
  pending : list PendingChunk
}.

(** A manager that is receiving nothing and waits for nothing. *)
Definition start (m : FileTransferManager) : Manager :=
  mkManager m [] ∅ [].

Definition Action : Type := Manager → Manager * list Effect.

(** A method of [Transfer] that leaves the table alone, on the fields. *)
Definition on_fields (a : Transfer.Action) : Action :=
  λ r, let '(m, es) := a (fields r) in
       (mkManager m (heap r) (table r) (pending r), es).

(** [handleFileInfo]: the metadata object is new. The method awaits the
    application's answer to the offer, which is [onFileOffer] here; the
    sender sends no chunk of the file before [FILE_ACCEPT] reaches it, so
    the answer is part of the step. *)
Definition handleFileInfo (payload : list byte) : Action :=
  λ r,
    match decodeFileInfo payload with
    | None => (r, [])
    | Some fileInfo =>
        if onFileOffer fileInfo (QueueInfo.mk 1 0) then
          if 4294967296 <=? FileInfo.totalChunks fileInfo then (r, [])
          else
            let metadata :=
              FileMetadata.mk fileInfo
                (replicate (N.to_nat (FileInfo.totalChunks fileInfo)) None) 0 in
            let r :=
              mkManager (fields r) (heap r ++ [metadata])
                (<[FileInfo.id fileInfo := length (heap r)]> (table r))
                (pending r) in
            on_fields
              (andThen
                 (modify (set_currentReceiveFileId
                            (Some (FileInfo.id fileInfo))))
                 (sendMessage FILE_ACCEPT [])) r
        else on_fields (sendMessage FILE_REJECT []) r
    end.

(** [handleFileChunk] up to its [await]. *)
Definition handleFileChunk (payload : list byte) : Action :=
  λ r,
    match decodeEncryptedChunk payload with
    | None => (r, [])
    | Some c =>
        match table r !! fileId c with
        | None => (r, [])
        | Some object =>
            let call :=
              mkPending object (chunkIndex c)
                (Encryption.decryptChunk (encrypted c) (iv c)
                   (encryption (fields r))) in
            (mkManager (fields r) (heap r) (table r) (pending r ++ [call]),
             [])
        end
    end.

(** [handleFileChunk] from its [await] on, for the [k]-th call that
    waits. *)
Definition resume (k : nat) : Action :=
  λ r,
    match pending r !! k with
    | None => (r, [])
    | Some call =>
        let waiting := delete k (pending r) in
        match decrypted call, heap r !! held call with
        | Some plain, Some receivingFile =>
            let receivingFile' :=
              FileMetadata.mk (FileMetadata.info receivingFile)
                (array_store (FileMetadata.receivedChunks receivingFile)
                   (index call) plain)
                (FileMetadata.bytesReceived receivingFile
                 + Bytes.byteLength plain) in
            (mkManager (fields r)
               (<[held call := receivingFile']> (heap r))
               (table r) waiting,
             [OnProgress (FileMetadata.bytesReceived receivingFile')
                (FileInfo.size (FileMetadata.info receivingFile)) false
                (FileMetadata.info receivingFile)])
        | Some _, None => (mkManager (fields r) (heap r) (table r) waiting, [])
        | None, _ =>
            (mkManager (fields r) (heap r) (table r) waiting,
             [OnError "Failed to decrypt file chunk"])
        end
    end.

Definition handleFileComplete : Action :=
  λ r,
    if truthy (currentReceiveFileId (fields r)) then
      let fileId := default "" (currentReceiveFileId (fields r)) in
      match table r !! fileId ≫= (heap r !!.) with
      | None => (r, [])
      | Some receivingFile =>
          let allChunks :=
            filter_defined (FileMetadata.receivedChunks receivingFile) in
          let info := FileMetadata.info receivingFile in
          let file :=
            File.mk (FileInfo.name info)
              (File.normal_type (FileInfo.type info)) ""
              (concat allChunks) in
          (mkManager (set_currentReceiveFileId None (fields r)) (heap r)
             (delete fileId (table r)) (pending r),
           [OnFileReceived file receivingFile])
      end
    else (r, []).

Definition handleMessage (data : list byte) : Action :=
  match data with
  | [] => λ r, (r, [])
  | tag :: payload =>
      match MessageType_of_value (Byte.to_N tag) with
      | Some FILE_INFO => handleFileInfo payload
      | Some FILE_CHUNK => handleFileChunk payload
      | Some FILE_COMPLETE => handleFileComplete
      | _ => on_fields (Transfer.handleMessage data)
      end
  end.

(** What happens next at the receiver: a frame arrives, or the
    decryption of the [k]-th waiting call settles. *)
Inductive Step :=
| Frame (data : list byte)
| Settle (k : nat).

Definition step (st : Step) : Action :=
  match st with
  | Frame data => handleMessage data
  | Settle k => resume k
  end.

Fixpoint run (sts : list Step) : Action :=
  λ r,
    match sts with
    | [] => (r, [])
    | st :: sts' =>
        let '(r1, e1) := step st r in
        let '(r2, e2) := run sts' r1 in
        (r2, e1 ++ e2)
    end.

(** Each frame handled once the decryption the frame before it started
    has settled. *)
Definition settled_in_turn (fs : list (list byte)) : list Step :=
  concat (map (λ f, [Frame f; Settle 0]) fs).

(** The steps while the chunks of one file come in: the frame of chunk
    [j] arrives, or the decryption of the [k]-th waiting call settles. *)
Inductive Move :=
| Arrives (j : nat)
| Settles (k : nat).

Definition step_of (ks : CryptoKey) (sid : list byte) (c0 : N)
    (qf : QueuedFile.t) (mv : Move) : Step :=
  match mv with
  | Arrives j => Frame (TransferSpec.chunk_frame ks sid c0 qf j)
  | Settles k => Settle k
  end.

(** The receiver is assembling [file] in the metadata object at [object]:
    it holds the key, the table has the object under the file's id, the
    chunks numbered in [got] are stored, and each waiting call holds this
    object and will be given the plaintext of the chunk it decoded. *)
Definition assembling (kr : CryptoKey) (info : FileInfo.t) (file : File.t)
    (object : nat) (got : list nat) (r : Manager) : Prop :=
  let n := N.to_nat (FileInfo.totalChunks info) in
  Encryption.key (encryption (fields r)) = Some kr
  ∧ currentReceiveFileId (fields r) = Some (FileInfo.id info)
  ∧ table r !! FileInfo.id info = Some object
  ∧ (∃ b, heap r !! object
          = Some (FileMetadata.mk info (TransferSpec.stored file got n) b))
  ∧ Forall (λ call,
              held call = object
              ∧ ∃ j, (j < n)%nat ∧ index call = N.of_nat j
                     ∧ decrypted call = Some (TransferSpec.chunk_of file j))
      (pending r).

(** Chunk [j] is stored or a waiting call will store it. *)
Definition on_its_way (got : list nat) (r : Manager) (j : nat) : Prop :=
  j ∈ got ∨ N.of_nat j ∈ index <$> pending r.

End WithHost.
End TransferAwait.

(* ================================================================== *)
(** * Theorems *)
(* ================================================================== *)

(** ** The signaling server *)

Section SignalingFacts.
Import Signaling SignalingSpec.

Lemma alter_as_insert {A} (f : A → A) (k : string) (x : A) (m : gmap string A) :
  m !! k = Some x → alter f k m = <[k := f x]> m.
Proof.
  intros Hk. apply map_eq. intros j.
  rewrite lookup_alter, lookup_insert.
  destruct (decide (k = j)) as [->|]; [by rewrite Hk|done].
Qed.

Lemma send_open s clientId client message :
  clients s !! clientId = Some client →
  Client.socket client = OPEN →
  send clientId message s
  = mkState (clients s) (rooms s) (wire s ++ [(clientId, message)]).
Proof. intros Hc Ho. unfold send. by rewrite Hc, Ho. Qed.


Lemma toUpperCase_length s : String.length (toUpperCase s) = String.length s.
Proof. induction s as [|c s IH]; simpl; congruence. Qed.

Lemma substring_prefix_length n s :
  (n <= String.length s)%nat → String.length (substring 0 n s) = n.
Proof.
  revert s. induction n as [|n IH]; intros [|c s]; simpl; intros Hn;
    try lia; try reflexivity.
  rewrite IH; lia.
Qed.

Lemma generateRoomId_length uuid :
  (6 <= String.length uuid)%nat → String.length (generateRoomId uuid) = 6%nat.
Proof.
  intros. unfold generateRoomId.
  by rewrite toUpperCase_length, substring_prefix_length.
Qed.

(** C3, as amended. A client in no room that asks for a room gets one
    under the code made of the first six characters of the UUID drawn,
    uppercased: the code is drawn once, it is not compared with the codes
    in use. The room has the requester as sole member and creator, the
    requester's record points to it, [room-created] is the only frame
    written and it goes to the requester. The rooms map changes at that
    code only, so when the code is not in use every existing room is
    kept. *)
Theorem create_room_effect s clientId client uuid :
  clients s !! clientId = Some client →
  truthy (Client.roomId client) = false →
  Client.socket client = OPEN →
  let code := generateRoomId uuid in
  let s' := handleCreateRoom clientId uuid s in
  rooms s' = <[code := Room.mk code [clientId] clientId]> (rooms s)
  ∧ clients s' = <[clientId := Client.mk OPEN (Some code)]> (clients s)
  ∧ wire s' = wire s ++ [(clientId, RoomCreatedMessage code)]
  ∧ ((6 <= String.length uuid)%nat → String.length code = 6%nat)
  ∧ (∀ k, k ≠ code → rooms s' !! k = rooms s !! k)
  ∧ (rooms s !! code = None →
     ∀ k room, rooms s !! k = Some room → rooms s' !! k = Some room).
Proof.
  intros Hc Hfree Hopen code s'. subst s'.
  unfold handleCreateRoom. rewrite Hc, Hfree. fold code.
  assert (Hc' : clients (set_roomId clientId (Some code)
                   (set_rooms (insert code (Room.mk code [clientId] clientId)) s))
                !! clientId = Some (Client.mk OPEN (Some code))).
  { simpl. rewrite lookup_alter_eq, Hc. simpl. by rewrite Hopen. }
  rewrite (send_open _ _ _ _ Hc' eq_refl). simpl.
  repeat split.
  - rewrite (alter_as_insert _ _ _ _ Hc). by rewrite Hopen.
  - apply generateRoomId_length.
  - intros k Hk. by rewrite lookup_insert_ne.
  - intros Hnew k room Hk. rewrite lookup_insert_ne; [done|].
    intros <-. congruence.
Qed.

Lemma create_room_effect_witness :
  wire (handleCreateRoom "carol" "3f9a1c2e-7b4d-4e8a-9c1f-0a2b3c4d5e6f"
          SignalingSpec.two_in_room)
  = [("carol", RoomCreatedMessage "3F9A1C")].
Proof.
  pose proof (create_room_effect two_in_room "carol" (Client.mk OPEN None)
                "3f9a1c2e-7b4d-4e8a-9c1f-0a2b3c4d5e6f"
                eq_refl eq_refl eq_refl) as (_ & _ & Hw & _).
  exact Hw.
Defined.

(** C3, as the specification words it, fails: Carol's request draws a
    UUID that starts with abcdef, and the room Alice and Bob share under
    ABCDEF is replaced by a room that holds Carol alone. *)
Lemma create_room_overwrites : ¬ create_room_fresh.
Proof.
  intros Hclaim.
  destruct (Hclaim two_in_room "carol" (Client.mk OPEN None)
              "abcdef12-3456-4789-8abc-def012345678" eq_refl eq_refl)
    as (code & Hfresh & Hnew & Hkeep).
  specialize (Hkeep "ABCDEF" (Room.mk "ABCDEF" ["alice"; "bob"] "alice") eq_refl).
  vm_compute in Hkeep. discriminate Hkeep.
Qed.

Lemma getPeerInRoom_other roomId clientId s peer :
  getPeerInRoom roomId clientId s = Some peer → peer ≠ clientId.
Proof.
  unfold getPeerInRoom. destruct (rooms s !! roomId) as [room|]; [|done].
  intros Hhd. apply head_Some_elem_of in Hhd.
  by apply list_elem_of_filter in Hhd as [? _].
Qed.


Lemma send_wire clientId message s :
  clients (send clientId message s) = clients s
  ∧ rooms (send clientId message s) = rooms s
  ∧ (wire (send clientId message s) = wire s
     ∨ wire (send clientId message s) = wire s ++ [(clientId, message)]).
Proof.
  unfold send. destruct (clients s !! clientId) as [c|]; [|by auto].
  destruct (is_open (Client.socket c)); simpl; auto.
Qed.

(** Every handler keeps each room stored under its own code. *)
Lemma onConnection_keeps_keyed clientId s :
  rooms_keyed s → rooms_keyed (onConnection clientId s).
Proof.
  intros Hk. unfold rooms_keyed, onConnection.
  by destruct (send_wire clientId (ConnectedMessage clientId)
                 (set_clients (insert clientId (Client.mk OPEN None)) s))
    as (_ & -> & _).
Qed.

Lemma handleMessage_keeps_keyed clientId raw uuid s :
  rooms_keyed s → rooms_keyed (handleMessage clientId raw uuid s).
Proof.
  assert (Hsend : ∀ c m s0, rooms_keyed s0 → rooms_keyed (send c m s0)).
  { intros c m s0 Hk. unfold rooms_keyed.
    by destruct (send_wire c m s0) as (_ & -> & _). }
  intros Hk. destruct raw as [| |message| |]; simpl; try by apply Hsend.
  2: done.
  2:{ unfold handleJoinRoom_no_string. repeat case_match; try done.
      by apply Hsend. }
  destruct message; simpl; try by (unfold relayToPeer;
    repeat case_match; apply Hsend).
  - unfold handleCreateRoom. repeat case_match; try done; try by apply Hsend.
    apply Hsend. intros k room. simpl. rewrite lookup_insert.
    case_decide; [by intros [= <-]; subst|by apply Hk].
  - unfold handleJoinRoom. repeat case_match; try done; try by apply Hsend.
    + apply Hsend, Hsend. intros k room. simpl. rewrite lookup_insert.
      case_decide; [intros [= <-]; subst; simpl; by eapply Hk|by apply Hk].
    + apply Hsend. intros k room. simpl. rewrite lookup_insert.
      case_decide; [intros [= <-]; subst; simpl; by eapply Hk|by apply Hk].
  - unfold handleLeaveRoom. repeat case_match; try done; subst;
      intros k room; simpl;
      repeat match goal with
        | |- context [rooms (send ?c ?m ?s0)] =>
            destruct (send_wire c m s0) as (_ & -> & _); simpl
        end;
      rewrite ?lookup_delete, ?lookup_insert;
      repeat case_decide; try done; try (by apply Hk);
      intros [= <-]; subst; simpl; by eapply Hk.
Qed.

Lemma onClose_keeps_keyed clientId s :
  rooms_keyed s → rooms_keyed (onClose clientId s).
Proof.
  intros Hk. unfold onClose.
  exact (handleMessage_keeps_keyed clientId (Parsed LeaveRoomMessage) "" s Hk).
Qed.

End SignalingFacts.

(** ** Typed arrays *)

Section BytesFacts.
Import Bytes.
Local Open Scope N_scope.

Lemma byte_of_N_to_N n : Byte.to_N (byte_of_N n) = n mod 256.
Proof.
  unfold byte_of_N. destruct (Byte.of_N (n mod 256)) as [b|] eqn:Hb.
  - by apply Byte.to_of_N.
  - apply Byte.of_N_None_iff in Hb.
    pose proof (N.mod_upper_bound n 256). lia.
Qed.

Lemma byte_of_to_N b : byte_of_N (Byte.to_N b) = b.
Proof.
  unfold byte_of_N. pose proof (Byte.to_N_bounded b).
  rewrite N.mod_small by lia. by rewrite Byte.of_to_N.
Qed.

Lemma be_bytes_length len v : length (be_bytes len v) = len.
Proof. induction len; simpl; congruence. Qed.

Lemma be_value_snoc bs b : be_value (bs ++ [b]) = be_value bs * 256 + Byte.to_N b.
Proof. unfold be_value. by rewrite fold_left_app. Qed.

Lemma be_value_app bs cs :
  be_value (bs ++ cs) = be_value bs * 256 ^ N.of_nat (length cs) + be_value cs.
Proof.
  induction cs as [|c cs IH] using rev_ind.
  - rewrite app_nil_r. simpl. unfold be_value at 3. simpl. lia.
  - rewrite app_assoc, !be_value_snoc, IH, length_app. simpl.
    replace (N.of_nat (length cs + 1)) with (N.succ (N.of_nat (length cs)))
      by lia.
    rewrite N.pow_succ_r'. lia.
Qed.

(** Reading back what [setUint8], [setUint32] or [setBigUint64] wrote
    gives the value modulo the width. *)
Lemma be_value_be_bytes len v :
  be_value (be_bytes len v) = v mod 256 ^ N.of_nat len.
Proof.
  induction len as [|k IH].
  - simpl. by rewrite N.mod_1_r.
  - cbn [be_bytes].
    change (byte_of_N (v / 256 ^ N.of_nat k) :: be_bytes k v)
      with ([byte_of_N (v / 256 ^ N.of_nat k)] ++ be_bytes k v).
    rewrite be_value_app, be_bytes_length, IH.
    unfold be_value at 1. simpl fold_left. rewrite byte_of_N_to_N.
    replace (N.of_nat (S k)) with (N.succ (N.of_nat k)) by lia.
    rewrite N.pow_succ_r'.
    set (m := 256 ^ N.of_nat k).
    assert (Hm : m ≠ 0) by (subst m; apply N.pow_nonzero; lia).
    rewrite (N.mul_comm 256 m), N.Div0.mod_mul_r. lia.
Qed.

Lemma be_bytes_inj len v w :
  v < 256 ^ N.of_nat len → w < 256 ^ N.of_nat len →
  be_bytes len v = be_bytes len w → v = w.
Proof.
  intros Hv Hw Heq. apply (f_equal be_value) in Heq.
  rewrite !be_value_be_bytes in Heq. by rewrite !N.mod_small in Heq.
Qed.

Lemma array_set_prefix src n :
  array_set (zeros (length src + n)) src 0 = src ++ zeros n.
Proof.
  unfold array_set, zeros. simpl. f_equal.
  rewrite drop_replicate. f_equal. lia.
Qed.

Lemma array_set_suffix pre src :
  array_set (pre ++ zeros (length src)) src (length pre) = pre ++ src.
Proof.
  unfold array_set, zeros.
  rewrite take_app_length. f_equal.
  rewrite drop_ge; [by rewrite app_nil_r|].
  rewrite length_app, length_replicate. lia.
Qed.

End BytesFacts.

(** ** The encryption manager *)

Section EncryptionFacts.
Context `{WebCrypto}.
Import Encryption EncryptionSpec.
Local Open Scope N_scope.

Lemma generateIV_iv em :
  length (sessionId em) = 4%nat →
  fst (generateIV em) = expected_iv (sessionId em) (counter em).
Proof.
  intros Hlen. unfold generateIV, expected_iv, IV_LENGTH, SESSION_ID_LENGTH.
  cbn [fst].
  set (be := Bytes.be_bytes 8 (counter em)).
  assert (Hbe : length be = 8%nat) by apply be_bytes_length.
  replace (Bytes.zeros 12)
    with (Bytes.zeros (length (sessionId em) + length be))
    by (by rewrite Hlen, Hbe).
  rewrite array_set_prefix, <- Hlen.
  apply array_set_suffix.
Qed.

Lemma expected_iv_inj sid v w :
  v < 2 ^ 64 → w < 2 ^ 64 → expected_iv sid v = expected_iv sid w → v = w.
Proof.
  intros Hv Hw Heq. unfold expected_iv in Heq. apply app_inv_head in Heq.
  by apply (be_bytes_inj 8).
Qed.

(** What a sequence of calls without [reset] does to the counter, and the
    IV of each encryption in it. *)
Lemma calls_ivs cs : ∀ em em' uses,
  length (sessionId em) = 4%nat →
  key_held cs →
  calls cs em = (em', uses) →
  sessionId em' = sessionId em
  ∧ counter em' = counter em + N.of_nat (length uses)
  ∧ ∀ i u, uses !! i = Some u →
      use_iv u = expected_iv (sessionId em) (counter em + N.of_nat i).
Proof.
  unfold key_held.
  induction cs as [|c cs IH]; intros em em' uses Hlen Hheld Hrun.
  - injection Hrun as <- <-. simpl. split; [done|]. split; [lia|].
    intros i u Hi. by rewrite lookup_nil in Hi.
  - cbn [calls] in Hrun. cbn [forallb] in Hheld.
    apply andb_prop in Hheld as [Hc Hheld].
    destruct (call c em) as [em1 u1] eqn:Hcall.
    destruct (calls cs em1) as [em2 u2] eqn:Hrest.
    injection Hrun as <- <-.
    assert (Hstep : sessionId em1 = sessionId em
              ∧ ((u1 = [] ∧ counter em1 = counter em)
                 ∨ (∃ u, u1 = [u] ∧ counter em1 = counter em + 1
                      ∧ use_iv u = expected_iv (sessionId em) (counter em)))).
    { destruct c; simpl in Hc, Hcall; try discriminate.
      - injection Hcall as <- <-. auto.
      - unfold importKey in Hcall. destruct (importRawKey keyData);
          injection Hcall as <- <-; auto.
      - unfold encryptChunk in Hcall. destruct (key em) as [k|].
        + pose proof (generateIV_iv em Hlen) as Hiv.
          destruct (generateIV em) as [iv0 em0] eqn:Hgen.
          injection Hcall as <- <-.
          unfold generateIV in Hgen. injection Hgen as Hiv0 <-.
          split; [done|]. right. eexists. split; [done|]. split; [done|].
          exact Hiv.
        + injection Hcall as <- <-. auto.
      - injection Hcall as <- <-. auto. }
    destruct Hstep as [Hsid Hstep].
    destruct (IH em1 em2 u2) as (Hsid2 & Hcnt2 & Hivs2);
      [congruence|done|done|].
    split; [congruence|].
    destruct Hstep as [[-> Hcnt]|(u & -> & Hcnt & Hiv)].
    + simpl. split; [lia|]. intros i v Hi.
      rewrite (Hivs2 i v Hi). congruence.
    + split; [rewrite length_app; simpl; lia|].
      intros [|i] v Hi; simpl in Hi.
      * injection Hi as <-. rewrite Hiv. f_equal. lia.
      * rewrite (Hivs2 i v Hi), Hsid. f_equal. lia.
Qed.

(** C2. A sender's manager, from its construction and for as long as it
    is not reset (through any number of key generations, key imports,
    encryptions and decryptions): the counter starts at 0, each encryption
    adds exactly 1 to it, the IV of the [i]-th encryption (from 0) is the
    four-byte session prefix followed by [i] as a 64-bit big-endian
    integer, and, up to [2^64] encryptions, no two encryptions use the
    same IV: the same key and IV are never used for two plaintexts. *)
Theorem iv_discipline r0 r1 r2 r3 cs em' uses :
  key_held cs →
  calls cs (new r0 r1 r2 r3) = (em', uses) →
  N.of_nat (length uses) <= 2 ^ 64 →
  counter (new r0 r1 r2 r3) = 0
  ∧ counter em' = N.of_nat (length uses)
  ∧ (∀ i u, uses !! i = Some u →
       use_iv u = expected_iv [r0; r1; r2; r3] (N.of_nat i))
  ∧ (∀ i j u v,
       uses !! i = Some u → uses !! j = Some v →
       use_key u = use_key v → use_iv u = use_iv v →
       i = j ∧ use_plain u = use_plain v).
Proof.
  intros Hheld Hrun Hbound.
  destruct (calls_ivs cs (new r0 r1 r2 r3) em' uses eq_refl Hheld Hrun)
    as (_ & Hcnt & Hivs).
  simpl in Hcnt, Hivs.
  split; [done|]. split; [done|]. split; [done|].
  intros i j u v Hi Hj _ Heq.
  pose proof (lookup_lt_Some _ _ _ Hi) as Hli.
  pose proof (lookup_lt_Some _ _ _ Hj) as Hlj.
  rewrite (Hivs i u Hi), (Hivs j v Hj) in Heq.
  apply expected_iv_inj in Heq; [|lia|lia].
  assert (i = j) as -> by lia.
  split; [done|]. congruence.
Qed.

End EncryptionFacts.

(** ** The sender of the file transfer manager *)

Section SenderFacts.
Context `{WebCrypto} `{JsonText} `{FileTransferCallbacks}.
Import Transfer TransferSpec.
Local Open Scope N_scope.

#[local] Arguments Bytes.byte_of_N : simpl never.
#[local] Arguments Bytes.be_bytes : simpl never.
#[local] Arguments Bytes.slice : simpl never.
#[local] Arguments encodeEncryptedChunk : simpl never.
#[local] Arguments N.mul : simpl never.
#[local] Arguments N.add : simpl never.
#[local] Arguments N.leb : simpl never.
#[local] Arguments N.ltb : simpl never.
#[local] Arguments N.min : simpl never.

Lemma frames_app es1 es2 : frames (es1 ++ es2) = frames es1 ++ frames es2.
Proof. apply omap_app. Qed.

Lemma run_app evs1 evs2 m :
  run (evs1 ++ evs2) m
  = (fst (run evs2 (fst (run evs1 m))),
     snd (run evs1 m) ++ snd (run evs2 (fst (run evs1 m)))).
Proof.
  revert m. induction evs1 as [|ev evs1 IH]; intros m.
  - simpl. unfold skip. simpl. by destruct (run evs2 m).
  - cbn [run app]. unfold andThen.
    destruct (handle ev m) as [m1 e1]. rewrite IH.
    destruct (run evs1 m1) as [m2 e2]. simpl.
    destruct (run evs2 m2) as [m3 e3]. simpl. by rewrite app_assoc.
Qed.

Lemma run_cons ev evs m :
  run (ev :: evs) m
  = (fst (run evs (fst (handle ev m))),
     snd (handle ev m) ++ snd (run evs (fst (handle ev m)))).
Proof.
  cbn [run]. unfold andThen. destruct (handle ev m) as [m1 e1]. simpl.
  by destruct (run evs m1).
Qed.

(** On an open channel [sendMessage] hands exactly one frame to the
    transport, and changes the channel's count of buffered bytes only. *)
Lemma sendMessage_open type payload m :
  from_option is_open false (sendChannel m) = true →
  ∃ ch, is_open ch = true
    ∧ sendMessage type payload m
      = (set_sendChannel (Some ch) m, [ChannelSend (frame type payload)]).
Proof.
  intros Hopen. unfold sendMessage.
  destruct (sendChannel m) as [ch|]; [|done]. simpl in Hopen. rewrite Hopen.
  eexists. split; [|reflexivity]. unfold is_open in *. simpl.
  by destruct (readyState ch).
Qed.

(** One call of [sendNextChunk] while a file is in flight: nothing is
    sent (the sender is paused, or pauses), or the next chunk is, or
    [FILE_COMPLETE] is and the file is no longer in flight. *)
Lemma sendNextChunk_sending k sid c0 qf i m :
  length sid = 4%nat →
  sending k sid c0 qf i m →
  let m' := fst (sendNextChunk m) in
  let es := snd (sendNextChunk m) in
  (frames es = [] ∧ sending k sid c0 qf i m'
   ∧ (isPaused m = true ∨ BUFFER_FULL_THRESHOLD < buffered m))
  ∨ (N.of_nat i < FileInfo.totalChunks (QueuedFile.info qf)
     ∧ isPaused m = false ∧ buffered m <= BUFFER_FULL_THRESHOLD
     ∧ frames es = [chunk_frame k sid c0 qf i]
     ∧ sending k sid c0 qf (S i) m' ∧ isPaused m' = false)
  ∨ (FileInfo.totalChunks (QueuedFile.info qf) <= N.of_nat i
     ∧ frames es = [frame FILE_COMPLETE []]
     ∧ currentSendFile m' = None).
Proof.
  intros Hsid (Hcur & Htot & Hidx & Hkey & Hsess & Hcnt & Hopen).
  unfold sendNextChunk. rewrite Hcur.
  destruct (sendChannel m) as [ch|] eqn:Hch; [|done]. simpl in Hopen.
  destruct (isPaused m) eqn:Hp.
  { left. simpl. unfold sending. rewrite Hch. simpl. repeat split; auto. }
  rewrite Htot, Hidx.
  destruct (N.leb_spec (FileInfo.totalChunks (QueuedFile.info qf)) (N.of_nat i))
    as [Hdone|Hmore].
  { right. right. split; [done|]. unfold andThen.
    destruct (sendMessage_open FILE_COMPLETE [] m) as (ch' & Ho' & ->).
    { by rewrite Hch. }
    simpl. done. }
  destruct (N.ltb_spec BUFFER_FULL_THRESHOLD (bufferedAmount ch))
    as [Hfull|Hroom].
  { left. unfold sending, buffered. simpl. rewrite Hch. simpl.
    repeat split; auto. }
  right. left.
  unfold Encryption.encryptChunk. rewrite Hkey.
  pose proof (generateIV_iv (encryption m)) as Hiv.
  rewrite Hsess in Hiv. specialize (Hiv Hsid). rewrite Hcnt in Hiv.
  destruct (Encryption.generateIV (encryption m)) as [iv0 em] eqn:Hgen.
  simpl in Hiv. subst iv0.
  unfold Encryption.generateIV in Hgen. injection Hgen as _ <-.
  unfold andThen, modify, notifyProgress, emit.
  match goal with
  | |- context [sendMessage FILE_CHUNK ?p ?m1] =>
      destruct (sendMessage_open FILE_CHUNK p m1) as (ch' & Ho' & ->)
  end.
  { simpl. by rewrite Hch. }
  simpl. unfold buffered. rewrite Hch. simpl.
  split; [done|]. split; [done|]. split; [done|]. split.
  - reflexivity.
  - split; [|done]. unfold sending. simpl. rewrite Hidx, Hcnt, Ho'.
    repeat split; auto; lia.
Qed.

Lemma sending_unpaused k sid c0 qf i m b :
  sending k sid c0 qf i m → sending k sid c0 qf i (set_isPaused b m).
Proof. done. Qed.

(** One streaming event while a file is in flight. *)
Lemma handle_sending k sid c0 qf i m ev :
  length sid = 4%nat →
  sending k sid c0 qf i m →
  is_streaming ev = true →
  let m' := fst (handle ev m) in
  let es := snd (handle ev m) in
  (frames es = [] ∧ sending k sid c0 qf i m')
  ∨ (N.of_nat i < FileInfo.totalChunks (QueuedFile.info qf)
     ∧ frames es = [chunk_frame k sid c0 qf i]
     ∧ sending k sid c0 qf (S i) m')
  ∨ (FileInfo.totalChunks (QueuedFile.info qf) <= N.of_nat i
     ∧ frames es = [frame FILE_COMPLETE []]
     ∧ currentSendFile m' = None).
Proof.
  intros Hsid Hs Hev.
  assert (Hnext : ∀ m0, sending k sid c0 qf i m0 →
            let m' := fst (sendNextChunk m0) in
            let es := snd (sendNextChunk m0) in
            (frames es = [] ∧ sending k sid c0 qf i m')
            ∨ (N.of_nat i < FileInfo.totalChunks (QueuedFile.info qf)
               ∧ frames es = [chunk_frame k sid c0 qf i]
               ∧ sending k sid c0 qf (S i) m')
            ∨ (FileInfo.totalChunks (QueuedFile.info qf) <= N.of_nat i
               ∧ frames es = [frame FILE_COMPLETE []]
               ∧ currentSendFile m' = None)).
  { intros m0 Hs0.
    destruct (sendNextChunk_sending k sid c0 qf i m0 Hsid Hs0)
      as [(? & ? & _)|[(? & _ & _ & ? & ? & _)|?]]; auto. }
  destruct ev as [| | |[|tag payload]| |[|]|st n]; simpl in Hev;
    try discriminate.
  - apply N.eqb_eq in Hev. cbn [handle handleMessage]. rewrite Hev.
    by apply Hnext.
  - cbn [handle]. unfold onBufferedAmountLow.
    destruct (isPaused m) eqn:Hp.
    + destruct Hs as (Hcur & Hrest). rewrite Hcur.
      unfold andThen, modify.
      specialize (Hnext (set_isPaused false m)
                    (sending_unpaused _ _ _ _ _ _ false (conj Hcur Hrest))).
      destruct (sendNextChunk (set_isPaused false m)) as [m1 e1]. exact Hnext.
    + left. by destruct (currentSendFile m).
  - by apply Hnext.
  - destruct st; try discriminate. left. split; [done|].
    destruct Hs as (? & ? & ? & ? & ? & ? & Hopen).
    unfold sending. simpl.
    destruct (sendChannel m); [|done]. done.
Qed.

(** Streaming events when no file is in flight send nothing. *)
Lemma handle_idle m ev :
  currentSendFile m = None →
  is_streaming ev = true →
  snd (handle ev m) = [] ∧ currentSendFile (fst (handle ev m)) = None.
Proof.
  intros Hcur Hev.
  destruct ev as [| | |[|tag payload]| |[|]|st n]; simpl in Hev;
    try discriminate.
  - apply N.eqb_eq in Hev. cbn [handle handleMessage]. rewrite Hev. simpl.
    unfold handleFileAccept, sendNextChunk. by rewrite Hcur.
  - cbn [handle]. unfold onBufferedAmountLow. rewrite Hcur.
    by destruct (isPaused m).
  - cbn [handle]. unfold sendNextChunk. by rewrite Hcur.
  - done.
Qed.

Lemma run_idle evs : ∀ m,
  currentSendFile m = None →
  forallb is_streaming evs = true →
  snd (run evs m) = [] ∧ currentSendFile (fst (run evs m)) = None.
Proof.
  induction evs as [|ev evs IH]; intros m Hcur Hevs; [done|].
  cbn [forallb] in Hevs. apply andb_prop in Hevs as [Hev Hevs].
  rewrite run_cons. cbn [fst snd].
  destruct (handle_idle m ev Hcur Hev) as [-> Hcur'].
  by apply IH.
Qed.

(** A run of streaming events while a file is in flight sends the
    chunks from [i] on, in order and each once, then [FILE_COMPLETE], or
    stops short of it with the file still in flight. *)
Lemma run_sending k sid c0 qf evs : ∀ i m,
  length sid = 4%nat →
  N.of_nat i <= FileInfo.totalChunks (QueuedFile.info qf) →
  sending k sid c0 qf i m →
  forallb is_streaming evs = true →
  ∃ j, (i <= j)%nat
    ∧ N.of_nat j <= FileInfo.totalChunks (QueuedFile.info qf)
    ∧ ((frames (snd (run evs m))
        = map (chunk_frame k sid c0 qf) (seq i (j - i))
        ∧ sending k sid c0 qf j (fst (run evs m)))
       ∨ (N.of_nat j = FileInfo.totalChunks (QueuedFile.info qf)
          ∧ frames (snd (run evs m))
            = map (chunk_frame k sid c0 qf) (seq i (j - i))
              ++ [frame FILE_COMPLETE []]
          ∧ currentSendFile (fst (run evs m)) = None)).
Proof.
  induction evs as [|ev evs IH]; intros i m Hsid Hle Hs Hevs.
  - exists i. split; [lia|]. split; [done|]. left.
    replace (i - i)%nat with 0%nat by lia. done.
  - cbn [forallb] in Hevs. apply andb_prop in Hevs as [Hev Hevs].
    rewrite run_cons. cbn [fst snd]. rewrite frames_app.
    destruct (handle_sending k sid c0 qf i m ev Hsid Hs Hev)
      as [(-> & Hs')|[(Hlt & -> & Hs')|(Hge & -> & Hidle)]].
    + exact (IH i _ Hsid Hle Hs' Hevs).
    + destruct (IH (S i) _ Hsid ltac:(lia) Hs' Hevs)
        as (j & Hij & Hj & Hout).
      exists j. split; [lia|]. split; [done|].
      replace (j - i)%nat with (S (j - S i)) by lia. cbn [seq map].
      destruct Hout as [(-> & ?)|(? & -> & ?)]; [left|right]; done.
    + destruct (run_idle evs _ Hidle Hevs) as [-> Hidle'].
      exists i. split; [lia|]. split; [done|]. right.
      replace (i - i)%nat with 0%nat by lia. split; [lia|]. done.
Qed.

(** With the buffer drained and the sender not paused, a call of
    [sendNextChunk] sends the next chunk, or [FILE_COMPLETE] after the
    last one. *)
Lemma drained_round k sid c0 qf i m trigger :
  length sid = 4%nat →
  sending k sid c0 qf i m →
  isPaused m = false →
  handle trigger = sendNextChunk →
  let m' := fst (run [EvTransport open 0; trigger] m) in
  let es := snd (run [EvTransport open 0; trigger] m) in
  (N.of_nat i < FileInfo.totalChunks (QueuedFile.info qf)
   ∧ frames es = [chunk_frame k sid c0 qf i]
   ∧ sending k sid c0 qf (S i) m' ∧ isPaused m' = false)
  ∨ (FileInfo.totalChunks (QueuedFile.info qf) <= N.of_nat i
     ∧ frames es = [frame FILE_COMPLETE []]).
Proof.
  intros Hsid Hs Hp Htrig. rewrite !run_cons. cbn [fst snd run skip].
  rewrite Htrig, app_nil_r. cbn [handle].
  set (m1 := fst (onTransport open 0 m)).
  assert (Hs1 : sending k sid c0 qf i m1).
  { destruct Hs as (? & ? & ? & ? & ? & ? & Hopen). subst m1.
    unfold sending. simpl. by destruct (sendChannel m). }
  assert (Hp1 : isPaused m1 = false) by done.
  assert (Hb1 : buffered m1 = 0).
  { subst m1. unfold buffered. simpl.
    destruct Hs as (_ & _ & _ & _ & _ & _ & Hopen).
    by destruct (sendChannel m). }
  change (snd (onTransport open 0 m)) with (@nil Effect). cbn [app].
  destruct (sendNextChunk_sending k sid c0 qf i m1 Hsid Hs1)
    as [(_ & _ & [Hx|Hx])|[(? & _ & _ & ? & ? & ?)|(? & ? & _)]].
  - congruence.
  - rewrite Hb1 in Hx. unfold BUFFER_FULL_THRESHOLD in Hx. lia.
  - left. auto.
  - right. auto.
Qed.

(** Under the drained schedule a file in flight at chunk 0 is streamed
    whole: all its chunks in order, then [FILE_COMPLETE]. *)
Lemma drained_schedule_completes k sid c0 qf m :
  length sid = 4%nat →
  sending k sid c0 qf 0 m →
  isPaused m = false →
  frames (snd (run (drained_schedule
                      (N.to_nat (FileInfo.totalChunks (QueuedFile.info qf))))
                 m))
  = map (chunk_frame k sid c0 qf)
      (seq 0 (N.to_nat (FileInfo.totalChunks (QueuedFile.info qf))))
    ++ [frame FILE_COMPLETE []]
  ∧ forallb is_streaming
      (drained_schedule
         (N.to_nat (FileInfo.totalChunks (QueuedFile.info qf)))) = true.
Proof.
  intros Hsid Hs Hp.
  set (n := N.to_nat (FileInfo.totalChunks (QueuedFile.info qf))).
  assert (Hrounds : ∀ r i m0 trigger,
            handle trigger = sendNextChunk →
            sending k sid c0 qf i m0 → isPaused m0 = false →
            (i + r = n)%nat →
            frames (snd (run ([EvTransport open 0; trigger]
                              ++ concat (replicate r
                                           [EvTransport open 0;
                                            EvTimer TimerSendNextChunk]))
                           m0))
            = map (chunk_frame k sid c0 qf) (seq i r)
              ++ [frame FILE_COMPLETE []]).
  { induction r as [|r IH]; intros i m0 trigger Htrig Hs0 Hp0 Hir.
    - cbn [replicate concat seq map]. rewrite app_nil_r.
      destruct (drained_round k sid c0 qf i m0 trigger Hsid Hs0 Hp0 Htrig)
        as [(Hlt & _)|(_ & ->)]; [subst n; lia|done].
    - rewrite run_app. cbn [snd]. rewrite frames_app.
      destruct (drained_round k sid c0 qf i m0 trigger Hsid Hs0 Hp0 Htrig)
        as [(_ & -> & Hs' & Hp')|(Hge & _)]; [|subst n; lia].
      cbn [replicate concat seq map].
      rewrite (IH (S i) _ (EvTimer TimerSendNextChunk) eq_refl Hs' Hp')
        by lia.
      done. }
  split.
  - unfold drained_schedule. by apply Hrounds.
  - unfold drained_schedule. rewrite forallb_app. apply andb_true_intro.
    split; [reflexivity|]. clear Hrounds.
    induction n as [|n' IH]; [done|]. cbn [replicate concat].
    by rewrite forallb_app, IH.
Qed.

End SenderFacts.

(** ** The chunk record and the chunks of a file *)

Section ChunkFacts.
Import Transfer TransferSpec.
Local Open Scope N_scope.

#[local] Arguments N.to_nat : simpl never.
#[local] Arguments N.of_nat : simpl never.

Lemma decode_layout a1 a2 a3 a4 b c d e f :
  N.to_nat (Byte.to_N b) = length c →
  N.to_nat (Byte.to_N d) = length e →
  decodeEncryptedChunk ([a1; a2; a3; a4] ++ [b] ++ c ++ [d] ++ e ++ f)
  = Some (mkChunk (string_of_list_byte c) (Bytes.be_value [a1; a2; a3; a4]) f e).
Proof.
  intros Hb Hd.
  assert (Hv : ∀ x, Bytes.be_value [x] = Byte.to_N x).
  { intros x. unfold Bytes.be_value. simpl. lia. }
  set (p := [a1; a2; a3; a4] ++ [b] ++ c ++ [d] ++ e ++ f).
  assert (Hlen : length p = (6 + length c + length e + length f)%nat).
  { subst p. rewrite !length_app. simpl. lia. }
  assert (H5 : drop 5 p = c ++ d :: e ++ f) by reflexivity.
  assert (Hc : drop (5 + length c) p = d :: e ++ f).
  { by rewrite <- drop_drop, H5, drop_app_length. }
  assert (Hd1 : drop (5 + length c + 1) p = e ++ f).
  { by rewrite <- drop_drop, Hc. }
  assert (He : drop (5 + length c + 1 + length e) p = f).
  { by rewrite <- drop_drop, Hd1, drop_app_length. }
  unfold decodeEncryptedChunk. cbv zeta.
  change (take 4 p) with [a1; a2; a3; a4].
  change (take 1 (drop 4 p)) with [b].
  rewrite Hv, Hb, Hc. change (take 1 (d :: e ++ f)) with [d].
  rewrite Hv, Hd, Hd1, He, H5, !take_app_length, Hlen.
  repeat match goal with
    | |- context [(?a <? ?b)%nat] => rewrite (proj2 (Nat.ltb_ge a b)) by lia
    end.
  done.
Qed.

(** [decodeEncryptedChunk] reads back what [encodeEncryptedChunk] wrote:
    the index modulo [2^32], the file id, the IV and the ciphertext. *)
Lemma decode_encode index encrypted iv fileId :
  (length (list_byte_of_string fileId) < 256)%nat →
  (length iv < 256)%nat →
  decodeEncryptedChunk (encodeEncryptedChunk index encrypted iv fileId)
  = Some (mkChunk fileId (index mod 2 ^ 32) encrypted iv).
Proof.
  intros Hid Hiv. unfold encodeEncryptedChunk.
  assert (Hone : ∀ l : list byte, (length l < 256)%nat →
            ∃ b, Bytes.be_bytes 1 (Bytes.byteLength l) = [b]
                 ∧ N.to_nat (Byte.to_N b) = length l).
  { intros l Hl. eexists. split; [reflexivity|].
    rewrite byte_of_N_to_N. change (256 ^ N.of_nat 0) with 1.
    rewrite N.div_1_r. unfold Bytes.byteLength.
    rewrite N.mod_small by lia. lia. }
  destruct (Hone _ Hid) as (b & -> & Hb).
  destruct (Hone _ Hiv) as (d & -> & Hd).
  pose proof (be_value_be_bytes 4 index) as Hidx.
  cbn [Bytes.be_bytes] in Hidx |- *.
  rewrite (decode_layout _ _ _ _ b _ d iv encrypted Hb Hd), Hidx.
  by rewrite string_of_list_byte_of_string.
Qed.

(** Slices of [c] bytes, taken in order until the list is covered, put
    end to end give the list back. *)
Lemma concat_slices {A} (c : nat) (l : list A) (n : nat) :
  (length l <= n * c)%nat →
  concat ((λ i, take c (drop (i * c) l)) <$> seq 0 n) = l.
Proof.
  intros Hn.
  assert (Hpre : ∀ m, concat ((λ i, take c (drop (i * c) l)) <$> seq 0 m)
                      = take (m * c) l).
  { induction m as [|m IH]; [done|].
    rewrite seq_S, fmap_app, concat_app, IH. simpl. rewrite app_nil_r.
    rewrite take_take_drop. f_equal. lia. }
  rewrite Hpre. by apply take_ge.
Qed.

Lemma chunk_of_slice file i :
  chunk_of file i
  = take (N.to_nat CHUNK_SIZE)
      (drop (i * N.to_nat CHUNK_SIZE) (File.bytes file)).
Proof.
  unfold chunk_of, Bytes.slice, File.size, Bytes.byteLength.
  set (l := File.bytes file). set (c := CHUNK_SIZE).
  replace (N.to_nat (N.of_nat i * c)) with (i * N.to_nat c)%nat by lia.
  destruct (N.min_spec (N.of_nat i * c + c) (N.of_nat (length l)))
    as [[Hlt ->]|[Hge ->]].
  - f_equal. lia.
  - rewrite !take_ge; [done| |]; rewrite length_drop; lia.
Qed.

(** The chunks of a file, in index order, put end to end. *)
Lemma chunks_concat file :
  concat (chunk_of file <$> seq 0 (N.to_nat (chunk_count (File.size file))))
  = File.bytes file.
Proof.
  etransitivity;
    [|apply (concat_slices (N.to_nat CHUNK_SIZE) (File.bytes file)
               (N.to_nat (chunk_count (File.size file))))].
  - f_equal. apply list_fmap_ext. intros _ i _. apply chunk_of_slice.
  - unfold chunk_count, File.size, Bytes.byteLength.
    set (len := length (File.bytes file)).
    assert (Hc : CHUNK_SIZE = 65536) by reflexivity. rewrite Hc.
    pose proof (N.div_mod (N.of_nat len + (65536 - 1)) 65536 ltac:(lia)).
    pose proof (N.mod_upper_bound (N.of_nat len + (65536 - 1)) 65536
                  ltac:(lia)).
    lia.
Qed.

(** Every chunk below the chunk count holds at least one byte. *)
Lemma chunk_nonempty file i :
  (i < N.to_nat (chunk_count (File.size file)))%nat →
  (0 < length (chunk_of file i))%nat.
Proof.
  intros Hi. rewrite chunk_of_slice, length_take, length_drop.
  unfold chunk_count, File.size, Bytes.byteLength in Hi.
  set (len := length (File.bytes file)) in *.
  assert (Hc : CHUNK_SIZE = 65536) by reflexivity. rewrite Hc in *.
  pose proof (N.div_mod (N.of_nat len + (65536 - 1)) 65536 ltac:(lia)).
  pose proof (N.mod_upper_bound (N.of_nat len + (65536 - 1)) 65536
                ltac:(lia)).
  set (q := (N.of_nat len + (65536 - 1)) `div` 65536) in *.
  set (r := (N.of_nat len + (65536 - 1)) `mod` 65536) in *.
  clearbody q r.
  assert (Hlt : N.of_nat i * 65536 < N.of_nat len) by lia.
  replace (i * N.to_nat 65536)%nat with (N.to_nat (N.of_nat i * 65536))
    by lia.
  lia.
Qed.

End ChunkFacts.

(** ** The receiver of the file transfer manager *)

Section ReceiverFacts.
Context `{WebCrypto} `{JsonText} `{FileTransferCallbacks}.
Import Transfer TransferSpec.
Local Open Scope N_scope.

#[local] Arguments N.to_nat : simpl never.
#[local] Arguments N.of_nat : simpl never.
#[local] Arguments Bytes.byte_of_N : simpl never.
#[local] Arguments encodeEncryptedChunk : simpl never.
#[local] Arguments decodeEncryptedChunk : simpl never.
#[local] Arguments N.leb : simpl never.

Lemma type_of_frame type :
  MessageType_of_value (Byte.to_N (Bytes.byte_of_N (MessageType_value type)))
  = Some type.
Proof. by destruct type. Qed.

Lemma handle_frame type payload :
  handle (EvMessage (frame type payload))
  = match type with
    | ENCRYPTION_KEY => handleEncryptionKey payload
    | QUEUE_INFO => handleQueueInfo payload
    | FILE_INFO => handleFileInfo payload
    | FILE_CHUNK => handleFileChunk payload
    | FILE_COMPLETE => handleFileComplete
    | FILE_ACCEPT => handleFileAccept
    | FILE_REJECT => handleFileReject
    | PROGRESS => skip
    end.
Proof.
  unfold frame. cbn [handle handleMessage].
  rewrite (type_of_frame type). by destruct type.
Qed.

Lemma stored_nil file n : stored file [] n = replicate n None.
Proof.
  unfold stored. rewrite (const_fmap _ _ None); [by rewrite length_seq|].
  intros j x _. case_decide as Hin; [|done].
  by apply not_elem_of_nil in Hin.
Qed.

Lemma stored_store file got n j :
  (j < n)%nat →
  N.of_nat j < 4294967295 →
  array_store (stored file got n) (N.of_nat j) (chunk_of file j)
  = stored file (j :: got) n.
Proof.
  intros Hj Hidx. unfold array_store.
  destruct (N.leb_spec 4294967295 (N.of_nat j)) as [?|_]; [lia|].
  rewrite Nat2N.id.
  assert (Hlen : length (stored file got n) = n).
  { unfold stored. by rewrite length_fmap, length_seq. }
  rewrite Hlen. rewrite (proj2 (Nat.ltb_lt j n) Hj).
  apply list_eq. intros i. unfold stored.
  destruct (decide (i = j)) as [->|Hne].
  - rewrite list_lookup_insert_eq by (rewrite length_fmap, length_seq; lia).
    rewrite list_lookup_fmap, lookup_seq_lt by done. simpl.
    rewrite decide_True; [done|]. apply list_elem_of_here.
  - rewrite list_lookup_insert_ne by done. rewrite !list_lookup_fmap.
    destruct (seq 0 n !! i) as [x|] eqn:Hx; [|done]. simpl.
    apply lookup_seq in Hx as [-> _]. simpl.
    destruct (decide (i ∈ got)) as [Hin|Hout].
    + rewrite decide_True; [done|]. by apply list_elem_of_further.
    + rewrite decide_False; [done|].
      intros [?|?]%elem_of_cons; congruence.
Qed.

Lemma filter_defined_stored file got n :
  filter_defined (stored file got n)
  = chunk_of file <$> filter (λ j, j ∈ got) (seq 0 n).
Proof.
  unfold filter_defined, stored.
  induction (seq 0 n) as [|x l IH]; [done|].
  rewrite filter_cons. csimpl. rewrite IH.
  by destruct (decide (x ∈ got)).
Qed.

(** [sendMessage] gives nothing to the application and touches neither
    the reassembly table nor the key. *)
Lemma sendMessage_receiver type payload m :
  received (snd (sendMessage type payload m)) = []
  ∧ encryption (fst (sendMessage type payload m)) = encryption m
  ∧ receivingFiles (fst (sendMessage type payload m)) = receivingFiles m
  ∧ currentReceiveFileId (fst (sendMessage type payload m))
    = currentReceiveFileId m.
Proof.
  unfold sendMessage. destruct (sendChannel m) as [ch|]; [|done].
  by destruct (is_open ch).
Qed.

(** An offer the application accepts opens a reassembly record of
    [totalChunks] holes and makes it the active receive. *)
Lemma handle_offer k r info file payload :
  decodeFileInfo payload = Some info →
  onFileOffer info (QueueInfo.mk 1 0) = true →
  FileInfo.totalChunks info < 4294967296 →
  Encryption.key (encryption r) = Some k →
  received (snd (handle (EvMessage (frame FILE_INFO payload)) r)) = []
  ∧ receiving k info file []
      (fst (handle (EvMessage (frame FILE_INFO payload)) r)).
Proof.
  intros Hdec Hoffer Htot Hkey. rewrite handle_frame.
  unfold handleFileInfo. rewrite Hdec, Hoffer.
  destruct (N.leb_spec 4294967296 (FileInfo.totalChunks info)) as [?|_];
    [lia|].
  unfold andThen, modify.
  match goal with
  | |- context [sendMessage FILE_ACCEPT [] ?m1] =>
      destruct (sendMessage_receiver FILE_ACCEPT [] m1) as (Hr & He & Hf & Hc);
      destruct (sendMessage FILE_ACCEPT [] m1) as [m2 e2]
  end.
  simpl in *. split; [done|]. unfold receiving.
  rewrite He, Hf, Hc. split; [done|]. split; [done|].
  exists 0. by rewrite lookup_insert_eq, stored_nil.
Qed.

(** A chunk frame of the file being received is decoded, decrypted and
    stored at its index. *)
Lemma handle_chunk ks kr sid c0 qf j got r :
  (∀ iv p, aes_gcm_decrypt kr iv (aes_gcm_encrypt ks iv p) = Some p) →
  receiving kr (QueuedFile.info qf) (QueuedFile.file qf) got r →
  (j < N.to_nat (FileInfo.totalChunks (QueuedFile.info qf)))%nat →
  FileInfo.totalChunks (QueuedFile.info qf) < 4294967296 →
  (length (list_byte_of_string (FileInfo.id (QueuedFile.info qf))) < 256)%nat →
  length sid = 4%nat →
  received (snd (handle (EvMessage (chunk_frame ks sid c0 qf j)) r)) = []
  ∧ receiving kr (QueuedFile.info qf) (QueuedFile.file qf) (j :: got)
      (fst (handle (EvMessage (chunk_frame ks sid c0 qf j)) r)).
Proof.
  intros Hgcm (Hkey & Hcur & br & Hrec) Hj Htot Hid Hsid.
  unfold chunk_frame. rewrite handle_frame. unfold handleFileChunk.
  rewrite decode_encode;
    [|done|unfold EncryptionSpec.expected_iv;
            rewrite length_app, be_bytes_length; lia].
  cbn [fileId chunkIndex encrypted iv].
  rewrite Hrec. unfold Encryption.decryptChunk. rewrite Hkey, Hgcm.
  rewrite N.mod_small by lia.
  cbn [FileMetadata.receivedChunks FileMetadata.info
         FileMetadata.bytesReceived].
  rewrite stored_store by lia.
  unfold andThen, modify, notifyProgress, emit. simpl.
  split; [done|]. unfold receiving. simpl.
  split; [done|]. split; [done|].
  eexists. by rewrite lookup_insert_eq.
Qed.

(** The chunk frames numbered [js], handled in any order. *)
Lemma run_chunks ks kr sid c0 qf js : ∀ got r,
  (∀ iv p, aes_gcm_decrypt kr iv (aes_gcm_encrypt ks iv p) = Some p) →
  receiving kr (QueuedFile.info qf) (QueuedFile.file qf) got r →
  Forall (λ j, (j < N.to_nat (FileInfo.totalChunks (QueuedFile.info qf)))%nat)
    js →
  FileInfo.totalChunks (QueuedFile.info qf) < 4294967296 →
  (length (list_byte_of_string (FileInfo.id (QueuedFile.info qf))) < 256)%nat →
  length sid = 4%nat →
  received (snd (run (map EvMessage (map (chunk_frame ks sid c0 qf) js)) r))
  = []
  ∧ ∃ got',
      receiving kr (QueuedFile.info qf) (QueuedFile.file qf) got'
        (fst (run (map EvMessage (map (chunk_frame ks sid c0 qf) js)) r))
      ∧ ∀ x, x ∈ got' ↔ x ∈ js ∨ x ∈ got.
Proof.
  induction js as [|j js IH]; intros got r Hgcm Hr Hjs Htot Hid Hsid.
  - simpl. split; [done|]. exists got. split; [done|].
    intros x. rewrite elem_of_nil. tauto.
  - apply Forall_cons in Hjs as [Hj Hjs].
    cbn [map]. rewrite run_cons. cbn [fst snd].
    destruct (handle_chunk ks kr sid c0 qf j got r Hgcm Hr Hj Htot Hid Hsid)
      as [Hrcv Hr1].
    destruct (IH (j :: got) _ Hgcm Hr1 Hjs Htot Hid Hsid)
      as (Hrcv2 & got' & Hr2 & Hmem).
    split.
    + unfold received in *. by rewrite omap_app, Hrcv, Hrcv2.
    + exists got'. split; [done|]. intros x.
      rewrite Hmem, !elem_of_cons. tauto.
Qed.

(** [FILE_COMPLETE] for the active receive: what is stored, in index
    order, goes to the application, whatever is missing. *)
Lemma handle_complete k info file got r :
  receiving k info file got r →
  FileInfo.id info ≠ "" →
  received (snd (handle (EvMessage (frame FILE_COMPLETE [])) r))
  = [File.mk (FileInfo.name info) (FileInfo.type info) ""
       (concat (chunk_of file
                <$> filter (λ j, j ∈ got)
                      (seq 0 (N.to_nat (FileInfo.totalChunks info)))))].
Proof.
  intros (Hkey & Hcur & br & Hrec) Hid. rewrite handle_frame.
  unfold handleFileComplete. rewrite Hcur.
  assert (Htr : truthy (Some (FileInfo.id info)) = true).
  { by destruct (FileInfo.id info). }
  rewrite Htr. cbn [default from_option id]. rewrite Hrec.
  cbn [FileMetadata.receivedChunks FileMetadata.info].
  by rewrite filter_defined_stored.
Qed.

(** A receiver handles the offer of a file, the chunk frames numbered
    [js] and [FILE_COMPLETE]: it gives the application one file, made of
    the chunks numbered in [js], in index order. *)
Lemma receive_file ks kr sid c0 qf js r :
  (∀ iv p, aes_gcm_decrypt kr iv (aes_gcm_encrypt ks iv p) = Some p) →
  Encryption.key (encryption r) = Some kr →
  decodeFileInfo (encodeFileInfo (QueuedFile.info qf))
  = Some (QueuedFile.info qf) →
  onFileOffer (QueuedFile.info qf) (QueueInfo.mk 1 0) = true →
  Forall (λ j, (j < N.to_nat (FileInfo.totalChunks (QueuedFile.info qf)))%nat)
    js →
  FileInfo.totalChunks (QueuedFile.info qf) < 4294967296 →
  (length (list_byte_of_string (FileInfo.id (QueuedFile.info qf))) < 256)%nat →
  FileInfo.id (QueuedFile.info qf) ≠ "" →
  length sid = 4%nat →
  received
    (snd (run (map EvMessage
                 (frame FILE_INFO (encodeFileInfo (QueuedFile.info qf))
                  :: map (chunk_frame ks sid c0 qf) js
                  ++ [frame FILE_COMPLETE []])) r))
  = [File.mk (FileInfo.name (QueuedFile.info qf))
       (FileInfo.type (QueuedFile.info qf)) ""
       (concat (chunk_of (QueuedFile.file qf)
                <$> filter (λ j, j ∈ js)
                      (seq 0 (N.to_nat (FileInfo.totalChunks
                                          (QueuedFile.info qf))))))].
Proof.
  intros Hgcm Hkey Hjson Hoffer Hjs Htot Hid Hnz Hsid.
  cbn [map]. rewrite run_cons. cbn [fst snd].
  destruct (handle_offer kr r (QueuedFile.info qf) (QueuedFile.file qf)
              _ Hjson Hoffer Htot Hkey) as [Hr0 Hrecv0].
  rewrite map_app, run_app. cbn [fst snd].
  destruct (run_chunks ks kr sid c0 qf js [] _ Hgcm Hrecv0 Hjs Htot Hid Hsid)
    as (Hr1 & got & Hrecv1 & Hmem).
  cbn [map]. rewrite run_cons. cbn [fst snd run skip].
  rewrite app_nil_r.
  pose proof (handle_complete _ _ _ _ _ Hrecv1 Hnz) as Hr2.
  unfold received in *. rewrite !omap_app, Hr0, Hr1, Hr2. cbn [app].
  do 4 f_equal. apply list_filter_iff. intros x. rewrite Hmem.
  rewrite elem_of_nil. tauto.
Qed.

End ReceiverFacts.

(** ** A file from the sender's queue to the receiving application *)

Section EndToEnd.
Context `{WebCrypto} `{JsonText} `{FileTransferCallbacks}.
Import Transfer TransferSpec.
Local Open Scope N_scope.

#[local] Arguments N.to_nat : simpl never.
#[local] Arguments N.of_nat : simpl never.
#[local] Arguments Bytes.byte_of_N : simpl never.

Lemma frame_type_frame type payload : frame_type (frame type payload) = Some type.
Proof. apply type_of_frame. Qed.

Lemma frame_type_chunk k sid c0 qf i :
  frame_type (chunk_frame k sid c0 qf i) = Some FILE_CHUNK.
Proof. apply type_of_frame. Qed.

Lemma filter_all {A} (P : A → Prop) `{!∀ x, Decision (P x)} (l : list A) :
  (∀ x, x ∈ l → P x) → filter P l = l.
Proof.
  induction l as [|x l IH]; intros Hall; [done|].
  rewrite filter_cons_True by (apply Hall, list_elem_of_here).
  f_equal. apply IH. intros y Hy. by apply Hall, list_elem_of_further.
Qed.

(** [processNextFile] on a non-empty queue offers the head of the queue
    and puts it in flight at chunk 0. *)
Lemma processNextFile_starts m0 qf rest k :
  sendQueue m0 = qf :: rest →
  from_option is_open false (sendChannel m0) = true →
  Encryption.key (encryption m0) = Some k →
  frames (snd (processNextFile m0))
  = [frame FILE_INFO (encodeFileInfo (QueuedFile.info qf))]
  ∧ sendQueue (fst (processNextFile m0)) = rest
  ∧ isPaused (fst (processNextFile m0)) = false
  ∧ sending k (Encryption.sessionId (encryption m0))
      (Encryption.counter (encryption m0)) qf 0 (fst (processNextFile m0)).
Proof.
  intros Hq Hopen Hkey. unfold processNextFile. rewrite Hq.
  unfold andThen, modify.
  match goal with
  | |- context [sendMessage FILE_INFO ?p ?m1] =>
      destruct (sendMessage_open FILE_INFO p m1) as (ch & Hch & ->)
  end.
  { done. }
  simpl. split; [done|]. split; [done|]. split; [done|]. unfold sending.
  simpl. rewrite Hkey, Hch, N.add_0_r. done.
Qed.





End EndToEnd.

(** ** Frames and where they come from *)

Section ManagerFacts.
Context `{WebCrypto} `{JsonText} `{FileTransferCallbacks}.
Import Transfer TransferSpec.
Local Open Scope N_scope.

#[local] Arguments N.to_nat : simpl never.
#[local] Arguments N.of_nat : simpl never.
#[local] Arguments Bytes.byte_of_N : simpl never.
#[local] Arguments Bytes.slice : simpl never.
#[local] Arguments encodeEncryptedChunk : simpl never.
#[local] Arguments decodeEncryptedChunk : simpl never.
#[local] Arguments N.mul : simpl never.
#[local] Arguments N.add : simpl never.
#[local] Arguments N.leb : simpl never.
#[local] Arguments N.ltb : simpl never.
#[local] Arguments N.min : simpl never.

(** [sendMessage] sends the frame or, without an open channel, nothing;
    it changes the channel only. *)
Lemma sendMessage_cases type payload m :
  sendMessage type payload m = (m, [])
  ∨ ∃ ch, sendMessage type payload m
          = (set_sendChannel (Some ch) m, [ChannelSend (frame type payload)]).
Proof.
  unfold sendMessage. destruct (sendChannel m) as [ch|]; [|by left].
  destruct (is_open ch); [right; eauto|by left].
Qed.

Ltac send_cases :=
  match goal with
  | |- context [sendMessage ?t ?p ?m] =>
      let ch := fresh "ch" in
      destruct (sendMessage_cases t p m) as [->|[ch ->]]
  end.

Ltac one_frame :=
  apply Forall_cons; split;
  [eexists _, _; split; [reflexivity|]|by apply Forall_nil].

(** Every frame a handler sends, with where it comes from. *)
Lemma sendNextChunk_origin ev m :
  isPaused m = false ∨ is_low ev = true →
  Forall (λ f, ∃ t p, f = frame t p ∧ frame_origin ev m t)
    (frames (snd (sendNextChunk m))).
Proof.
  intros Hwake. unfold sendNextChunk.
  destruct (currentSendFile m) as [cur|] eqn:Hcur; [|by apply Forall_nil].
  destruct (sendChannel m) as [ch|] eqn:Hch; [|by apply Forall_nil].
  destruct (isPaused m) eqn:Hp; [by apply Forall_nil|].
  destruct (totalChunks m <=? currentChunkIndex m).
  { unfold andThen, modify, notifyProgress, emit.
    send_cases; simpl; [by apply Forall_nil|one_frame].
    simpl. rewrite Hcur. eauto. }
  destruct (N.ltb_spec BUFFER_FULL_THRESHOLD (bufferedAmount ch)) as [|Hroom];
    [by apply Forall_nil|].
  destruct (Encryption.encryptChunk _ _) as [[[enc iv0] em]|];
    [|by apply Forall_nil].
  unfold andThen, modify, notifyProgress, emit.
  send_cases; simpl; [by apply Forall_nil|one_frame].
  simpl. unfold buffered. rewrite Hcur, Hch. simpl. eauto.
Qed.

Lemma processNextFile_frames m :
  frames (snd (processNextFile m)) = []
  ∨ ∃ p, frames (snd (processNextFile m)) = [frame FILE_INFO p]
         ∧ sendQueue m ≠ [].
Proof.
  unfold processNextFile. destruct (sendQueue m) as [|qf rest] eqn:Hq;
    [by left|].
  unfold andThen, modify.
  send_cases; simpl; [by left|right; eauto].
Qed.

Lemma handle_frame_origin ev m :
  Forall (λ f, ∃ t p, f = frame t p ∧ frame_origin ev m t)
    (frames (snd (handle ev m))).
Proof.
  destruct ev as [channel isInit k|files|r0 r1 r2 r3|data| |[|]|st n];
    cbn [handle].
  - unfold setDataChannel, andThen, modify. simpl.
    destruct isInit; [|by apply Forall_nil].
    unfold initializeEncryption, andThen, modify. simpl.
    send_cases; simpl; [by apply Forall_nil|by one_frame].
  - unfold sendFiles.
    destruct (negb _); [by apply Forall_nil|].
    destruct (negb _); [by apply Forall_nil|].
    unfold andThen, modify.
    send_cases; simpl.
    + destruct (currentSendFile m); simpl; [by apply Forall_nil|].
      match goal with
      | |- context [processNextFile ?m1] =>
          destruct (processNextFile_frames m1) as [Hp|(p & Hp & _)];
          destruct (processNextFile m1) as [m2 e2]
      end; simpl in *; rewrite Hp; [by apply Forall_nil|].
      one_frame. by right.
    + destruct (currentSendFile m); simpl; [by one_frame|].
      match goal with
      | |- context [processNextFile ?m1] =>
          destruct (processNextFile_frames m1) as [Hp|(p & Hp & _)];
          destruct (processNextFile m1) as [m2 e2]
      end; simpl in *; fold (frames e2); rewrite Hp.
      * by one_frame.
      * apply Forall_cons. split; [by eexists _, _|]. one_frame. by right.
  - by apply Forall_nil.
  - destruct data as [|tag payload]; [by apply Forall_nil|].
    cbn [handleMessage].
    destruct (MessageType_of_value (Byte.to_N tag)) as [[]|];
      try by apply Forall_nil.
    + unfold handleFileInfo. destruct (decodeFileInfo payload);
        [|by apply Forall_nil].
      destruct (onFileOffer _ _).
      * destruct (4294967296 <=? _); [by apply Forall_nil|].
        unfold andThen, modify.
        send_cases; simpl; [by apply Forall_nil|by one_frame].
      * send_cases; simpl; [by apply Forall_nil|by one_frame].
    + unfold handleFileChunk.
      destruct (decodeEncryptedChunk payload); [|by apply Forall_nil].
      destruct (receivingFiles m !! _); [|by apply Forall_nil].
      destruct (Encryption.decryptChunk _ _ _); by apply Forall_nil.
    + unfold handleFileComplete. destruct (truthy _); [|by apply Forall_nil].
      destruct (receivingFiles m !! _); by apply Forall_nil.
    + unfold handleFileAccept.
      destruct (isPaused m) eqn:Hp.
      * unfold sendNextChunk. rewrite Hp.
        destruct (currentSendFile m), (sendChannel m); by apply Forall_nil.
      * apply sendNextChunk_origin. by left.
    + unfold handleEncryptionKey. destruct (isEncryptionReady m);
        [by apply Forall_nil|].
      destruct (Encryption.importKey _ _); by apply Forall_nil.
  - unfold onBufferedAmountLow.
    destruct (isPaused m) eqn:Hp; [|by apply Forall_nil].
    destruct (currentSendFile m) as [cur|] eqn:Hcur; [|by apply Forall_nil].
    unfold andThen, modify.
    pose proof (sendNextChunk_origin EvBufferedAmountLow
                  (set_isPaused false m) (or_introl eq_refl)) as Hn.
    destruct (sendNextChunk (set_isPaused false m)) as [m1 e1].
    simpl in *. eapply Forall_impl; [exact Hn|].
    intros f (t & p & -> & Ho). exists t, p. split; [done|].
    destruct t; simpl in *; try done.
    + destruct Ho as (? & _ & ?). auto.
    + destruct Ho as (? & _). auto.
  - destruct (isPaused m) eqn:Hp.
    + unfold sendNextChunk. rewrite Hp.
      destruct (currentSendFile m), (sendChannel m); by apply Forall_nil.
    + apply sendNextChunk_origin. by left.
  - destruct (processNextFile_frames m) as [->|(p & -> & Hq)];
      [by apply Forall_nil|by one_frame; left].
  - by apply Forall_nil.
Qed.


Lemma run_frame_origin (P : list byte → Prop) (I : FileTransferManager → Prop)
    (ok : Event → bool) :
  (∀ m ev, I m → ok ev = true →
     I (fst (handle ev m))
     ∧ ∀ t p, frame_origin ev m t → P (frame t p)) →
  ∀ evs m, I m → forallb ok evs = true →
    I (fst (run evs m)) ∧ Forall P (frames (snd (run evs m))).
Proof.
  intros Hstep. induction evs as [|ev evs IH]; intros m Hm Hevs.
  - split; [done|]. by apply Forall_nil.
  - cbn [forallb] in Hevs. apply andb_prop in Hevs as [Hev Hevs].
    rewrite run_cons. cbn [fst snd]. rewrite frames_app.
    destruct (Hstep m ev Hm Hev) as [Hm' Hfr].
    destruct (IH _ Hm' Hevs) as [HI HP].
    split; [done|]. apply Forall_app. split; [|done].
    eapply Forall_impl; [apply handle_frame_origin|].
    intros f (t & p & -> & Ho). by apply Hfr.
Qed.

(** With no file in flight and an empty queue, an event other than
    [sendFiles] leaves both as they are. *)
Lemma handle_keeps_cancelled m ev :
  currentSendFile m = None → sendQueue m = [] →
  is_sendFiles ev = false →
  currentSendFile (fst (handle ev m)) = None
  ∧ sendQueue (fst (handle ev m)) = [].
Proof.
  intros Hcur Hq Hev.
  destruct ev as [channel isInit k|files|r0 r1 r2 r3|data| |[|]|st n];
    cbn [handle]; try discriminate.
  - unfold setDataChannel, andThen, modify. simpl.
    destruct isInit; [|done].
    unfold initializeEncryption, andThen, modify. simpl.
    by send_cases.
  - done.
  - destruct data as [|tag payload]; [done|]. cbn [handleMessage].
    destruct (MessageType_of_value (Byte.to_N tag)) as [[]|]; try done.
    + unfold handleFileInfo. destruct (decodeFileInfo payload); [|done].
      destruct (onFileOffer _ _).
      * destruct (4294967296 <=? _); [done|].
        unfold andThen, modify. by send_cases.
      * by send_cases.
    + unfold handleFileChunk.
      destruct (decodeEncryptedChunk payload); [|done].
      destruct (receivingFiles m !! _); [|done].
      by destruct (Encryption.decryptChunk _ _ _).
    + unfold handleFileComplete. destruct (truthy _); [|done].
      by destruct (receivingFiles m !! _).
    + unfold handleFileAccept, sendNextChunk. by rewrite Hcur.
    + unfold handleEncryptionKey. destruct (isEncryptionReady m); [done|].
      by destruct (Encryption.importKey _ _).
  - unfold onBufferedAmountLow. rewrite Hcur. by destruct (isPaused m).
  - unfold sendNextChunk. by rewrite Hcur.
  - unfold processNextFile. by rewrite Hq.
  - done.
Qed.


(** C7. On [FILE_REJECT] the sender reports the error "File transfer
    rejected", has no file in flight any more and an empty queue; and
    whatever happens next, short of a new call of [sendFiles] (frames
    from the peer, timers coming due, low-water events, the transport, a
    reset), it sends no [FILE_INFO] and no [FILE_CHUNK]. *)
Theorem reject_cancels_batch m evs :
  forallb (λ ev, negb (is_sendFiles ev)) evs = true →
  let rejected := handle (EvMessage (frame FILE_REJECT [])) m in
  snd rejected = [OnError "File transfer rejected"]
  ∧ currentSendFile (fst rejected) = None
  ∧ sendQueue (fst rejected) = []
  ∧ Forall (λ f, is_file_frame f = false)
      (frames (snd (run evs (fst rejected)))).
Proof.
  intros Hevs rejected. subst rejected. rewrite handle_frame.
  split; [done|]. split; [done|]. split; [done|].
  refine (proj2 (run_frame_origin (λ f, is_file_frame f = false)
                   (λ m, currentSendFile m = None ∧ sendQueue m = [])
                   (λ ev, negb (is_sendFiles ev)) _ evs _ _ Hevs)); [|done].
  intros m0 ev [Hcur Hq] Hev. apply negb_true_iff in Hev. split.
  - by apply handle_keeps_cancelled.
  - intros t p Ho. unfold is_file_frame. rewrite frame_type_frame.
    destruct t; try done; simpl in Ho.
    + destruct Ho as [Ho|Ho]; congruence.
    + destruct Ho as ([? Ho] & _). congruence.
Qed.


(** C8. A file of zero bytes has a chunk count of 0. Submitted alone to
    an idle sender it gives [QUEUE_INFO] then [FILE_INFO]; the receiver,
    accepting, answers [FILE_ACCEPT]; on it the sender sends
    [FILE_COMPLETE] at once, without any [FILE_CHUNK]; and on
    [FILE_COMPLETE] the receiver gives the application a file of zero
    bytes with the name and type offered. *)
Theorem empty_file_exchange (m0 r0 : FileTransferManager) file uuid :
  let info := QueuedFile.info (queue_file (file, uuid)) in
  let offered := handle (EvSendFiles [(file, uuid)]) m0 in
  let accepted := handle (EvMessage (frame FILE_INFO (encodeFileInfo info))) r0 in
  let streamed := handle (EvMessage (frame FILE_ACCEPT [])) (fst offered) in
  let completed := handle (EvMessage (frame FILE_COMPLETE [])) (fst accepted) in
  File.bytes file = [] →
  from_option is_open false (sendChannel m0) = true →
  isEncryptionReady m0 = true →
  currentSendFile m0 = None →
  sendQueue m0 = [] →
  from_option is_open false (sendChannel r0) = true →
  decodeFileInfo (encodeFileInfo info) = Some info →
  onFileOffer info (QueueInfo.mk 1 0) = true →
  uuid ≠ "" →
  FileInfo.totalChunks info = 0
  ∧ frames (snd offered)
    = [frame QUEUE_INFO (encodeQueueInfo (QueueInfo.mk 1 0));
       frame FILE_INFO (encodeFileInfo info)]
  ∧ frames (snd accepted) = [frame FILE_ACCEPT []]
  ∧ frames (snd streamed) = [frame FILE_COMPLETE []]
  ∧ received (snd completed)
    = [File.mk (File.name file) (File.type file) "" []].
Proof.
  intros info offered accepted streamed completed Hempty Hopen Hready Hcur
    Hq Hropen Hjson Hoffer Hnz.
  assert (Htotal : FileInfo.totalChunks info = 0).
  { subst info. cbn [queue_file QueuedFile.info FileInfo.totalChunks].
    unfold File.size, Bytes.byteLength. by rewrite Hempty. }
  split; [done|].
  assert (Hoffered :
            frames (snd offered)
            = [frame QUEUE_INFO (encodeQueueInfo (QueueInfo.mk 1 0));
               frame FILE_INFO (encodeFileInfo info)]
            ∧ currentSendFile (fst offered) = Some (queue_file (file, uuid))
            ∧ from_option is_open false (sendChannel (fst offered)) = true
            ∧ isPaused (fst offered) = false
            ∧ totalChunks (fst offered) = 0
            ∧ currentChunkIndex (fst offered) = 0).
  { subst offered. cbn [handle]. unfold sendFiles.
    rewrite Hopen, Hready. cbn [negb]. unfold andThen, modify.
    match goal with
    | |- context [sendMessage QUEUE_INFO ?p ?m1] =>
        destruct (sendMessage_open QUEUE_INFO p m1) as (ch1 & Ho1 & ->)
    end; [done|].
    cbn [currentSendFile set_sendChannel set_sendQueue]. rewrite Hcur.
    unfold processNextFile. cbn [sendQueue set_sendChannel set_sendQueue].
    rewrite Hq. cbn [app map]. unfold andThen, modify.
    match goal with
    | |- context [sendMessage FILE_INFO ?p ?m1] =>
        destruct (sendMessage_open FILE_INFO p m1) as (ch2 & Ho2 & ->)
    end; [by simpl; rewrite Ho1|].
    simpl. rewrite Ho2. repeat split; done. }
  destruct Hoffered as (Hfo & Hco & Hoo & Hpo & Hto & Hio).
  split; [done|].
  assert (Haccepted :
            frames (snd accepted) = [frame FILE_ACCEPT []]
            ∧ currentReceiveFileId (fst accepted) = Some uuid
            ∧ receivingFiles (fst accepted) !! uuid
              = Some (FileMetadata.mk info [] 0)).
  { subst accepted. rewrite handle_frame. unfold handleFileInfo.
    rewrite Hjson, Hoffer, Htotal. cbn [N.leb N.compare].
    unfold andThen, modify.
    match goal with
    | |- context [sendMessage FILE_ACCEPT ?p ?m1] =>
        destruct (sendMessage_open FILE_ACCEPT p m1) as (ch2 & Ho2 & ->)
    end; [done|].
    simpl. by rewrite lookup_insert_eq. }
  destruct Haccepted as (Hfa & Hca & Hra).
  split; [done|]. split.
  - subst streamed. rewrite handle_frame.
    unfold handleFileAccept, sendNextChunk. rewrite Hco.
    destruct (sendChannel (fst offered)) as [ch|] eqn:Hch; [|done].
    rewrite Hpo, Hto, Hio. cbn [N.leb N.compare].
    unfold andThen, modify, notifyProgress, emit.
    match goal with
    | |- context [sendMessage FILE_COMPLETE ?p ?m1] =>
        destruct (sendMessage_open FILE_COMPLETE p m1) as (ch2 & Ho2 & ->)
    end; [by rewrite Hch|].
    done.
  - subst completed. rewrite handle_frame.
    unfold handleFileComplete. rewrite Hca.
    assert (Htr : truthy (Some uuid) = true) by (by destruct uuid).
    rewrite Htr. cbn [default from_option id]. by rewrite Hra.
Qed.

Lemma seq_without j n :
  (j < n)%nat →
  seq 0 n = seq 0 j ++ [j] ++ seq (S j) (n - S j).
Proof.
  intros Hj. set (k := (n - S j)%nat).
  replace n with (j + S k)%nat by (subst k; lia).
  by rewrite seq_app.
Qed.

Lemma filter_without j n :
  (j < n)%nat →
  filter (λ x, x ∈ seq 0 j ++ seq (S j) (n - S j)) (seq 0 n)
  = seq 0 j ++ seq (S j) (n - S j).
Proof.
  intros Hj. rewrite (seq_without j n Hj) at 1. rewrite !filter_app.
  rewrite filter_all by (intros x Hx; apply elem_of_app; by left).
  rewrite filter_cons_False, filter_nil.
  - rewrite filter_all by (intros x Hx; apply elem_of_app; by right). done.
  - intros [Hx|Hx]%elem_of_app; apply elem_of_seq in Hx; lia.
Qed.

(** C10. On [FILE_COMPLETE] the receiver, for whatever record is the
    active receive, gives the application a file made of the entries that
    are stored, in index order, the holes left out, and drops the record:
    nothing compares what is stored with the chunk count or the size
    declared. A chunk whose decryption fails is reported and not stored;
    and when the frame of one chunk of a file never arrives, the file
    delivered is the rest of the chunks end to end, shorter than the
    size declared in the offer. *)
Theorem complete_delivers_what_is_stored ks kr sid c0
    (r r0 : FileTransferManager) file uuid j :
  let qf := queue_file (file, uuid) in
  (∀ fileId md,
     currentReceiveFileId r = Some fileId → fileId ≠ "" →
     receivingFiles r !! fileId = Some md →
     handle (EvMessage (frame FILE_COMPLETE [])) r
     = (set_currentReceiveFileId None
          (set_receivingFiles (delete fileId (receivingFiles r)) r),
        [OnFileReceived
           (File.mk (FileInfo.name (FileMetadata.info md))
              (FileInfo.type (FileMetadata.info md)) ""
              (concat (filter_defined (FileMetadata.receivedChunks md))))
           md]))
  ∧ (∀ payload c md,
       decodeEncryptedChunk payload = Some c →
       receivingFiles r !! fileId c = Some md →
       Encryption.decryptChunk (encrypted c) (iv c) (encryption r) = None →
       handle (EvMessage (frame FILE_CHUNK payload)) r
       = (r, [OnError "Failed to decrypt file chunk"]))
  ∧ ((∀ iv p, aes_gcm_decrypt kr iv (aes_gcm_encrypt ks iv p) = Some p) →
     Encryption.key (encryption r0) = Some kr →
     decodeFileInfo (encodeFileInfo (QueuedFile.info qf))
     = Some (QueuedFile.info qf) →
     onFileOffer (QueuedFile.info qf) (QueueInfo.mk 1 0) = true →
     chunk_count (File.size file) < 4294967296 →
     (length (list_byte_of_string uuid) < 256)%nat →
     uuid ≠ "" →
     length sid = 4%nat →
     (j < N.to_nat (chunk_count (File.size file)))%nat →
     ∃ f,
       received (snd (run (map EvMessage (frames_without ks sid c0 qf j)) r0))
       = [f]
       ∧ File.bytes f
         = concat (chunk_of file
                   <$> seq 0 j
                       ++ seq (S j) (N.to_nat (chunk_count (File.size file))
                                     - S j))
       ∧ File.size f < FileInfo.size (QueuedFile.info qf)).
Proof.
  intros qf. split; [|split].
  - intros fileId md Hcur Hnz Hrec. rewrite handle_frame.
    unfold handleFileComplete. rewrite Hcur.
    assert (Htr : truthy (Some fileId) = true) by (by destruct fileId).
    rewrite Htr. cbn [default from_option id]. by rewrite Hrec.
  - intros payload c md Hdec Hrec Hfail. rewrite handle_frame.
    unfold handleFileChunk. by rewrite Hdec, Hrec, Hfail.
  - intros Hgcm Hkey Hjson Hoffer Hcount Hid Hnz Hsid Hj.
    set (n := N.to_nat (chunk_count (File.size file))) in *.
    eexists. split; [|split].
    + unfold frames_without.
      apply (receive_file ks kr sid c0 qf (seq 0 j ++ seq (S j) (n - S j)) r0);
        try done.
      apply Forall_forall. intros x [Hx|Hx]%elem_of_app;
        apply elem_of_seq in Hx; subst qf; simpl; fold n; lia.
    + cbn [File.bytes]. subst qf.
      cbn [queue_file QueuedFile.info QueuedFile.file FileInfo.totalChunks].
      fold n. by rewrite filter_without.
    + unfold File.size at 1. cbn [File.bytes]. subst qf.
      cbn [queue_file QueuedFile.info QueuedFile.file FileInfo.totalChunks
             FileInfo.size].
      fold n. rewrite filter_without by done.
      pose proof (chunks_concat file) as Hall. fold n in Hall.
      rewrite (seq_without j n Hj), !fmap_app, !concat_app in Hall.
      apply (f_equal length) in Hall. rewrite !length_app in Hall.
      simpl in Hall. rewrite app_nil_r in Hall.
      pose proof (chunk_nonempty file j Hj) as Hne.
      unfold File.size, Bytes.byteLength.
      rewrite fmap_app, concat_app, length_app. lia.
Qed.

End ManagerFacts.

(** ** The model run on examples *)

Section Examples.
Import Transfer TransferSpec.
Local Open Scope N_scope.

#[local] Existing Instance Toy.crypto.
#[local] Existing Instance Toy.json.
#[local] Existing Instance Toy.accept_all.

Lemma toy_tag_length k iv : length (Toy.tag k iv) = 16%nat.
Proof.
  unfold Toy.tag. rewrite length_take, !length_app.
  unfold Bytes.zeros. rewrite length_replicate. lia.
Qed.

Lemma toy_decrypt_encrypt k iv p :
  Toy.decrypt k iv (Toy.encrypt k iv p) = Some p.
Proof.
  unfold Toy.decrypt, Toy.encrypt.
  pose proof (toy_tag_length k iv) as Htag.
  assert (Hn : (length (rev p ++ Toy.tag k iv) - 16 = length (rev p))%nat).
  { rewrite length_app, Htag. lia. }
  rewrite Hn, drop_app_length, take_app_length, rev_involutive.
  replace (16 <=? length (rev p ++ Toy.tag k iv))%nat with true
    by (symmetry; apply Nat.leb_le; rewrite length_app, Htag; lia).
  assert (Hsame : ∀ l : list byte,
            forallb (λ q, Byte.eqb (fst q) (snd q)) (combine l l) = true).
  { induction l as [|x l IH]; [done|]. simpl. rewrite IH.
    by rewrite (Byte.byte_dec_lb (eq_refl x)). }
  by rewrite Hsame.
Qed.

Lemma iv_discipline_witness :
  Encryption.counter
    (fst (Encryption.calls
            [Encryption.CallGenerateKey Toy.key;
             Encryption.CallEncryptChunk [Byte.x68];
             Encryption.CallDecryptChunk [] [];
             Encryption.CallEncryptChunk [Byte.x69]]
            (Encryption.new Byte.xa0 Byte.xa1 Byte.xa2 Byte.xa3)))
  = 2.
Proof.
  pose proof (@iv_discipline Toy.crypto Byte.xa0 Byte.xa1 Byte.xa2 Byte.xa3
                [Encryption.CallGenerateKey Toy.key;
                 Encryption.CallEncryptChunk [Byte.x68];
                 Encryption.CallDecryptChunk [] [];
                 Encryption.CallEncryptChunk [Byte.x69]]
                _ _ eq_refl (surjective_pairing _)) as Hiv.
  destruct Hiv as (_ & Hcount & _).
  - vm_compute. discriminate.
  - rewrite Hcount. reflexivity.
Defined.



Lemma reject_cancels_batch_witness :
  let rejected :=
    handle (EvMessage (frame FILE_REJECT []))
      (Toy.offered Toy.hello Toy.one Toy.uuid1 Toy.uuid2) in
  snd rejected = [OnError "File transfer rejected"]
  ∧ currentSendFile (fst rejected) = None
  ∧ sendQueue (fst rejected) = []
  ∧ Forall (λ f, is_file_frame f = false)
      (frames (snd (run Toy.after_reject (fst rejected)))).
Proof.
  exact (@reject_cancels_batch Toy.crypto Toy.json Toy.accept_all
           (Toy.offered Toy.hello Toy.one Toy.uuid1 Toy.uuid2)
           Toy.after_reject eq_refl).
Defined.


Lemma empty_file_exchange_witness :
  received
    (snd (handle (EvMessage (frame FILE_COMPLETE []))
            (fst (handle
                    (EvMessage
                       (frame FILE_INFO
                          (encodeFileInfo
                             (QueuedFile.info
                                (queue_file (Toy.empty, Toy.uuid1))))))
                    Toy.joiner))))
  = [File.mk "empty.txt" "text/plain" "" []].
Proof.
  apply (@empty_file_exchange Toy.crypto Toy.json Toy.accept_all
           Toy.initiator Toy.joiner Toy.empty Toy.uuid1);
    try reflexivity.
  discriminate.
Defined.

Lemma complete_delivers_what_is_stored_witness :
  ∃ f,
    received
      (snd (run (map EvMessage
                   (frames_without Toy.key
                      [Byte.xa0; Byte.xa1; Byte.xa2; Byte.xa3] 0
                      (queue_file (Toy.hello, Toy.uuid1)) 0))
              Toy.joiner))
    = [f]
    ∧ File.bytes f = []
    ∧ File.size f < 3.
Proof.
  destruct (@complete_delivers_what_is_stored Toy.crypto Toy.json
              Toy.accept_all Toy.key Toy.key
              [Byte.xa0; Byte.xa1; Byte.xa2; Byte.xa3] 0
              Toy.joiner Toy.joiner Toy.hello Toy.uuid1 0%nat)
    as (_ & _ & Hlost).
  destruct Hlost as (f & Hf & Hb & Hs);
    [exact (toy_decrypt_encrypt Toy.key)|reflexivity|reflexivity|reflexivity
    |reflexivity|vm_compute; lia|discriminate|reflexivity|vm_compute; lia|].
  exists f. split; [exact Hf|]. split; [exact Hb|exact Hs].
Defined.

End Examples.

(** ** The server over its events *)

Section ServerFacts.
Import Signaling SignalingSpec SignalingEvents.

Lemma truthy_Some (r : string) : truthy (Some r) = true ↔ r ≠ "".
Proof. destruct r; simpl; split; congruence. Qed.

Lemma truthy_inv (o : option string) :
  truthy o = true → ∃ r, o = Some r ∧ r ≠ "".
Proof.
  destruct o as [r|]; [|done]. intros Ht. exists r. split; [done|].
  by apply truthy_Some.
Qed.

Lemma send_eq clientId message s :
  send clientId message s = s
  ∨ send clientId message s = delivered clientId message s.
Proof.
  unfold send, delivered. destruct (clients s !! clientId) as [c|]; [|by left].
  destruct (is_open (Client.socket c)); [by right|by left].
Qed.


Lemma written_delivered peer message s :
  written s (delivered peer message s) = [(peer, message)].
Proof. unfold written, delivered. simpl. by rewrite drop_app_length. Qed.

Lemma set_add_elem_of (x y : string) l : y ∈ set_add x l ↔ y = x ∨ y ∈ l.
Proof.
  unfold set_add. case_decide as Hin.
  - split; [by right|]. intros [->|?]; done.
  - rewrite elem_of_app, list_elem_of_singleton. tauto.
Qed.

Lemma set_add_NoDup (x : string) l : NoDup l → NoDup (set_add x l).
Proof.
  intros Hnd. unfold set_add. case_decide as Hin; [done|].
  apply NoDup_app. split; [done|]. split.
  - intros y Hy Hk%list_elem_of_singleton. by subst.
  - apply NoDup_singleton.
Qed.

Lemma set_add_length (x : string) l :
  (length l <= length (set_add x l) <= S (length l))%nat.
Proof.
  unfold set_add. case_decide; [lia|]. rewrite length_app. simpl. lia.
Qed.

Lemma set_delete_elem_of (x y : string) l : y ∈ set_delete x l ↔ y ≠ x ∧ y ∈ l.
Proof. unfold set_delete. by rewrite list_elem_of_filter. Qed.

Lemma set_delete_idemp (x : string) l :
  filter (λ y, y ≠ x) (set_delete x l) = set_delete x l.
Proof.
  unfold set_delete. induction l as [|y l IH]; [done|].
  rewrite filter_cons. case_decide; [|done].
  by rewrite filter_cons_True, IH.
Qed.


Lemma send_maps clientId message s :
  clients (send clientId message s) = clients s
  ∧ rooms (send clientId message s) = rooms s.
Proof. destruct (send_wire clientId message s) as (? & ? & _). done. Qed.

(** What each handler does to the two maps. *)
Lemma handleCreateRoom_maps clientId uuid s :
  let s' := handleCreateRoom clientId uuid s in
  (clients s' = clients s ∧ rooms s' = rooms s)
  ∨ ∃ client, clients s !! clientId = Some client
      ∧ truthy (Client.roomId client) = false
      ∧ rooms s'
        = <[generateRoomId uuid
            := Room.mk (generateRoomId uuid) [clientId] clientId]> (rooms s)
      ∧ clients s'
        = <[clientId := Client.mk (Client.socket client)
                          (Some (generateRoomId uuid))]> (clients s).
Proof.
  intros s'. subst s'. unfold handleCreateRoom.
  destruct (clients s !! clientId) as [client|] eqn:Hc; [|by left].
  destruct (truthy (Client.roomId client)) eqn:Ht.
  - left. apply send_maps.
  - right. exists client. split; [done|]. split; [done|].
    match goal with
    | |- context [send ?c ?m ?s0] =>
        destruct (send_maps c m s0) as [-> ->]
    end.
    simpl. split; [done|]. exact (alter_as_insert _ _ _ _ Hc).
Qed.

Lemma handleJoinRoom_maps clientId roomId s :
  let s' := handleJoinRoom clientId roomId s in
  (clients s' = clients s ∧ rooms s' = rooms s)
  ∨ ∃ client room,
      clients s !! clientId = Some client
      ∧ truthy (Client.roomId client) = false
      ∧ rooms s !! toUpperCase roomId = Some room
      ∧ (length (Room.clients room) < 2)%nat
      ∧ rooms s'
        = <[toUpperCase roomId
            := Room.mk (Room.id room) (set_add clientId (Room.clients room))
                 (Room.creatorId room)]> (rooms s)
      ∧ clients s'
        = <[clientId := Client.mk (Client.socket client)
                          (Some (Room.id room))]> (clients s).
Proof.
  intros s'. subst s'. unfold handleJoinRoom.
  destruct (clients s !! clientId) as [client|] eqn:Hc; [|by left].
  destruct (truthy (Client.roomId client)) eqn:Ht; [left; apply send_maps|].
  destruct (rooms s !! toUpperCase roomId) as [room|] eqn:Hr;
    [|left; apply send_maps].
  destruct (Nat.leb_spec 2 (length (Room.clients room))) as [|Hlt];
    [left; apply send_maps|].
  right. exists client, room. do 4 (split; [done|]).
  match goal with
  | |- context [if ?b then send ?c ?m ?s0 else ?s0] =>
      assert (Hm : clients (if b then send c m s0 else s0) = clients s0
                   ∧ rooms (if b then send c m s0 else s0) = rooms s0)
        by (destruct b; [apply send_maps|done]);
      destruct Hm as [-> ->]
  end.
  match goal with
  | |- context [send ?c ?m ?s0] =>
      destruct (send_maps c m s0) as [-> ->]
  end.
  simpl. split; [done|]. exact (alter_as_insert _ _ _ _ Hc).
Qed.

Lemma handleLeaveRoom_maps clientId s :
  let s' := handleLeaveRoom clientId s in
  (s' = s
   ∧ (clients s !! clientId = None
      ∨ ∃ client, clients s !! clientId = Some client
          ∧ truthy (Client.roomId client) = false))
  ∨ ∃ client r,
      clients s !! clientId = Some client
      ∧ Client.roomId client = Some r ∧ r ≠ ""
      ∧ clients s' = <[clientId := Client.mk (Client.socket client) None]>
                       (clients s)
      ∧ ((rooms s !! r = None ∧ rooms s' = rooms s)
         ∨ ∃ room, rooms s !! r = Some room
             ∧ rooms s'
               = let left := set_delete clientId (Room.clients room) in
                 let kept :=
                   <[r := Room.mk (Room.id room) left (Room.creatorId room)]>
                     (rooms s) in
                 if (length left =? 0)%nat
                 then delete (Room.id room) kept else kept).
Proof.
  intros s'. subst s'. unfold handleLeaveRoom.
  destruct (clients s !! clientId) as [client|] eqn:Hc; [|left; auto].
  destruct (truthy (Client.roomId client)) eqn:Ht; [|left; eauto].
  right. apply truthy_inv in Ht as (r & Hr & Hnz). exists client, r.
  do 3 (split; [done|]). rewrite Hr. cbn [default from_option id].
  destruct (rooms s !! r) as [room|] eqn:Hroom.
  - match goal with
    | |- context [if truthy ?p then send ?c ?m ?s0 else ?s0] =>
        assert (Hm : clients (if truthy p then send c m s0 else s0) = clients s0
                     ∧ rooms (if truthy p then send c m s0 else s0) = rooms s0)
          by (destruct (truthy p); [apply send_maps|done]);
        destruct Hm as [Hmc Hmr];
        set (s1 := if truthy p then send c m s0 else s0) in *
    end.
    split.
    + destruct (length _ =? 0)%nat; simpl; rewrite Hmc; simpl;
        exact (alter_as_insert _ _ _ _ Hc).
    + right. exists room. split; [done|].
      destruct (length _ =? 0)%nat; simpl; by rewrite Hmr.
  - simpl. split; [exact (alter_as_insert _ _ _ _ Hc)|by left].
Qed.

Lemma relayToPeer_maps clientId message s :
  clients (relayToPeer clientId message s) = clients s
  ∧ rooms (relayToPeer clientId message s) = rooms s.
Proof.
  unfold relayToPeer. repeat case_match; apply send_maps.
Qed.


Lemma generateRoomId_nonempty uuid : uuid ≠ "" → generateRoomId uuid ≠ "".
Proof. by destruct uuid. Qed.

Lemma consistent_maps s s' :
  clients s' = clients s → rooms s' = rooms s → consistent s → consistent s'.
Proof. unfold consistent. by intros -> ->. Qed.

(** In a consistent state a member's record names a room: a client whose
    record names none is a member of no room. *)
Lemma consistent_not_member s c client k room :
  consistent s →
  clients s !! c = Some client → truthy (Client.roomId client) = false →
  rooms s !! k = Some room → c ∉ Room.clients room.
Proof.
  intros Hs Hc Ht Hroom Hin.
  destruct (Hs k room Hroom) as (_ & Hnz & _ & _ & Hmem).
  destruct (Hmem c Hin) as (client' & Hc' & Hr).
  rewrite Hc in Hc'. injection Hc' as <-. rewrite Hr in Ht.
  apply truthy_Some in Hnz. congruence.
Qed.

Lemma handleCreateRoom_consistent clientId uuid s :
  consistent s → uuid ≠ "" → consistent (handleCreateRoom clientId uuid s).
Proof.
  intros Hs Huuid.
  destruct (handleCreateRoom_maps clientId uuid s)
    as [[Hc Hr]|(client & Hcl & Ht & Hr & Hc)]; [by eapply consistent_maps|].
  intros k room. rewrite Hr, Hc, lookup_insert.
  case_decide as Hk.
  - intros [= <-]. subst k. simpl. split; [done|].
    split; [by apply generateRoomId_nonempty|].
    split; [apply NoDup_singleton|]. split; [lia|].
    intros c ->%list_elem_of_singleton. rewrite lookup_insert_eq. eauto.
  - intros Hroom. destruct (Hs k room Hroom) as (Hid & Hnz & Hnd & Hlen & Hmem).
    do 4 (split; [done|]). intros c Hin.
    rewrite lookup_insert_ne; [by apply Hmem|].
    intros <-. by eapply consistent_not_member.
Qed.

Lemma handleJoinRoom_consistent clientId roomId s :
  consistent s → consistent (handleJoinRoom clientId roomId s).
Proof.
  intros Hs.
  destruct (handleJoinRoom_maps clientId roomId s)
    as [[Hc Hr]|(client & room & Hcl & Ht & Hroom & Hlt & Hr & Hc)];
    [by eapply consistent_maps|].
  destruct (Hs _ room Hroom) as (Hid & Hnz & Hnd & Hlen & Hmem).
  intros k room'. rewrite Hr, Hc, lookup_insert.
  case_decide as Hk.
  - intros [= <-]. subst k. simpl. split; [done|]. split; [done|].
    split; [by apply set_add_NoDup|].
    pose proof (set_add_length clientId (Room.clients room)).
    split; [lia|].
    intros c [->|Hin]%set_add_elem_of.
    + rewrite lookup_insert_eq, Hid. eauto.
    + rewrite lookup_insert. case_decide; [rewrite Hid; eauto|by apply Hmem].
  - intros Hroom'.
    destruct (Hs k room' Hroom') as (Hid' & Hnz' & Hnd' & Hlen' & Hmem').
    do 4 (split; [done|]). intros c Hin.
    rewrite lookup_insert_ne; [by apply Hmem'|].
    intros <-. by eapply consistent_not_member.
Qed.

Lemma handleLeaveRoom_consistent clientId s :
  consistent s →
  consistent (handleLeaveRoom clientId s)
  ∧ ∀ k room, rooms (handleLeaveRoom clientId s) !! k = Some room →
      clientId ∉ Room.clients room.
Proof.
  intros Hs.
  destruct (handleLeaveRoom_maps clientId s)
    as [[-> Hno]|(client & r & Hcl & Hrec & Hrnz & Hc & Hr)].
  { split; [done|]. intros k room Hroom Hin.
    destruct (Hs k room Hroom) as (_ & Hnz & _ & _ & Hmem).
    destruct (Hmem _ Hin) as (cl & Hcl & Hrec).
    destruct Hno as [Hno|(cl' & Hcl' & Ht)]; [congruence|].
    exact (consistent_not_member s clientId cl' k room Hs Hcl' Ht Hroom Hin). }
  assert (Hother : ∀ k room, k ≠ r → rooms s !! k = Some room →
            clientId ∉ Room.clients room).
  { intros k room Hk Hroom Hin.
    destruct (Hs k room Hroom) as (_ & _ & _ & _ & Hmem).
    destruct (Hmem _ Hin) as (cl & Hcl' & Hrec'). congruence. }
  assert (Hkeep : ∀ k room, rooms s !! k = Some room →
            clientId ∉ Room.clients room →
            Room.id room = k ∧ k ≠ "" ∧ NoDup (Room.clients room)
            ∧ (1 <= length (Room.clients room) <= 2)%nat
            ∧ ∀ c, c ∈ Room.clients room →
                ∃ cl, clients (handleLeaveRoom clientId s) !! c = Some cl
                      ∧ Client.roomId cl = Some k).
  { intros k room Hroom Hout.
    destruct (Hs k room Hroom) as (Hid & Hnz & Hnd & Hlen & Hmem).
    do 4 (split; [done|]). intros c Hin. rewrite Hc.
    rewrite lookup_insert_ne; [by apply Hmem|]. by intros <-. }
  destruct Hr as [[Hnone Hr]|(room & Hroom & Hr)].
  { assert (Hall : ∀ k room, rooms (handleLeaveRoom clientId s) !! k = Some room →
              clientId ∉ Room.clients room).
    { intros k room. rewrite Hr. intros Hroom.
      apply (Hother k room); [|done]. intros ->. congruence. }
    split; [|done]. intros k room Hroom. apply Hkeep; [by rewrite <- Hr|].
    by eapply Hall. }
  destruct (Hs r room Hroom) as (Hid & Hnz & Hnd & Hlen & Hmem).
  set (left := set_delete clientId (Room.clients room)) in *.
  assert (Hleft : ∀ c, c ∈ left ↔ c ≠ clientId ∧ c ∈ Room.clients room).
  { intros c. apply set_delete_elem_of. }
  assert (Hlook : ∀ k room',
            rooms (handleLeaveRoom clientId s) !! k = Some room' →
            (k = r ∧ left ≠ []
             ∧ room' = Room.mk (Room.id room) left (Room.creatorId room))
            ∨ (k ≠ r ∧ rooms s !! k = Some room')).
  { intros k room'. rewrite Hr. cbv zeta. rewrite Hid.
    destruct left as [|x left'] eqn:Hl; simpl.
    - rewrite lookup_delete. case_decide; [done|].
      rewrite lookup_insert_ne by done. right. split; [congruence|done].
    - rewrite lookup_insert. case_decide as Hk.
      + intros [= <-]. left. split; [done|]. split; [done|]. done.
      + right. split; [congruence|done]. }
  split.
  - intros k room' Hroom'.
    destruct (Hlook k room' Hroom') as [(-> & Hne & ->)|[Hk Hold]].
    + simpl. split; [done|]. split; [done|].
      split; [by apply NoDup_filter|]. split.
      * assert (Hl2 : (length left <= length (Room.clients room))%nat).
        { subst left. unfold set_delete. apply length_filter. }
        assert (length left ≠ 0)%nat by (by destruct left).
        lia.
      * intros c [Hne' Hin]%Hleft. rewrite Hc.
        rewrite lookup_insert_ne by done. by apply Hmem.
    + apply Hkeep; [done|]. by apply (Hother k room').
  - intros k room' Hroom'.
    destruct (Hlook k room' Hroom') as [(-> & Hne & ->)|[Hk Hold]].
    + simpl. intros [? _]%Hleft. done.
    + by apply (Hother k room').
Qed.

Lemma handleMessage_consistent clientId raw uuid s :
  consistent s → well_drawn (Message clientId raw uuid) s →
  consistent (handleMessage clientId raw uuid s).
Proof.
  intros Hs Hw. destruct raw as [| |message| |]; simpl.
  5:{ unfold handleJoinRoom_no_string.
      destruct (clients s !! clientId) as [client|]; [|done].
      destruct (truthy (Client.roomId client)); [|done].
      eapply consistent_maps; [apply send_maps..|done]. }
  4: done.
  - eapply consistent_maps; [apply send_maps..|done].
  - eapply consistent_maps; [apply send_maps..|done].
  - destruct message; simpl in *.
    + by apply handleCreateRoom_consistent.
    + by apply handleJoinRoom_consistent.
    + by apply handleLeaveRoom_consistent.
    + eapply consistent_maps; [apply relayToPeer_maps..|done].
    + eapply consistent_maps; [apply relayToPeer_maps..|done].
    + eapply consistent_maps; [apply relayToPeer_maps..|done].
Qed.

Lemma onConnection_consistent clientId s :
  consistent s → clients s !! clientId = None →
  consistent (onConnection clientId s).
Proof.
  intros Hs Hfresh. unfold onConnection.
  match goal with
  | |- consistent (send ?c ?m ?s0) =>
      apply (consistent_maps s0); [apply send_maps..|]
  end.
  intros k room Hroom. simpl in Hroom.
  destruct (Hs k room Hroom) as (Hid & Hnz & Hnd & Hlen & Hmem).
  do 4 (split; [done|]). intros c Hin. simpl.
  rewrite lookup_insert_ne; [by apply Hmem|].
  intros <-. destruct (Hmem _ Hin) as (? & ? & _). congruence.
Qed.

Lemma onClose_consistent clientId s :
  consistent s → consistent (onClose clientId s).
Proof.
  intros Hs. destruct (handleLeaveRoom_consistent clientId s Hs) as [Hs1 Hout].
  unfold onClose. intros k room Hroom. simpl in Hroom.
  destruct (Hs1 k room Hroom) as (Hid & Hnz & Hnd & Hlen & Hmem).
  do 4 (split; [done|]). intros c Hin. simpl.
  rewrite lookup_delete_ne; [by apply Hmem|].
  intros <-. by apply (Hout k room).
Qed.

Lemma handle_consistent ev s :
  consistent s → well_drawn ev s → consistent (handle ev s).
Proof.
  intros Hs Hw. destruct ev as [c|c raw uuid|c]; cbn [handle].
  - by apply onConnection_consistent.
  - by apply handleMessage_consistent.
  - by apply onClose_consistent.
Qed.

Lemma run_consistent evs : ∀ s,
  consistent s → well_drawn_run evs s → consistent (run evs s).
Proof.
  induction evs as [|ev evs IH]; intros s Hs Hw; [done|].
  destruct Hw as [Hw Hws]. cbn [run]. apply IH; [|done].
  by apply handle_consistent.
Qed.



Lemma send_frames (P : string * ServerMessage → Prop) c m s s0 new :
  wire s0 = wire s ++ new → Forall P new →
  (send c m s0 = delivered c m s0 → P (c, m)) →
  ∃ new', wire (send c m s0) = wire s ++ new' ∧ Forall P new'.
Proof.
  intros Hw Hnew Hp. destruct (send_eq c m s0) as [->| Heq]; [eauto|].
  rewrite Heq. exists (new ++ [(c, m)]). simpl. rewrite Hw, app_assoc.
  split; [done|]. apply Forall_app. split; [done|].
  apply Forall_cons. split; [by apply Hp|by apply Forall_nil].
Qed.

Lemma sendError_frames clientId raw code message s :
  code ∈ error_codes →
  ∃ new, wire (sendError clientId code message s) = wire s ++ new
    ∧ Forall (frame_ok clientId raw s (sendError clientId code message s)) new.
Proof.
  intros Hcode. unfold sendError.
  apply (send_frames _ _ _ s s []); [by rewrite app_nil_r|by apply Forall_nil|].
  intros Heq. unfold frame_ok. simpl. by rewrite Heq.
Qed.

Lemma getPeerInRoom_member roomId clientId s peer :
  getPeerInRoom roomId clientId s = Some peer →
  ∃ room, rooms s !! roomId = Some room
    ∧ peer ≠ clientId ∧ peer ∈ Room.clients room.
Proof.
  unfold getPeerInRoom. destruct (rooms s !! roomId) as [room|]; [|done].
  intros Hhd. apply head_Some_elem_of in Hhd.
  apply list_elem_of_filter in Hhd as [? ?]. eauto.
Qed.


Ltac error_frame :=
  apply sendError_frames; unfold error_codes; set_solver.

Lemma relayToPeer_frames clientId raw message s :
  room_concerned clientId raw s = clients s !! clientId ≫= Client.roomId →
  is_relayed message = true →
  ∃ new, wire (relayToPeer clientId message s) = wire s ++ new
    ∧ Forall (frame_ok clientId raw s (relayToPeer clientId message s)) new.
Proof.
  intros Hconc Hrel. unfold relayToPeer.
  destruct (truthy (clients s !! clientId ≫= Client.roomId)) eqn:Ht;
    [|error_frame].
  apply truthy_inv in Ht as (r & Hr & Hnz). rewrite Hr.
  cbn [default from_option id].
  destruct (getPeerInRoom r clientId s) as [peer|] eqn:Hpeer; [|error_frame].
  destruct (truthy (Some peer)); [|error_frame].
  cbn [default from_option id].
  apply (send_frames _ _ _ s s []); [by rewrite app_nil_r|by apply Forall_nil|].
  intros _.
  apply getPeerInRoom_member in Hpeer as (room & Hroom & Hne & Hin).
  assert (Hok : peer ≠ clientId
                ∧ ∃ k room, room_concerned clientId raw s = Some k
                    ∧ rooms s !! k = Some room
                    ∧ (Room.id room = k → peer ∈ Room.clients room)).
  { split; [done|]. exists r, room. by rewrite Hconc, Hr. }
  unfold frame_ok. by destruct message.
Qed.

Lemma handleLeaveRoom_frames clientId raw s :
  room_concerned clientId raw s = clients s !! clientId ≫= Client.roomId →
  ∃ new, wire (handleLeaveRoom clientId s) = wire s ++ new
    ∧ Forall (frame_ok clientId raw s (handleLeaveRoom clientId s)) new.
Proof.
  intros Hconc.
  assert (Hnil : ∀ s' s'', wire s' = wire s →
            ∃ new, wire s' = wire s ++ new
              ∧ Forall (frame_ok clientId raw s s'') new).
  { intros s' s'' Hw. exists []. rewrite app_nil_r. split; [done|].
    by apply Forall_nil. }
  unfold handleLeaveRoom.
  destruct (clients s !! clientId) as [client|] eqn:Hc; [|by apply Hnil].
  destruct (truthy (Client.roomId client)) eqn:Ht; [|by apply Hnil].
  apply truthy_inv in Ht as (r & Hr & Hnz). rewrite Hr.
  cbn [default from_option id].
  destruct (rooms s !! r) as [room|] eqn:Hroom; [|by apply Hnil].
  set (s2 := set_rooms _ s).
  assert (Hpeer : ∀ s'',
            ∃ new,
              wire (if truthy (getPeerInRoom (Room.id room) clientId s2)
                    then send (default "" (getPeerInRoom (Room.id room) clientId s2))
                           PeerLeftMessage s2
                    else s2) = wire s ++ new
              ∧ Forall (frame_ok clientId raw s s'') new).
  { intros s''.
    destruct (getPeerInRoom (Room.id room) clientId s2) as [peer|] eqn:Hpeer;
      [|by apply Hnil].
    destruct (truthy (Some peer)); [|by apply Hnil].
    cbn [default from_option id].
    apply (send_frames _ _ _ s s2 []);
      [by rewrite app_nil_r|by apply Forall_nil|].
    intros _. unfold frame_ok. simpl.
    apply getPeerInRoom_member in Hpeer as (room' & Hroom' & Hne & Hin).
    split; [done|]. exists r, room. rewrite Hconc. simpl.
    split; [done|]. split; [done|]. intros Hid.
    subst s2. simpl in Hroom'. rewrite Hid, lookup_insert_eq in Hroom'.
    injection Hroom' as <-. simpl in Hin.
    by apply set_delete_elem_of in Hin as [_ ?]. }
  match goal with
  | |- ∃ new, wire ?t = _ ∧ Forall (frame_ok _ _ _ ?t') _ =>
      destruct (Hpeer t') as (new & Hw & Hn)
  end.
  exists new. split; [|done].
  destruct (length _ =? 0)%nat; simpl; exact Hw.
Qed.

Lemma handleJoinRoom_frames clientId roomId s :
  ∃ new, wire (handleJoinRoom clientId roomId s) = wire s ++ new
    ∧ Forall (frame_ok clientId (Parsed (JoinRoomMessage roomId)) s
                (handleJoinRoom clientId roomId s)) new.
Proof.
  unfold handleJoinRoom.
  destruct (clients s !! clientId) as [client|] eqn:Hc.
  2:{ exists []. rewrite app_nil_r. split; [done|]. by apply Forall_nil. }
  destruct (truthy (Client.roomId client)); [error_frame|].
  destruct (rooms s !! toUpperCase roomId) as [room|] eqn:Hroom; [|error_frame].
  destruct (2 <=? length (Room.clients room))%nat; [error_frame|].
  set (s2 := set_roomId _ _ (set_rooms _ s)).
  match goal with
  | |- ∃ new, _ ∧ Forall ?P _ =>
      destruct (send_frames P clientId (RoomJoinedMessage (Room.id room) false)
                  s s2 [])
        as (new1 & Hw1 & Hn1);
        [by rewrite app_nil_r|by apply Forall_nil|done|]
  end.
  set (s3 := send clientId (RoomJoinedMessage (Room.id room) false) s2) in *.
  destruct (getPeerInRoom (Room.id room) clientId s3) as [peer|] eqn:Hpeer;
    [|by eauto].
  destruct (truthy (Some peer)); [|by eauto].
  cbn [default from_option id].
  apply (send_frames _ _ _ s s3 new1); [done|done|].
  intros _. unfold frame_ok. simpl.
  apply getPeerInRoom_member in Hpeer as (room' & Hroom' & Hne & Hin).
  split; [done|]. exists (toUpperCase roomId), room.
  split; [done|]. split; [done|]. intros Hid.
  subst s3. destruct (send_maps clientId (RoomJoinedMessage (Room.id room) false) s2)
    as [_ Hrs]. rewrite Hrs in Hroom'. subst s2. simpl in Hroom'.
  rewrite Hid, lookup_insert_eq in Hroom'. injection Hroom' as <-.
  simpl in Hin. apply set_add_elem_of in Hin as [?|?]; done.
Qed.

Lemma handleCreateRoom_frames clientId uuid s :
  ∃ new, wire (handleCreateRoom clientId uuid s) = wire s ++ new
    ∧ Forall (frame_ok clientId (Parsed CreateRoomMessage) s
                (handleCreateRoom clientId uuid s)) new.
Proof.
  unfold handleCreateRoom.
  destruct (clients s !! clientId) as [client|] eqn:Hc.
  2:{ exists []. rewrite app_nil_r. split; [done|]. by apply Forall_nil. }
  destruct (truthy (Client.roomId client)); [error_frame|].
  apply (send_frames _ _ _ s _ []);
    [by rewrite app_nil_r|by apply Forall_nil|done].
Qed.

Lemma handleMessage_frames clientId raw uuid s :
  ∃ new, wire (handleMessage clientId raw uuid s) = wire s ++ new
    ∧ Forall (frame_ok clientId raw s (handleMessage clientId raw uuid s)) new.
Proof.
  destruct raw as [| |message| |]; [cbn [handleMessage]; error_frame..| | |].
  2:{ cbn [handleMessage]. exists []. rewrite app_nil_r.
      split; [done|]. by apply Forall_nil. }
  2:{ cbn [handleMessage]. unfold handleJoinRoom_no_string.
      destruct (clients s !! clientId) as [client|] eqn:Hc.
      2:{ exists []. rewrite app_nil_r. split; [done|]. by apply Forall_nil. }
      destruct (truthy (Client.roomId client)); [error_frame|].
      exists []. rewrite app_nil_r. split; [done|]. by apply Forall_nil. }
  destruct message as [|roomId| |sdp|sdp|cand mid idx]; cbn [handleMessage].
  - apply handleCreateRoom_frames.
  - apply handleJoinRoom_frames.
  - by apply handleLeaveRoom_frames.
  - by apply relayToPeer_frames.
  - by apply relayToPeer_frames.
  - by apply relayToPeer_frames.
Qed.



Lemma written_app s s' new : wire s' = wire s ++ new → written s s' = new.
Proof. intros Hw. unfold written. by rewrite Hw, drop_app_length. Qed.

(** X4. A request the server answers with an error has no other effect:
    the error goes to the requester, its code is one of the seven the
    server knows, it is the only frame written, and both maps are as they
    were. *)
Theorem error_replies_change_nothing s clientId raw uuid to code message :
  let s' := handleMessage clientId raw uuid s in
  (to, ErrorMessage code message) ∈ written s s' →
  to = clientId
  ∧ code ∈ error_codes
  ∧ clients s' = clients s
  ∧ rooms s' = rooms s
  ∧ written s s' = [(clientId, ErrorMessage code message)].
Proof.
  intros s' Hin.
  destruct (handleMessage_frames clientId raw uuid s) as (new & Hw & Hok).
  fold s' in Hw, Hok. rewrite (written_app _ _ _ Hw) in *.
  rewrite Forall_forall in Hok. specialize (Hok _ Hin).
  unfold frame_ok in Hok. simpl in Hok. destruct Hok as (-> & Hcode & Hs').
  split; [done|]. split; [done|].
  rewrite Hs' in Hw. simpl in Hw. apply app_inv_head in Hw.
  rewrite Hs'. by subst new.
Qed.

(** X5. The server writes to no one outside the room a request is about:
    a frame to the requester is a confirmation or an error; any other
    frame goes to a member of the room the request names (for a join) or
    the requester's record names (for a leave or a relayed message). *)
Theorem frames_stay_in_room s clientId raw uuid to message :
  rooms_keyed s →
  (to, message) ∈ written s (handleMessage clientId raw uuid s) →
  (to = clientId ∧ is_reply message = true)
  ∨ (to ≠ clientId ∧ is_reply message = false
     ∧ ∃ k room, room_concerned clientId raw s = Some k
         ∧ rooms s !! k = Some room ∧ to ∈ Room.clients room).
Proof.
  intros Hkeyed Hin.
  destruct (handleMessage_frames clientId raw uuid s) as (new & Hw & Hok).
  rewrite (written_app _ _ _ Hw) in Hin.
  rewrite Forall_forall in Hok. specialize (Hok _ Hin).
  unfold frame_ok in Hok. simpl in Hok.
  destruct message; try (left; split; [tauto|done]);
    right; destruct Hok as (Hne & k & room & Hk & Hroom & Hmem);
    (split; [done|]); (split; [done|]); exists k, room;
    (split; [done|]); (split; [done|]); apply Hmem; by apply Hkeyed.
Qed.


Lemma handleLeaveRoom_wire clientId s :
  wire (handleLeaveRoom clientId s) = wire s
  ∨ ∃ peer, peer ≠ clientId
      ∧ wire (handleLeaveRoom clientId s) = wire s ++ [(peer, PeerLeftMessage)].
Proof.
  unfold handleLeaveRoom.
  destruct (clients s !! clientId) as [client|]; [|by left].
  destruct (truthy (Client.roomId client)); [|by left].
  destruct (rooms s !! _) as [room|]; [|by left].
  set (s2 := set_rooms _ s).
  assert (Hw : wire (if truthy (getPeerInRoom (Room.id room) clientId s2)
                     then send (default "" (getPeerInRoom (Room.id room) clientId s2))
                            PeerLeftMessage s2
                     else s2) = wire s
               ∨ ∃ peer, peer ≠ clientId
                   ∧ wire (if truthy (getPeerInRoom (Room.id room) clientId s2)
                           then send (default "" (getPeerInRoom (Room.id room)
                                                    clientId s2))
                                  PeerLeftMessage s2
                           else s2) = wire s ++ [(peer, PeerLeftMessage)]).
  { destruct (getPeerInRoom (Room.id room) clientId s2) as [peer|] eqn:Hpeer;
      [|by left].
    destruct (truthy (Some peer)); [|by left]. cbn [default from_option id].
    destruct (send_wire peer PeerLeftMessage s2) as (_ & _ & [->| ->]);
      [by left|right].
    exists peer. split; [|done]. by eapply getPeerInRoom_other. }
  destruct (length _ =? 0)%nat; simpl; exact Hw.
Qed.

(** X1. A client leaves. When its record names no room nothing happens.
    Otherwise its record names no room afterwards; when it was the only
    member the room is deleted and nothing is written; when a member
    stays the room keeps the members that stay, and [peer-left] is
    written to the first of them, and to no one else, when that client is
    connected. *)
Theorem leave_room_outcome s clientId client :
  clients s !! clientId = Some client →
  let s' := handleLeaveRoom clientId s in
  (truthy (Client.roomId client) = false → s' = s)
  ∧ (∀ r, Client.roomId client = Some r → r ≠ "" →
       clients s'
       = <[clientId := Client.mk (Client.socket client) None]> (clients s)
       ∧ (rooms s !! r = None → rooms s' = rooms s ∧ wire s' = wire s)
       ∧ (∀ room, rooms s !! r = Some room → Room.id room = r →
            let left := set_delete clientId (Room.clients room) in
            (left = [] → rooms s' = delete r (rooms s) ∧ wire s' = wire s)
            ∧ (∀ peer rest, left = peer :: rest →
                 rooms s'
                 = <[r := Room.mk r left (Room.creatorId room)]> (rooms s)
                 ∧ (wire s' = wire s
                    ∨ wire s' = wire s ++ [(peer, PeerLeftMessage)])
                 ∧ (∀ p, peer ≠ "" →
                      clients s !! peer = Some p → Client.socket p = OPEN →
                      wire s' = wire s ++ [(peer, PeerLeftMessage)])))).
Proof.
  intros Hc s'. subst s'. unfold handleLeaveRoom. rewrite Hc. split.
  { by intros ->. }
  intros r Hr Hnz. rewrite Hr, (proj2 (truthy_Some r) Hnz).
  cbn [default from_option id].
  destruct (rooms s !! r) as [room|] eqn:Hroom.
  2:{ simpl. split; [exact (alter_as_insert _ _ _ _ Hc)|]. split; [done|].
      by intros room [=]. }
  set (left := set_delete clientId (Room.clients room)).
  set (s2 := set_rooms _ s).
  assert (Hpeer : Room.id room = r →
            getPeerInRoom (Room.id room) clientId s2 = head left).
  { intros Hid. unfold getPeerInRoom. subst s2. simpl.
    rewrite Hid, lookup_insert_eq. simpl. subst left.
    by rewrite set_delete_idemp. }
  split; [|split; [done|]].
  - match goal with
    | |- context [if truthy ?p then send ?c ?m ?s0 else ?s0] =>
        assert (Hm : clients (if truthy p then send c m s0 else s0)
                     = clients s0)
          by (destruct (truthy p); [apply send_maps|done])
    end.
    destruct (length left =? 0)%nat; simpl; rewrite Hm; simpl;
      exact (alter_as_insert _ _ _ _ Hc).
  - intros room0 [= <-] Hid. cbv zeta. fold left.
    rewrite (Hpeer Hid). split.
    + intros Hl. rewrite Hl. simpl. rewrite Hid.
      split; [|done]. by rewrite delete_insert_eq.
    + intros peer rest Hl. rewrite Hl. cbn [head length Nat.eqb].
      destruct (truthy (Some peer)) eqn:Htp.
      * cbn [default from_option id].
        destruct (send_maps peer PeerLeftMessage s2) as [_ Hrs].
        split; [simpl; rewrite Hrs; subst s2; simpl; by rewrite Hid, ?Hl|].
        split.
        -- simpl. destruct (send_wire peer PeerLeftMessage s2)
             as (_ & _ & [Hw|Hw]); rewrite Hw; auto.
        -- intros p _ Hp Hopen. simpl.
           by rewrite (send_open s2 peer p PeerLeftMessage Hp Hopen).
      * split; [subst s2; simpl; by rewrite Hid, ?Hl|]. split; [by left|].
        intros p Hpz. apply truthy_Some in Hpz. congruence.
Qed.

(** X2. When a socket closes, the server forgets the client: it is no
    longer registered, it is a member of no room, the records of the
    other clients and the rooms it was not a member of are as they were,
    and all that is written is [peer-left] to clients other than the one
    that closed. *)
Theorem close_forgets_client s clientId :
  consistent s →
  let s' := onClose clientId s in
  clients s' !! clientId = None
  ∧ (∀ c, c ≠ clientId → clients s' !! c = clients s !! c)
  ∧ (∀ k room, rooms s' !! k = Some room → clientId ∉ Room.clients room)
  ∧ (∀ k room, rooms s !! k = Some room → clientId ∉ Room.clients room →
       rooms s' !! k = Some room)
  ∧ Forall (λ f, f.1 ≠ clientId ∧ f.2 = PeerLeftMessage) (written s s').
Proof.
  intros Hs s'. subst s'.
  assert (Hcl : clients (onClose clientId s)
                = delete clientId (clients (handleLeaveRoom clientId s)))
    by done.
  assert (Hro : rooms (onClose clientId s)
                = rooms (handleLeaveRoom clientId s)) by done.
  assert (Hwi : wire (onClose clientId s)
                = wire (handleLeaveRoom clientId s)) by done.
  unfold written. rewrite Hcl, Hro, Hwi. clear Hcl Hro Hwi.
  destruct (handleLeaveRoom_consistent clientId s Hs) as [_ Hout].
  split; [by rewrite lookup_delete_eq|]. split; [|split; [done|split]].
  - intros c Hne. rewrite lookup_delete_ne by done.
    destruct (handleLeaveRoom_maps clientId s)
      as [[-> _]|(client & r & _ & _ & _ & -> & _)]; [done|].
    by rewrite lookup_insert_ne.
  - intros k room Hroom Hnot.
    destruct (handleLeaveRoom_maps clientId s)
      as [[-> _]|(client & r & _ & _ & _ & _ & Hr)]; [done|].
    destruct Hr as [[_ ->]|(room0 & Hroom0 & ->)]; [done|]. cbv zeta.
    destruct (Hs r room0 Hroom0) as (Hid & _ & _ & Hlen & _).
    destruct (decide (k = r)) as [->|Hk].
    + assert (room0 = room) as -> by congruence.
      assert (Hsame : set_delete clientId (Room.clients room)
                      = Room.clients room).
      { unfold set_delete. apply filter_all. intros x Hx ->. done. }
      rewrite Hsame.
      destruct (length (Room.clients room)) eqn:Hl; [lia|]. simpl.
      rewrite lookup_insert_eq. by destruct room.
    + destruct (length _ =? 0)%nat.
      * rewrite Hid, lookup_delete_ne, lookup_insert_ne by done. done.
      * by rewrite lookup_insert_ne.
  - destruct (handleLeaveRoom_wire clientId s) as [Hw|(peer & Hne & Hw)];
      rewrite Hw.
    + rewrite drop_all. by apply Forall_nil.
    + rewrite drop_app_length. apply Forall_cons. split; [done|].
      by apply Forall_nil.
Qed.


(** X3. From its start and through any connections, requests and
    disconnections (each connection under an id no connected client has,
    each room code drawn from a UUID that is not empty) the server keeps
    its rooms consistent: each room is stored under its own code, has one
    or two members, each listed once, and each member is a connected
    client whose record names that room; so no client is a member of two
    rooms. *)
Theorem rooms_stay_consistent evs :
  well_drawn_run evs initial →
  let s := run evs initial in
  consistent s
  ∧ ∀ k1 k2 room1 room2 c,
      rooms s !! k1 = Some room1 → rooms s !! k2 = Some room2 →
      c ∈ Room.clients room1 → c ∈ Room.clients room2 → k1 = k2.
Proof.
  intros Hw s.
  assert (Hs : consistent s).
  { apply run_consistent; [|done]. intros k room Hroom. exfalso.
    revert Hroom. unfold initial. simpl. by rewrite lookup_empty. }
  split; [done|]. intros k1 k2 room1 room2 c Hr1 Hr2 Hc1 Hc2.
  destruct (Hs k1 room1 Hr1) as (_ & _ & _ & _ & Hm1).
  destruct (Hs k2 room2 Hr2) as (_ & _ & _ & _ & Hm2).
  destruct (Hm1 c Hc1) as (cl1 & Hcl1 & Hn1).
  destruct (Hm2 c Hc2) as (cl2 & Hcl2 & Hn2).
  congruence.
Qed.

Lemma toUpperCase_ascii_idemp c :
  toUpperCase_ascii (toUpperCase_ascii c) = toUpperCase_ascii c.
Proof.
  destruct c as [[] [] [] [] [] [] [] []]; reflexivity.
Qed.

Lemma toUpperCase_idemp str : toUpperCase (toUpperCase str) = toUpperCase str.
Proof.
  induction str as [|c str IH]; [done|]. simpl.
  by rewrite toUpperCase_ascii_idemp, IH.
Qed.

(** X6. One client creates a room and another joins it with the code
    typed in any letter case: the two are paired. The creator gets
    [room-created], then the joiner [room-joined] with [isInitiator]
    false, then the creator [peer-joined]; the room holds the creator then
    the joiner, and both records name it. The code as issued is already
    in upper case, so typing it as shown finds the room. On these frames
    the signaling client of the creator ends in the room as initiator,
    and that of the joiner in the same room, not as initiator. *)
Theorem create_then_join_pairs s a b ca cb uuid typed :
  clients s !! a = Some ca → clients s !! b = Some cb →
  a ≠ b → a ≠ "" →
  Client.socket ca = OPEN → Client.socket cb = OPEN →
  truthy (Client.roomId ca) = false → truthy (Client.roomId cb) = false →
  toUpperCase typed = generateRoomId uuid →
  let code := generateRoomId uuid in
  let s' := handleJoinRoom b typed (handleCreateRoom a uuid s) in
  toUpperCase code = code
  ∧ wire s'
    = wire s ++ [(a, RoomCreatedMessage code);
                 (b, RoomJoinedMessage code false);
                 (a, PeerJoinedMessage)]
  ∧ rooms s' = <[code := Room.mk code [a; b] a]> (rooms s)
  ∧ clients s' !! a = Some (Client.mk OPEN (Some code))
  ∧ clients s' !! b = Some (Client.mk OPEN (Some code))
  ∧ ∀ pa pb,
      let pa' := SignalingClient.deliver (written s s') a pa in
      let pb' := SignalingClient.deliver (written s s') b pb in
      SignalingClient.roomId (SignalingClient.state pa') = Some code
      ∧ SignalingClient.isInitiator (SignalingClient.state pa') = true
      ∧ SignalingClient.roomId (SignalingClient.state pb') = Some code
      ∧ SignalingClient.isInitiator (SignalingClient.state pb') = false.
Proof.
  intros Ha Hb Hab Hanz Hoa Hob Hta Htb Htyped code s'.
  split; [apply toUpperCase_idemp|].
  subst s'.
  (* the creation *)
  set (s1 := handleCreateRoom a uuid s).
  assert (Hs1 : s1 = mkState
                  (<[a := Client.mk OPEN (Some code)]> (clients s))
                  (<[code := Room.mk code [a] a]> (rooms s))
                  (wire s ++ [(a, RoomCreatedMessage code)])).
  { subst s1. unfold handleCreateRoom. rewrite Ha, Hta. fold code.
    erewrite send_open;
      [|simpl; rewrite lookup_alter_eq, Ha; reflexivity|done].
    simpl. f_equal. rewrite (alter_as_insert _ _ _ _ Ha). by rewrite Hoa. }
  (* the join *)
  unfold handleJoinRoom.
  assert (Hb1 : clients s1 !! b = Some cb).
  { rewrite Hs1. simpl. by rewrite lookup_insert_ne. }
  assert (Hr1 : rooms s1 !! toUpperCase typed = Some (Room.mk code [a] a)).
  { rewrite Hs1, Htyped. simpl. by rewrite lookup_insert_eq. }
  rewrite Hb1, Htb, Hr1. cbn [Room.clients Room.id Room.creatorId length Nat.leb].
  assert (Hadd : set_add b [a] = [a; b]).
  { unfold set_add. rewrite decide_False; [done|].
    intros ?%list_elem_of_singleton. congruence. }
  rewrite Hadd, Htyped. fold code.
  set (s2 := set_roomId b (Some code) _).
  assert (Hs2 : s2 = mkState
                  (<[b := Client.mk OPEN (Some code)]> (clients s1))
                  (<[code := Room.mk code [a; b] a]> (rooms s1))
                  (wire s1)).
  { subst s2. unfold set_roomId, set_rooms, set_clients. simpl. f_equal.
    rewrite (alter_as_insert _ _ _ _ Hb1). by rewrite Hob. }
  erewrite (send_open s2 b);
    [|rewrite Hs2; simpl; apply lookup_insert_eq|done].
  set (s3 := mkState _ _ _).
  assert (Hpeer : getPeerInRoom code b s3 = Some a).
  { unfold getPeerInRoom. subst s3. rewrite Hs2. simpl.
    rewrite lookup_insert_eq. simpl.
    rewrite filter_cons_True by done.
    rewrite filter_cons_False by (intros ?; done). done. }
  rewrite Hpeer, (proj2 (truthy_Some a) Hanz). cbn [default from_option id].
  erewrite (send_open s3 a);
    [|subst s3; rewrite Hs2, Hs1; simpl;
      rewrite lookup_insert_ne by done; apply lookup_insert_eq|done].
  subst s3. rewrite Hs2, Hs1. simpl.
  split; [by rewrite <- !app_assoc|].
  split; [by rewrite insert_insert_eq|].
  split; [rewrite lookup_insert_ne by done; apply lookup_insert_eq|].
  split; [apply lookup_insert_eq|].
  intros pa pb. unfold written. cbn [wire].
  rewrite <- !app_assoc, drop_app_length.
  unfold SignalingClient.deliver. cbn [fold_left app fst snd].
  rewrite !(decide_False (P := a = b)) by done.
  rewrite !(decide_False (P := b = a)) by done.
  destruct (decide (a = a)); [|done]. destruct (decide (b = b)); [|done].
  done.
Qed.

End ServerFacts.

Section ServerExamples.
Import Signaling SignalingSpec SignalingEvents.

Lemma paired_consistent : consistent paired.
Proof.
  intros k room. unfold paired. simpl. rewrite lookup_insert.
  case_decide as Hk; [|by rewrite lookup_empty].
  intros [= <-]. subst k. simpl. split; [done|]. split; [done|].
  split.
  { apply NoDup_cons. split; [by intros ?%list_elem_of_singleton|].
    apply NoDup_singleton. }
  split; [lia|].
  intros c Hc. apply elem_of_cons in Hc as [->|Hc].
  { eexists. split; reflexivity. }
  apply elem_of_cons in Hc as [->|Hc].
  { eexists. split; reflexivity. }
  by apply elem_of_nil in Hc.
Qed.

Lemma leave_room_outcome_witness :
  wire (handleLeaveRoom "bob" paired) = [("alice", PeerLeftMessage)].
Proof.
  destruct (leave_room_outcome paired "bob" (Client.mk OPEN (Some "ABC123"))
              eq_refl) as [_ Hin].
  destruct (Hin "ABC123" eq_refl) as (_ & _ & Hroom); [discriminate|].
  destruct (Hroom (Room.mk "ABC123" ["alice"; "bob"] "alice") eq_refl eq_refl)
    as [_ Hstay].
  destruct (Hstay "alice" [] eq_refl) as (_ & _ & Hw).
  apply (Hw (Client.mk OPEN (Some "ABC123"))); [discriminate|reflexivity..].
Defined.

Lemma close_forgets_client_witness :
  clients (onClose "bob" paired) !! "bob" = None
  ∧ rooms (onClose "bob" paired) !! "ABC123"
    = Some (Room.mk "ABC123" ["alice"] "alice").
Proof.
  destruct (close_forgets_client paired "bob" paired_consistent) as [Hgone _].
  split; [exact Hgone|reflexivity].
Defined.

Lemma error_replies_change_nothing_witness :
  written two_in_room
    (handleMessage "carol" (Parsed (JoinRoomMessage "abcdef")) "" two_in_room)
  = [("carol", ErrorMessage "ROOM_FULL" "Room already has two participants")].
Proof.
  destruct (error_replies_change_nothing two_in_room "carol"
              (Parsed (JoinRoomMessage "abcdef")) "" "carol" "ROOM_FULL"
              "Room already has two participants")
    as (_ & _ & _ & _ & Hw); [|exact Hw].
  apply (list_elem_of_lookup_2 _ 0). reflexivity.
Defined.

Lemma frames_stay_in_room_witness :
  ∃ k room,
    room_concerned "bob" (Parsed (OfferMessage "v=0")) paired = Some k
    ∧ rooms paired !! k = Some room ∧ "alice" ∈ Room.clients room.
Proof.
  destruct (frames_stay_in_room paired "bob" (Parsed (OfferMessage "v=0")) ""
              "alice" (RelayedOfferMessage "v=0"))
    as [[Heq _]|(_ & _ & Hroom)]; [| |discriminate Heq|exact Hroom].
  - intros k room Hroom.
    by destruct (paired_consistent k room Hroom) as [? _].
  - apply (list_elem_of_lookup_2 _ 0). reflexivity.
Defined.

Lemma rooms_stay_consistent_witness :
  consistent
    (run [Connection "alice";
          Message "alice" (Parsed CreateRoomMessage)
            "3f9a1c2e-7b4d-4e8a-9c1f-0a2b3c4d5e6f";
          Connection "bob";
          Message "bob" (Parsed (JoinRoomMessage "3f9a1c")) "";
          Close "alice"]
       initial).
Proof.
  apply (rooms_stay_consistent
           [Connection "alice";
            Message "alice" (Parsed CreateRoomMessage)
              "3f9a1c2e-7b4d-4e8a-9c1f-0a2b3c4d5e6f";
            Connection "bob";
            Message "bob" (Parsed (JoinRoomMessage "3f9a1c")) "";
            Close "alice"]).
  cbn [well_drawn_run well_drawn]. repeat split; try reflexivity.
  discriminate.
Defined.

Lemma create_then_join_pairs_witness :
  wire (handleJoinRoom "bob" "3f9a1c"
          (handleCreateRoom "alice" "3f9a1c2e-7b4d-4e8a-9c1f-0a2b3c4d5e6f"
             (run [Connection "alice"; Connection "bob"] initial)))
  = [("alice", ConnectedMessage "alice"); ("bob", ConnectedMessage "bob");
     ("alice", RoomCreatedMessage "3F9A1C");
     ("bob", RoomJoinedMessage "3F9A1C" false);
     ("alice", PeerJoinedMessage)].
Proof.
  destruct (create_then_join_pairs
              (run [Connection "alice"; Connection "bob"] initial)
              "alice" "bob" (Client.mk OPEN None) (Client.mk OPEN None)
              "3f9a1c2e-7b4d-4e8a-9c1f-0a2b3c4d5e6f" "3f9a1c"
              eq_refl eq_refl ltac:(discriminate) ltac:(discriminate)
              eq_refl eq_refl eq_refl eq_refl eq_refl)
    as (_ & Hw & _).
  exact Hw.
Defined.

End ServerExamples.

(** ** Joining a room and relaying, request by request *)

Section RequestFacts.
Import Signaling SignalingSpec SignalingEvents.





Lemma host_closing_consistent : consistent host_closing.
Proof.
  intros k room. unfold host_closing. simpl. rewrite lookup_insert.
  case_decide as Hk; [|by rewrite lookup_empty].
  intros [= <-]. subst k. simpl. split; [done|]. split; [done|].
  split; [apply NoDup_singleton|]. split; [lia|].
  intros c ->%list_elem_of_singleton. eexists. split; reflexivity.
Qed.


(** A join-room request whose [roomId] is not a string, from a client in
    no room, is not answered: the handler throws, nothing is written and
    nothing changes. *)
Lemma join_room_no_string s clientId client :
  clients s !! clientId = Some client →
  truthy (Client.roomId client) = false →
  handleMessage clientId JoinRoomNoString "" s = s
  ∧ throws clientId JoinRoomNoString s = true.
Proof.
  intros Hc Hfree. cbn [handleMessage throws].
  unfold handleJoinRoom_no_string. by rewrite Hc, Hfree.
Qed.


(** It fails for a well-formed request too, when the occupant's socket
    is no longer open: Bob joins the room of Alice, whose socket is
    closing, and [room-joined] is the only frame written. *)
Lemma join_room_host_closing :
  ¬ join_room_reply "bob" (Parsed (JoinRoomMessage "abc123")) host_closing.
Proof.
  intros [(code & message & _ & Heq)|(k & room & room' & peer & _ & _ & _ & _
                                      & _ & Hw)].
  - apply (f_equal wire) in Heq. vm_compute in Heq. discriminate Heq.
  - vm_compute in Hw. discriminate Hw.
Qed.




End RequestFacts.

(** ** The signaling client *)

Section ClientFacts.
Import Signaling SignalingClient.

Lemma sent_app o1 o2 : sent (o1 ++ o2) = sent o1 ++ sent o2.
Proof. apply omap_app. Qed.

Lemma sent_map ms : sent (map SocketSend ms) = ms.
Proof. induction ms as [|m ms IH]; [done|]. csimpl. by rewrite IH. Qed.

Lemma send_outbox message p :
  (socket_open p = true → messageQueueRef p = []) →
  (socket_open (fst (send message p)) = true →
   messageQueueRef (fst (send message p)) = [])
  ∧ sent (snd (send message p)) ++ messageQueueRef (fst (send message p))
    = messageQueueRef p ++ [message]
  ∧ socketRef (fst (send message p)) = socketRef p.
Proof.
  intros Hinv. unfold send. destruct (socket_open p) eqn:Ho; simpl.
  - split; [by intros _; apply Hinv|]. by rewrite (Hinv eq_refl).
  - split; [|done]. unfold socket_open. simpl.
    unfold socket_open in Ho. by rewrite Ho.
Qed.

(** One event and the outbox: what was waiting and what is asked now is
    what has gone to the socket and what waits still; nothing waits while
    the socket is open. *)
Lemma handle_outbox ev p :
  (socket_open p = true → messageQueueRef p = []) →
  (socket_open (fst (handle ev p)) = true →
   messageQueueRef (fst (handle ev p)) = [])
  ∧ sent (snd (handle ev p)) ++ messageQueueRef (fst (handle ev p))
    = messageQueueRef p ++ requested [ev].
Proof.
  intros Hinv.
  destruct ev as [|message| |r| | |data| |]; cbn [handle].
  - unfold connect. destruct (socket_open p) eqn:Ho; simpl.
    + split; [by intros _; apply Hinv|]. by rewrite app_nil_r.
    + split; [done|]. by rewrite app_nil_r.
  - destruct (send_outbox message p Hinv) as (? & ? & _). done.
  - destruct (send_outbox CreateRoomMessage p Hinv) as (? & ? & _). done.
  - destruct (send_outbox (JoinRoomMessage (toUpperCase r)) p Hinv)
      as (? & ? & _). done.
  - unfold leaveRoom.
    destruct (send_outbox LeaveRoomMessage p Hinv) as (Hi & Hs & _).
    destruct (send LeaveRoomMessage p) as [p1 o1]. done.
  - unfold onopen, flushMessageQueue. simpl.
    split; [done|]. by rewrite sent_map, !app_nil_r.
  - destruct data; simpl; (split; [done|]); by rewrite app_nil_r.
  - simpl. split; [done|]. by rewrite app_nil_r.
  - unfold onReconnect, connect.
    change (socket_open (mkProvider (state p) (socketRef p)
                           (S (reconnectAttemptRef p)) (messageQueueRef p)))
      with (socket_open p).
    destruct (socket_open p) eqn:Ho; simpl.
    + split; [by intros _; apply Hinv|]. by rewrite app_nil_r.
    + split; [done|]. by rewrite app_nil_r.
Qed.

Lemma run_outbox evs : ∀ p,
  (socket_open p = true → messageQueueRef p = []) →
  (socket_open (fst (run evs p)) = true → messageQueueRef (fst (run evs p)) = [])
  ∧ sent (snd (run evs p)) ++ messageQueueRef (fst (run evs p))
    = messageQueueRef p ++ requested evs.
Proof.
  induction evs as [|ev evs IH]; intros p Hinv.
  - simpl. split; [done|]. by rewrite app_nil_r.
  - cbn [run]. destruct (handle_outbox ev p Hinv) as [Hinv1 Hs1].
    destruct (handle ev p) as [p1 o1]. cbn [fst snd] in *.
    destruct (IH p1 Hinv1) as [Hinv2 Hs2].
    destruct (run evs p1) as [p2 o2]. cbn [fst snd] in *.
    split; [done|].
    rewrite sent_app, <- app_assoc, Hs2, app_assoc, Hs1, <- app_assoc.
    f_equal. symmetry. apply (omap_app _ [ev] evs).
Qed.

(** X7. Nothing given to the signaling client is lost, repeated or
    reordered. From its mounting and through any calls of [send],
    [createRoom], [joinRoom] and [leaveRoom], any openings and closings
    of the socket, frames and reconnections: the frames given to the
    socket so far, followed by the messages still waiting, are the
    messages asked for, in the order asked; nothing waits while the socket
    is open; and [joinRoom] sends the code in upper case. *)
Theorem outbox_keeps_order evs :
  let p := fst (run evs initial) in
  let out := snd (run evs initial) in
  sent out ++ messageQueueRef p = requested evs
  ∧ (socket_open p = true → messageQueueRef p = [] ∧ sent out = requested evs)
  ∧ ∀ code, EvJoinRoom code ∈ evs →
      JoinRoomMessage (toUpperCase code) ∈ sent out ++ messageQueueRef p.
Proof.
  intros p out. subst p out.
  destruct (run_outbox evs initial) as [Hinv Hs]; [done|].
  simpl in Hs. split; [done|]. split.
  - intros Ho. rewrite (Hinv Ho) in *. by rewrite app_nil_r in Hs.
  - intros code Hin. rewrite Hs. unfold requested.
    apply list_elem_of_omap. exists (EvJoinRoom code). done.
Qed.

Lemma timers_app o1 o2 : timers (o1 ++ o2) = timers o1 ++ timers o2.
Proof. apply omap_app. Qed.

Lemma reconnect_delay attempt :
  nth (Nat.min attempt (length RECONNECT_DELAYS - 1)) RECONNECT_DELAYS 0%N
  = (1000 * 2 ^ N.of_nat (Nat.min attempt 4))%N.
Proof.
  change (length RECONNECT_DELAYS - 1)%nat with 4%nat.
  destruct attempt as [|[|[|[|attempt]]]]; try reflexivity.
  replace (Nat.min (S (S (S (S attempt)))) 4) with 4%nat by lia. reflexivity.
Qed.

(** One failure: the socket closes, the timer comes due and a new socket
    is made. *)
Lemma failure_step p :
  let r := run [EvClose; EvReconnect] p in
  reconnectAttemptRef (fst r) = S (reconnectAttemptRef p)
  ∧ messageQueueRef (fst r) = messageQueueRef p
  ∧ socketRef (fst r) = Some CONNECTING
  ∧ snd r
    = [SetTimeout (1000 * 2 ^ N.of_nat (Nat.min (reconnectAttemptRef p) 4))%N;
       NewSocket].
Proof.
  cbn [run handle]. unfold onclose. rewrite reconnect_delay. done.
Qed.

Lemma failures_S k : failures (S k) = [EvClose; EvReconnect] ++ failures k.
Proof. done. Qed.

Lemma client_run_app evs1 evs2 p :
  run (evs1 ++ evs2) p
  = (fst (run evs2 (fst (run evs1 p))),
     snd (run evs1 p) ++ snd (run evs2 (fst (run evs1 p)))).
Proof.
  revert p. induction evs1 as [|ev evs1 IH]; intros p.
  - simpl. by destruct (run evs2 p).
  - cbn [run app]. destruct (handle ev p) as [p1 o1]. rewrite IH.
    destruct (run evs1 p1) as [p2 o2]. simpl.
    destruct (run evs2 p2) as [p3 o3]. simpl. by rewrite app_assoc.
Qed.

Lemma failures_run k : ∀ p,
  let r := run (failures k) p in
  reconnectAttemptRef (fst r) = (reconnectAttemptRef p + k)%nat
  ∧ messageQueueRef (fst r) = messageQueueRef p
  ∧ snd r
    = concat
        (map (λ i, [SetTimeout
                      (1000 * 2 ^ N.of_nat
                                    (Nat.min (reconnectAttemptRef p + i) 4))%N;
                    NewSocket])
           (seq 0 k)).
Proof.
  induction k as [|k IH]; intros p.
  - simpl. split; [lia|done].
  - cbv zeta. rewrite failures_S, client_run_app.
    destruct (failure_step p) as (Ha & Hq & _ & Ho). cbv zeta in Ha, Hq, Ho.
    destruct (IH (fst (run [EvClose; EvReconnect] p))) as (Ha2 & Hq2 & Ho2).
    cbv zeta in Ha2, Hq2, Ho2. cbn [fst snd].
    rewrite Ha2, Hq2, Ho2, Ha, Hq, Ho.
    split; [lia|]. split; [done|].
    cbn [seq map concat]. rewrite <- seq_shift, map_map.
    rewrite Nat.add_0_r. cbn [app]. f_equal. f_equal. f_equal.
    apply map_ext. intros i.
    by replace (S (reconnectAttemptRef p) + i)%nat
      with (reconnectAttemptRef p + S i)%nat by lia.
Qed.

(** X8. Reconnection backs off and starts over. When the connection
    fails [k] times in a row (the socket closes, the timer comes due and a
    new socket is made), the [i]-th timer is set for 1000 ms doubled
    [i] times and held at 16000 ms from the fifth on, counting from the
    last time a socket opened; the messages waiting are kept; and when a
    socket opens at last, the count starts over, so the next closing
    sets 1000 ms again, and what was waiting is sent. *)
Theorem reconnect_backs_off k p :
  let r := run (failures k) (fst (onopen p)) in
  timers (snd r)
  = map (λ i, (1000 * 2 ^ N.of_nat (Nat.min i 4))%N) (seq 0 k)
  ∧ sockets (snd r) = k
  ∧ messageQueueRef (fst r) = []
  ∧ sent (snd (onopen p)) = messageQueueRef p
  ∧ reconnectAttemptRef (fst (onopen (fst r))) = 0%nat
  ∧ timers (snd (onclose (fst (onopen (fst r))))) = [1000%N].
Proof.
  cbv zeta.
  destruct (failures_run k (fst (onopen p))) as (_ & Hq & Ho).
  cbv zeta in Hq, Ho. rewrite Hq, Ho.
  assert (H0 : reconnectAttemptRef (fst (onopen p)) = 0%nat) by done.
  rewrite H0. clear Ho Hq H0.
  split; [|split; [|split; [done|split; [|done]]]].
  - induction (seq 0 k) as [|i l IH]; [done|].
    cbn [map concat]. rewrite timers_app, IH. done.
  - unfold sockets.
    transitivity (length (seq 0 k)); [|apply length_seq].
    induction (seq 0 k) as [|i l IH]; [done|].
    cbn [map concat]. by rewrite omap_app, length_app, IH.
  - unfold onopen, flushMessageQueue. simpl. apply sent_map.
Qed.

End ClientFacts.

(** ** The layout of the IV *)

Section IVFacts.
Context `{WebCrypto}.
Import Bytes Encryption EncryptionSpec.
Local Open Scope N_scope.

#[local] Arguments N.mul : simpl never.
#[local] Arguments N.add : simpl never.
#[local] Arguments N.pow : simpl never.
#[local] Arguments N.div : simpl never.
#[local] Arguments N.modulo : simpl never.

Lemma byte_of_N_add_256 x y : byte_of_N (x * 256 + y) = byte_of_N y.
Proof.
  unfold byte_of_N. f_equal. f_equal.
  rewrite N.add_comm. apply N.Div0.mod_add.
Qed.

(** What [setUint32] and [setBigUint64] write depends on the value
    modulo the width only. *)
Lemma be_bytes_add_high len : ∀ x y,
  be_bytes len (x * 256 ^ N.of_nat len + y) = be_bytes len y.
Proof.
  induction len as [|k IH]; intros x y; [done|].
  cbn [be_bytes].
  replace (N.of_nat (S k)) with (N.succ (N.of_nat k)) by lia.
  rewrite N.pow_succ_r'.
  set (p := 256 ^ N.of_nat k).
  assert (Hp : p ≠ 0) by (subst p; apply N.pow_nonzero; lia).
  f_equal.
  - replace (x * (256 * p) + y) with (y + (x * 256) * p) by lia.
    rewrite N.div_add by done.
    rewrite N.add_comm. apply byte_of_N_add_256.
  - replace (x * (256 * p) + y) with ((x * 256) * p + y) by lia.
    apply IH.
Qed.

Lemma be_bytes_mod len v :
  be_bytes len (v mod 256 ^ N.of_nat len) = be_bytes len v.
Proof.
  set (p := 256 ^ N.of_nat len).
  assert (Hp : p ≠ 0) by (subst p; apply N.pow_nonzero; lia).
  rewrite (N.div_mod v p Hp) at 2.
  rewrite (N.mul_comm p). subst p. by rewrite be_bytes_add_high.
Qed.

Lemma be_bytes_eq_iff len v w :
  be_bytes len v = be_bytes len w
  ↔ v mod 256 ^ N.of_nat len = w mod 256 ^ N.of_nat len.
Proof.
  split.
  - intros Heq. apply (f_equal be_value) in Heq.
    by rewrite !be_value_be_bytes in Heq.
  - intros Heq. by rewrite <- (be_bytes_mod len v), Heq, be_bytes_mod.
Qed.

(** X9. The IV [generateIV] makes is twelve bytes: the four bytes of the
    session prefix, then the counter modulo [2^64] as eight bytes, most
    significant first; the counter goes up by one. So two managers make
    the same IV exactly when they have the same session prefix and their
    counters agree modulo [2^64]. *)
Theorem generateIV_layout em1 em2 :
  length (sessionId em1) = 4%nat →
  length (sessionId em2) = 4%nat →
  let iv := fst (generateIV em1) in
  length iv = 12%nat
  ∧ take 4 iv = sessionId em1
  ∧ be_value (drop 4 iv) = counter em1 mod 2 ^ 64
  ∧ counter (snd (generateIV em1)) = counter em1 + 1
  ∧ (iv = fst (generateIV em2)
     ↔ sessionId em1 = sessionId em2
       ∧ counter em1 mod 2 ^ 64 = counter em2 mod 2 ^ 64).
Proof.
  intros H1 H2 iv. subst iv.
  rewrite (generateIV_iv em1 H1), (generateIV_iv em2 H2).
  unfold expected_iv.
  split; [rewrite length_app, H1, be_bytes_length; reflexivity|].
  split; [by rewrite take_app_length'|].
  split; [by rewrite drop_app_length', be_value_be_bytes|].
  split; [done|]. split.
  - intros Heq. apply app_inj_1 in Heq as [Hs Hb]; [|congruence].
    split; [done|]. by apply (be_bytes_eq_iff 8) in Hb.
  - intros [-> Hc]. f_equal. by apply (be_bytes_eq_iff 8).
Qed.

(** X10. Two peers hold the same key, and each numbers its own
    encryptions from 0 under its own session prefix: when the prefixes
    differ no IV of one is an IV of the other, and when they are equal
    the [i]-th IV of one is the [i]-th IV of the other. *)
Theorem peers_share_ivs_iff_prefix a0 a1 a2 a3 b0 b1 b2 b3
    csa csb ema emb usesa usesb :
  key_held csa → key_held csb →
  calls csa (new a0 a1 a2 a3) = (ema, usesa) →
  calls csb (new b0 b1 b2 b3) = (emb, usesb) →
  N.of_nat (length usesa) <= 2 ^ 64 →
  N.of_nat (length usesb) <= 2 ^ 64 →
  ([a0; a1; a2; a3] ≠ [b0; b1; b2; b3] →
   ∀ u v, u ∈ usesa → v ∈ usesb → use_iv u ≠ use_iv v)
  ∧ ([a0; a1; a2; a3] = [b0; b1; b2; b3] →
     ∀ i j u v, usesa !! i = Some u → usesb !! j = Some v →
       (use_iv u = use_iv v ↔ i = j)).
Proof.
  intros Ha Hb Hca Hcb Hla Hlb.
  destruct (calls_ivs csa (new a0 a1 a2 a3) ema usesa eq_refl Ha Hca)
    as (_ & _ & Hia).
  destruct (calls_ivs csb (new b0 b1 b2 b3) emb usesb eq_refl Hb Hcb)
    as (_ & _ & Hib).
  simpl in Hia, Hib. split.
  - intros Hne u v Hu Hv Heq.
    apply list_elem_of_lookup in Hu as [i Hu].
    apply list_elem_of_lookup in Hv as [j Hv].
    rewrite (Hia i u Hu), (Hib j v Hv) in Heq. unfold expected_iv in Heq.
    apply app_inj_1 in Heq as [Hs _]; done.
  - intros Heq i j u v Hu Hv.
    pose proof (lookup_lt_Some _ _ _ Hu). pose proof (lookup_lt_Some _ _ _ Hv).
    rewrite (Hia i u Hu), (Hib j v Hv), Heq. split.
    + intros Hiv. apply expected_iv_inj in Hiv; lia.
    + by intros ->.
Qed.

End IVFacts.

(** ** The manager over whole runs *)

(** The two outcomes of the [sendMessage] in the goal: the channel is
    not open and nothing happens, or the frame is handed to it. *)
Ltac sent :=
  match goal with
  | |- context [Transfer.sendMessage ?t ?p ?m] =>
      let ch := fresh "ch" in
      destruct (sendMessage_cases t p m) as [->|[ch ->]]
  end.

Section KeyFacts.
Context `{WebCrypto} `{JsonText} `{FileTransferCallbacks}.
Import Transfer TransferSpec TransferRuns.
Local Open Scope N_scope.

#[local] Arguments N.to_nat : simpl never.
#[local] Arguments N.of_nat : simpl never.
#[local] Arguments Bytes.byte_of_N : simpl never.
#[local] Arguments Bytes.slice : simpl never.
#[local] Arguments encodeEncryptedChunk : simpl never.
#[local] Arguments decodeEncryptedChunk : simpl never.
#[local] Arguments N.mul : simpl never.
#[local] Arguments N.add : simpl never.
#[local] Arguments N.leb : simpl never.
#[local] Arguments N.ltb : simpl never.
#[local] Arguments N.min : simpl never.

Lemma setDataChannel_frames channel k (m : FileTransferManager) :
  frames (snd (setDataChannel channel true k m))
  = if is_open channel then [frame ENCRYPTION_KEY (exportKey k)] else [].
Proof.
  unfold setDataChannel, initializeEncryption, andThen, modify. simpl.
  unfold sendMessage. simpl.
  assert (Ho : is_open (mkChannel (readyState channel)
                          (bufferedAmount channel) BUFFER_LOW_THRESHOLD)
               = is_open channel) by done.
  rewrite Ho. by destruct (is_open channel).
Qed.

(** X11. The key exchange. The initiator's [setDataChannel] generates the
    key, marks encryption ready and, on an open channel, sends one
    [ENCRYPTION_KEY] frame with the exported key. The other side's
    [setDataChannel] sends nothing and generates nothing. When the other
    side, not yet ready, handles what the initiator sent, it holds the
    key imported from the exported bytes and is ready, with its session
    prefix and counter as before; when the import fails it reports
    "Failed to initialize encryption" and stays not ready. When the
    initiator's channel is not open at that moment, the initiator is
    ready all the same but nothing is sent, and the other side never gets
    a key. A side that is ready already keeps the key it has. *)
Theorem key_exchange (m r : FileTransferManager) channel channel' k k0 :
  let started := setDataChannel channel true k m in
  let joined := setDataChannel channel' false k0 r in
  let keyed := run (map EvMessage (frames (snd started))) (fst joined) in
  Encryption.key (encryption (fst started)) = Some k
  ∧ isEncryptionReady (fst started) = true
  ∧ snd joined = []
  ∧ encryption (fst joined) = encryption r
  ∧ isEncryptionReady (fst joined) = isEncryptionReady r
  ∧ (is_open channel = true → isEncryptionReady r = false →
     match importRawKey (exportKey k) with
     | Some k' =>
         snd keyed = []
         ∧ isEncryptionReady (fst keyed) = true
         ∧ encryption (fst keyed)
           = Encryption.mk (Some k') (Encryption.sessionId (encryption r))
               (Encryption.counter (encryption r))
     | None =>
         keyed = (fst joined, [OnError "Failed to initialize encryption"])
     end)
  ∧ (is_open channel = false →
     frames (snd started) = [] ∧ keyed = (fst joined, []))
  ∧ (isEncryptionReady r = true → keyed = (fst joined, [])).
Proof.
  intros started joined keyed'. subst started joined keyed'.
  rewrite setDataChannel_frames.
  split; [|split; [|split; [|split; [|split; [|split; [|split]]]]]].
  - unfold setDataChannel, initializeEncryption, andThen, modify. simpl.
    by sent.
  - unfold setDataChannel, initializeEncryption, andThen, modify. simpl.
    by sent.
  - done.
  - done.
  - done.
  - intros -> Hr. cbn [map]. rewrite run_cons. cbn [run skip fst snd].
    rewrite handle_frame, app_nil_r.
    unfold handleEncryptionKey, Encryption.importKey.
    change (isEncryptionReady (fst (setDataChannel channel' false k0 r)))
      with (isEncryptionReady r).
    change (encryption (fst (setDataChannel channel' false k0 r)))
      with (encryption r).
    rewrite Hr. by destruct (importRawKey (exportKey k)).
  - by intros ->.
  - intros Hr. destruct (is_open channel); [|done].
    cbn [map]. rewrite run_cons. cbn [run skip fst snd].
    rewrite handle_frame, app_nil_r. unfold handleEncryptionKey.
    change (isEncryptionReady (fst (setDataChannel channel' false k0 r)))
      with (isEncryptionReady r).
    by rewrite Hr.
Qed.


Ltac effects_ok :=
  repeat (apply Forall_cons; split; [discriminate|]); by apply Forall_nil.

Lemma keyed_channel (m : FileTransferManager) ch :
  keyed m → keyed (set_sendChannel ch m).
Proof. done. Qed.

Lemma keyed_idle (m : FileTransferManager) :
  keyed m → keyed (set_currentSendFile None m).
Proof.
  intros [Hk Hq]. split; [done|]. simpl. intros [[? [=]]|?]. auto.
Qed.

Lemma sendNextChunk_keyed (m : FileTransferManager) :
  keyed m →
  keyed (fst (sendNextChunk m))
  ∧ Forall no_chunk_error (snd (sendNextChunk m)).
Proof.
  intros Hm. unfold sendNextChunk.
  destruct (currentSendFile m) as [cur|] eqn:Hcur;
    [|split; [done|by apply Forall_nil]].
  destruct (sendChannel m) as [ch|] eqn:Hch;
    [|split; [done|by apply Forall_nil]].
  destruct (isPaused m); [split; [done|by apply Forall_nil]|].
  destruct (totalChunks m <=? currentChunkIndex m).
  { unfold andThen, modify, notifyProgress, emit.
    sent; simpl; (split; [by apply keyed_idle|effects_ok]). }
  destruct (BUFFER_FULL_THRESHOLD <? bufferedAmount ch).
  { split; [done|by apply Forall_nil]. }
  destruct Hm as [Hk Hq].
  destruct (Hk (Hq (or_introl (ex_intro _ cur Hcur)))) as [k Hkey].
  unfold Encryption.encryptChunk. rewrite Hkey.
  destruct (Encryption.generateIV (encryption m)) as [iv0 em] eqn:Hgen.
  unfold Encryption.generateIV in Hgen. injection Hgen as _ <-.
  unfold andThen, modify, notifyProgress, emit.
  sent; simpl; (split; [|effects_ok]); split; simpl; eauto.
Qed.

Lemma processNextFile_keyed (m : FileTransferManager) :
  keyed m →
  keyed (fst (processNextFile m))
  ∧ Forall no_chunk_error (snd (processNextFile m)).
Proof.
  intros Hm. pose proof Hm as [Hk Hq]. unfold processNextFile.
  destruct (sendQueue m) as [|qf rest] eqn:Hqueue.
  { split; [done|effects_ok]. }
  assert (Hr : isEncryptionReady m = true).
  { apply Hq. by right. }
  unfold andThen, modify.
  sent; simpl; (split; [|effects_ok]); split; simpl; auto.
Qed.

Lemma handle_keyed (m : FileTransferManager) ev :
  keyed m →
  keyed (fst (handle ev m)) ∧ Forall no_chunk_error (snd (handle ev m)).
Proof.
  intros Hm.
  destruct ev as [channel isInit k|files|r0 r1 r2 r3|data| |[|]|st n];
    cbn [handle].
  - unfold setDataChannel, andThen, modify. simpl.
    destruct isInit; [|split; [done|by apply Forall_nil]].
    unfold initializeEncryption, andThen, modify. simpl.
    destruct Hm as [Hk Hq].
    sent; simpl; (split; [|effects_ok]); split; simpl; eauto.
  - unfold sendFiles.
    destruct (negb _); [split; [done|effects_ok]|].
    destruct (isEncryptionReady m) eqn:Hr; [|split; [done|effects_ok]].
    cbn [negb]. unfold andThen, modify.
    assert (Hm1 : ∀ ch q, keyed (set_sendChannel ch (set_sendQueue q m))).
    { intros ch q. destruct Hm as [Hk Hq]. split; simpl; auto. }
    assert (Hm0 : ∀ q, keyed (set_sendQueue q m)).
    { intros q. destruct Hm as [Hk Hq]. split; simpl; auto. }
    sent; simpl.
    + destruct (currentSendFile m) eqn:Hcur; simpl.
      * split; [by apply Hm0|by apply Forall_nil].
      * match goal with
        | |- context [processNextFile ?m1] =>
            destruct (processNextFile_keyed m1 (Hm0 _)) as [Hk1 He1];
            destruct (processNextFile m1) as [m2 e2]
        end. done.
    + destruct (currentSendFile m) eqn:Hcur; simpl.
      * split; [by apply Hm1|effects_ok].
      * match goal with
        | |- context [processNextFile ?m1] =>
            destruct (processNextFile_keyed m1 (Hm1 _ _)) as [Hk1 He1];
            destruct (processNextFile m1) as [m2 e2]
        end. simpl in *. split; [done|].
        apply Forall_cons. split; [discriminate|done].
  - split; [|by apply Forall_nil]. split; simpl; [done|].
    intros [[? [=]]|?]; done.
  - destruct data as [|tag payload]; [split; [done|by apply Forall_nil]|].
    cbn [handleMessage].
    destruct (MessageType_of_value (Byte.to_N tag)) as [[]|];
      try (split; [done|by apply Forall_nil]).
    + unfold handleFileInfo. destruct (decodeFileInfo payload);
        [|split; [done|by apply Forall_nil]].
      destruct (onFileOffer _ _).
      * destruct (4294967296 <=? _); [split; [done|by apply Forall_nil]|].
        unfold andThen, modify. sent; simpl; (split; [done|effects_ok]).
      * sent; simpl; (split; [done|effects_ok]).
    + unfold handleFileChunk.
      destruct (decodeEncryptedChunk payload);
        [|split; [done|by apply Forall_nil]].
      destruct (receivingFiles m !! _); [|split; [done|by apply Forall_nil]].
      destruct (Encryption.decryptChunk _ _ _); simpl;
        (split; [done|effects_ok]).
    + unfold handleFileComplete.
      destruct (truthy _); [|split; [done|by apply Forall_nil]].
      destruct (receivingFiles m !! _); simpl; (split; [done|effects_ok]).
    + by apply sendNextChunk_keyed.
    + unfold handleFileReject, andThen, modify, emit. simpl.
      split; [|effects_ok]. destruct Hm as [Hk Hq]. split; simpl; [done|].
      intros [[? [=]]|?]; done.
    + unfold handleEncryptionKey.
      destruct (isEncryptionReady m) eqn:Hr; [split; [done|by apply Forall_nil]|].
      unfold Encryption.importKey.
      destruct (importRawKey payload); simpl; [|split; [done|effects_ok]].
      split; [|by apply Forall_nil]. split; simpl; eauto.
  - unfold onBufferedAmountLow.
    destruct (isPaused m); [|split; [done|by apply Forall_nil]].
    destruct (currentSendFile m) eqn:Hcur; [|split; [done|by apply Forall_nil]].
    unfold andThen, modify.
    assert (Hm1 : keyed (set_isPaused false m)) by done.
    destruct (sendNextChunk_keyed _ Hm1) as [Hk1 He1].
    destruct (sendNextChunk (set_isPaused false m)) as [m2 e2]. done.
  - by apply sendNextChunk_keyed.
  - by apply processNextFile_keyed.
  - split; [|by apply Forall_nil]. done.
Qed.


Lemma history_keyed evs : ∀ (m : FileTransferManager) pre ev es,
  keyed m → (pre, ev, es) ∈ history evs m →
  keyed pre ∧ Forall no_chunk_error es.
Proof.
  induction evs as [|ev0 evs IH]; intros m pre ev es Hm Hin.
  - by apply elem_of_nil in Hin.
  - cbn [history] in Hin. apply elem_of_cons in Hin as [[= -> -> ->]|Hin].
    + split; [done|]. by apply handle_keyed.
    + eapply IH; [|exact Hin]. by apply handle_keyed.
Qed.

Lemma run_keyed evs : ∀ (m : FileTransferManager),
  keyed m → keyed (fst (run evs m)).
Proof.
  induction evs as [|ev evs IH]; intros m Hm; [done|].
  rewrite run_cons. cbn [fst]. apply IH. by apply handle_keyed.
Qed.

(** X12. Nothing is in flight or queued without a key. From its
    construction and through any events (channels set, files submitted,
    frames from the peer, timers, low-water events, the transport,
    resets), before each event and after the last: whenever a file is in
    flight or queued the manager says that encryption is ready ([reset]
    clears the file in flight and the queue when it clears the flag, and
    [sendFiles] queues nothing unless the flag is set). And in a run
    without a reset, whenever the manager says that encryption is ready
    it holds a key, so a file in flight or queued has a key to be
    encrypted with. The second part is stated for runs without a reset
    because a reset that lands between the awaits of
    [initializeEncryption] clears the key and leaves the flag to be set
    afterwards; here [initializeEncryption] is one step. *)
Theorem key_held_while_sending r0 r1 r2 r3 evs :
  let m0 := new r0 r1 r2 r3 in
  let busy m := is_Some (currentSendFile m) ∨ sendQueue m ≠ [] in
  let has_key m := is_Some (Encryption.key (encryption m)) in
  ((∀ pre ev es,
      (pre, ev, es) ∈ history evs m0 → busy pre → isEncryptionReady pre = true)
   ∧ (busy (fst (run evs m0)) → isEncryptionReady (fst (run evs m0)) = true))
  ∧ ((∀ a b c d, EvReset a b c d ∉ evs) →
     (∀ pre ev es,
        (pre, ev, es) ∈ history evs m0 →
        (isEncryptionReady pre = true → has_key pre)
        ∧ (busy pre → has_key pre))
     ∧ (isEncryptionReady (fst (run evs m0)) = true →
        has_key (fst (run evs m0)))
     ∧ (busy (fst (run evs m0)) → has_key (fst (run evs m0)))).
Proof.
  intros m0 busy has_key.
  assert (Hm0 : keyed m0).
  { split; simpl; [done|]. intros [[? [=]]|?]; done. }
  pose proof (run_keyed evs m0 Hm0) as [Hk Hq].
  split; [split|].
  - intros pre ev es Hin.
    by destruct (history_keyed evs m0 pre ev es Hm0 Hin) as [[_ ?] _].
  - done.
  - intros _. split; [|split].
    + intros pre ev es Hin.
      destruct (history_keyed evs m0 pre ev es Hm0 Hin) as [[Hk' Hq'] _].
      split; [done|]. intros Hb. by apply Hk', Hq'.
    + done.
    + intros Hb. by apply Hk, Hq.
Qed.

End KeyFacts.

Section RecordFacts.
Import Transfer TransferSpec.
Local Open Scope N_scope.

#[local] Arguments N.to_nat : simpl never.
#[local] Arguments N.of_nat : simpl never.

Lemma encode_length index encrypted iv fileId :
  length (encodeEncryptedChunk index encrypted iv fileId)
  = (6 + length (list_byte_of_string fileId) + length iv
     + length encrypted)%nat.
Proof.
  unfold encodeEncryptedChunk. rewrite !length_app, !be_bytes_length. lia.
Qed.

(** X13. The chunk record. [encodeEncryptedChunk] writes six bytes of
    header, the file id, the IV and the ciphertext; for a file id of
    ASCII characters (as the UUIDs drawn for the files are) and an IV, of
    fewer than 256 bytes each, [decodeEncryptedChunk] reads back the file
    id, the IV and the ciphertext as they were, and the chunk index
    modulo [2^32]. So two such records with indices below [2^32] are
    equal only when index, file id, IV and ciphertext all are. On an
    ASCII id [TextEncoder] and [TextDecoder] are the identity on bytes;
    other ids are not covered ([TextDecoder] drops a leading byte order
    mark and replaces malformed sequences). *)
Theorem chunk_record_round_trip index encrypted iv fileId :
  is_ascii_string fileId = true →
  (length (list_byte_of_string fileId) < 256)%nat →
  (length iv < 256)%nat →
  let record := encodeEncryptedChunk index encrypted iv fileId in
  length record
  = (6 + length (list_byte_of_string fileId) + length iv
     + length encrypted)%nat
  ∧ decodeEncryptedChunk record
    = Some (mkChunk fileId (index mod 2 ^ 32) encrypted iv)
  ∧ ∀ index' encrypted' iv' fileId',
      is_ascii_string fileId' = true →
      (length (list_byte_of_string fileId') < 256)%nat →
      (length iv' < 256)%nat →
      index < 2 ^ 32 → index' < 2 ^ 32 →
      encodeEncryptedChunk index' encrypted' iv' fileId' = record →
      index' = index ∧ encrypted' = encrypted ∧ iv' = iv ∧ fileId' = fileId.
Proof.
  intros _ Hid Hiv record. subst record.
  split; [apply encode_length|]. split; [by apply decode_encode|].
  intros index' encrypted' iv' fileId' _ Hid' Hiv' Hi Hi' Heq.
  apply (f_equal decodeEncryptedChunk) in Heq.
  rewrite !decode_encode in Heq by done.
  rewrite !N.mod_small in Heq by done.
  by injection Heq as -> -> -> ->.
Qed.


(** X14. How a file is cut. The chunk count is zero exactly for an empty
    file, and is the least number of 65536-byte chunks that cover the
    file. Chunk [i] holds the bytes from [i * 65536] up to the next
    multiple of 65536 or the end of the file: every chunk before the last
    is 65536 bytes long, the last holds between 1 and 65536 bytes, and
    there is nothing at or past the chunk count. *)
Theorem chunk_sizes file i :
  let size := File.size file in
  let n := chunk_count size in
  (n = 0 ↔ size = 0)
  ∧ size <= n * CHUNK_SIZE
  ∧ (0 < n → (n - 1) * CHUNK_SIZE < size)
  ∧ chunk_of file i
    = take (N.to_nat CHUNK_SIZE)
        (drop (N.to_nat (N.of_nat i * CHUNK_SIZE)) (File.bytes file))
  ∧ Bytes.byteLength (chunk_of file i)
    = N.min CHUNK_SIZE (size - N.of_nat i * CHUNK_SIZE)
  ∧ (N.of_nat i + 1 < n → Bytes.byteLength (chunk_of file i) = CHUNK_SIZE)
  ∧ (N.of_nat i < n → 0 < Bytes.byteLength (chunk_of file i))
  ∧ (n <= N.of_nat i → chunk_of file i = []).
Proof.
  intros size n. subst size n.
  unfold chunk_count, File.size, Bytes.byteLength.
  rewrite chunk_of_slice, length_take, length_drop.
  set (len := length (File.bytes file)).
  assert (Hc : CHUNK_SIZE = 65536) by reflexivity. rewrite !Hc.
  pose proof (N.div_mod (N.of_nat len + (65536 - 1)) 65536 ltac:(lia)) as Hdm.
  pose proof (N.mod_upper_bound (N.of_nat len + (65536 - 1)) 65536
                ltac:(lia)) as Hub.
  set (q := (N.of_nat len + (65536 - 1)) `div` 65536) in *.
  set (r := (N.of_nat len + (65536 - 1)) `mod` 65536) in *.
  clearbody q r.
  replace (i * N.to_nat 65536)%nat with (N.to_nat (N.of_nat i * 65536))
    by lia.
  split; [lia|]. split; [lia|]. split; [lia|]. split; [done|].
  split; [lia|]. split; [lia|]. split; [lia|].
  intros Hge. apply nil_length_inv. rewrite length_take, length_drop.
  fold len. lia.
Qed.

End RecordFacts.

Section SubmitFacts.
Context `{WebCrypto} `{JsonText} `{FileTransferCallbacks}.
Import Transfer TransferSpec.
Local Open Scope N_scope.

#[local] Arguments N.to_nat : simpl never.
#[local] Arguments N.of_nat : simpl never.
#[local] Arguments Bytes.byte_of_N : simpl never.

(** X16. What [sendFiles] does. Without an open channel it rejects with
    "DataChannel not ready", and on an open channel without a key it
    rejects with "Encryption not initialized"; either way nothing is
    queued and nothing is sent. Otherwise the files join the end of the
    queue in the order given and one [QUEUE_INFO] frame announces the
    length of the queue; when a file is in flight that is all, and the
    file in flight and its progress are untouched; when none is, the head
    of the queue is offered with [FILE_INFO] and put in flight at chunk 0;
    and an empty submission to an idle manager announces a queue of
    zero files and reports the transfer complete. *)
Theorem sendFiles_outcome (m : FileTransferManager) files :
  let queued := sendQueue m ++ map queue_file files in
  let announce :=
    frame QUEUE_INFO
      (encodeQueueInfo (QueueInfo.mk (N.of_nat (length queued)) 0)) in
  (from_option is_open false (sendChannel m) = false →
   sendFiles files m = (m, [Rejected "DataChannel not ready"]))
  ∧ (from_option is_open false (sendChannel m) = true →
     isEncryptionReady m = false →
     sendFiles files m = (m, [Rejected "Encryption not initialized"]))
  ∧ (from_option is_open false (sendChannel m) = true →
     isEncryptionReady m = true →
     let m' := fst (sendFiles files m) in
     let es := snd (sendFiles files m) in
     (is_Some (currentSendFile m) →
      es = [ChannelSend announce]
      ∧ sendQueue m' = queued
      ∧ currentSendFile m' = currentSendFile m
      ∧ currentChunkIndex m' = currentChunkIndex m
      ∧ totalChunks m' = totalChunks m
      ∧ isPaused m' = isPaused m)
     ∧ (∀ qf rest, currentSendFile m = None → queued = qf :: rest →
          es = [ChannelSend announce;
                ChannelSend
                  (frame FILE_INFO (encodeFileInfo (QueuedFile.info qf)))]
          ∧ sendQueue m' = rest
          ∧ currentSendFile m' = Some qf
          ∧ currentChunkIndex m' = 0
          ∧ totalChunks m' = FileInfo.totalChunks (QueuedFile.info qf)
          ∧ isPaused m' = false)
     ∧ (currentSendFile m = None → queued = [] →
        es = [ChannelSend announce; OnTransferComplete]
        ∧ sendQueue m' = [] ∧ currentSendFile m' = None)).
Proof.
  intros queued announce. subst announce.
  split; [|split].
  - intros Hclosed. unfold sendFiles. by rewrite Hclosed.
  - intros Hopen Hr. unfold sendFiles. by rewrite Hopen, Hr.
  - intros Hopen Hr m' es. subst m' es. unfold sendFiles.
    rewrite Hopen, Hr. cbn [negb]. unfold andThen, modify.
    match goal with
    | |- context [sendMessage QUEUE_INFO ?p ?m1] =>
        destruct (sendMessage_open QUEUE_INFO p m1) as (ch1 & Ho1 & ->)
    end; [done|].
    cbn [currentSendFile set_sendChannel set_sendQueue sendQueue].
    fold queued.
    split; [|split].
    + intros [cur Hcur]. rewrite Hcur. by simpl.
    + intros qf rest Hcur Hq. rewrite Hcur.
      unfold processNextFile.
      cbn [currentSendFile set_sendChannel set_sendQueue sendQueue].
      rewrite Hq. unfold andThen, modify.
      match goal with
      | |- context [sendMessage FILE_INFO ?p ?m1] =>
          destruct (sendMessage_open FILE_INFO p m1) as (ch2 & Ho2 & ->)
      end; [by simpl; rewrite Ho1|].
      by simpl.
    + intros Hcur Hq. rewrite Hcur. unfold processNextFile.
      cbn [currentSendFile set_sendChannel set_sendQueue sendQueue].
      rewrite Hq. by simpl.
Qed.

End SubmitFacts.

Section Directions.
Context `{WebCrypto} `{JsonText} `{FileTransferCallbacks}.
Import Transfer TransferSpec TransferRuns.
Local Open Scope N_scope.

#[local] Arguments N.to_nat : simpl never.
#[local] Arguments N.of_nat : simpl never.
#[local] Arguments Bytes.byte_of_N : simpl never.
#[local] Arguments Bytes.slice : simpl never.
#[local] Arguments encodeEncryptedChunk : simpl never.
#[local] Arguments decodeEncryptedChunk : simpl never.
#[local] Arguments N.mul : simpl never.
#[local] Arguments N.add : simpl never.
#[local] Arguments N.leb : simpl never.
#[local] Arguments N.ltb : simpl never.
#[local] Arguments N.min : simpl never.

Lemma received_app es1 es2 :
  received (es1 ++ es2) = received es1 ++ received es2.
Proof. apply omap_app. Qed.

Lemma sendMessage_alike type payload (m1 m2 : FileTransferManager) :
  receive_alike m1 m2 →
  receive_alike (fst (sendMessage type payload m1))
    (fst (sendMessage type payload m2))
  ∧ received (snd (sendMessage type payload m1)) = []
  ∧ received (snd (sendMessage type payload m2)) = [].
Proof.
  intros Ha.
  destruct (sendMessage_cases type payload m1) as [->|[ch1 ->]];
    destruct (sendMessage_cases type payload m2) as [->|[ch2 ->]]; done.
Qed.

(** An inbound frame does the same to two managers that receive
    alike. *)
Lemma inbound_alike ev (m1 m2 : FileTransferManager) :
  is_inbound ev = true → receive_alike m1 m2 →
  receive_alike (fst (handle ev m1)) (fst (handle ev m2))
  ∧ received (snd (handle ev m1)) = received (snd (handle ev m2)).
Proof.
  intros Hev Ha. destruct ev as [| | |data| | |]; try discriminate.
  destruct data as [|tag payload]; [discriminate|].
  cbn [is_inbound frame_type] in Hev. cbn [handle handleMessage].
  pose proof Ha as (Hf & Hc & Hk & Hr).
  destruct (MessageType_of_value (Byte.to_N tag)) as [[]|]; try discriminate.
  - unfold handleFileInfo. destruct (decodeFileInfo payload); [|done].
    destruct (onFileOffer _ _).
    + destruct (4294967296 <=? _); [done|].
      unfold andThen, modify. rewrite Hf.
      sent; sent; simpl; (split; [by repeat split|done]).
    + destruct (sendMessage_alike FILE_REJECT [] m1 m2 Ha) as (Ha' & -> & ->).
      done.
  - unfold handleFileChunk.
    destruct (decodeEncryptedChunk payload) as [c|]; [|done].
    rewrite Hf. destruct (receivingFiles m2 !! fileId c); [|done].
    unfold Encryption.decryptChunk. rewrite Hk.
    destruct (Encryption.key (encryption m2)) as [k|] eqn:Hk2; [|done].
    destruct (aes_gcm_decrypt k (iv c) (encrypted c)); [|done].
    unfold andThen, modify, notifyProgress, emit. simpl.
    rewrite Hf. split; [|done]. split; [done|]. split; [done|].
    simpl. split; congruence.
  - unfold handleFileComplete. rewrite Hc.
    destruct (truthy (currentReceiveFileId m2)); [|done].
    rewrite Hf. destruct (receivingFiles m2 !! _); [|done].
    unfold andThen, modify, emit. simpl. rewrite Hf.
    split; [|done]. split; [done|]. split; [done|]. done.
  - unfold handleEncryptionKey. rewrite Hr.
    destruct (isEncryptionReady m2); [done|].
    unfold Encryption.importKey.
    destruct (importRawKey payload); simpl; [|done].
    split; [|done]. by repeat split.
  - done.
Qed.

Lemma sendNextChunk_alike (m : FileTransferManager) :
  receive_alike (fst (sendNextChunk m)) m
  ∧ received (snd (sendNextChunk m)) = [].
Proof.
  unfold sendNextChunk.
  destruct (currentSendFile m) as [cur|]; [|done].
  destruct (sendChannel m) as [ch|]; [|done].
  destruct (isPaused m); [done|].
  destruct (totalChunks m <=? currentChunkIndex m).
  { unfold andThen, modify, notifyProgress, emit. by sent. }
  destruct (BUFFER_FULL_THRESHOLD <? bufferedAmount ch); [done|].
  unfold Encryption.encryptChunk.
  destruct (Encryption.key (encryption m)) as [k|] eqn:Hkey; [|done].
  destruct (Encryption.generateIV (encryption m)) as [iv0 em] eqn:Hgen.
  unfold Encryption.generateIV in Hgen. injection Hgen as _ <-.
  unfold andThen, modify, notifyProgress, emit.
  sent; simpl; (split; [|done]); by repeat split.
Qed.

Lemma processNextFile_alike (m : FileTransferManager) :
  receive_alike (fst (processNextFile m)) m
  ∧ received (snd (processNextFile m)) = [].
Proof.
  unfold processNextFile. destruct (sendQueue m); [done|].
  unfold andThen, modify. by sent.
Qed.

(** An event of the sending side leaves the receiving side as it was
    and gives the application no file. *)
Lemma outbound_alike ev (m : FileTransferManager) :
  is_outbound ev = true →
  receive_alike (fst (handle ev m)) m ∧ received (snd (handle ev m)) = [].
Proof.
  intros Hev.
  destruct ev as [|files| |data| |[|]|st n]; try discriminate; cbn [handle].
  - unfold sendFiles.
    destruct (negb _); [done|]. destruct (negb _); [done|].
    unfold andThen, modify.
    sent; simpl.
    + destruct (currentSendFile m); [done|].
      match goal with
      | |- context [processNextFile ?m1] =>
          destruct (processNextFile_alike m1) as [Ha Hr];
          destruct (processNextFile m1) as [m2 e2]
      end. simpl in *. done.
    + destruct (currentSendFile m); [done|].
      match goal with
      | |- context [processNextFile ?m1] =>
          destruct (processNextFile_alike m1) as [Ha Hr];
          destruct (processNextFile m1) as [m2 e2]
      end. simpl in *. done.
  - destruct data as [|tag payload]; [discriminate|].
    cbn [is_outbound frame_type] in Hev. cbn [handleMessage].
    destruct (MessageType_of_value (Byte.to_N tag)) as [[]|]; try discriminate.
    + apply sendNextChunk_alike.
    + done.
  - unfold onBufferedAmountLow.
    destruct (isPaused m); [|done]. destruct (currentSendFile m); [|done].
    unfold andThen, modify.
    destruct (sendNextChunk_alike (set_isPaused false m)) as [Ha Hr].
    destruct (sendNextChunk (set_isPaused false m)) as [m2 e2]. done.
  - apply sendNextChunk_alike.
  - apply processNextFile_alike.
  - done.
Qed.


Lemma receive_alike_trans (m1 m2 m3 : FileTransferManager) :
  receive_alike m1 m2 → receive_alike m2 m3 → receive_alike m1 m3.
Proof. intros (? & ? & ? & ?) (? & ? & ? & ?). repeat split; congruence. Qed.

Lemma run_alike evs : ∀ (m1 m2 : FileTransferManager),
  forallb (λ ev, is_inbound ev || is_outbound ev) evs = true →
  receive_alike m1 m2 →
  received (snd (run evs m1))
  = received (snd (run (List.filter is_inbound evs) m2))
  ∧ receive_alike (fst (run evs m1))
      (fst (run (List.filter is_inbound evs) m2)).
Proof.
  induction evs as [|ev evs IH]; intros m1 m2 Hevs Ha; [done|].
  cbn [forallb] in Hevs. apply andb_prop in Hevs as [Hev Hevs].
  cbn [List.filter]. rewrite run_cons. cbn [fst snd]. rewrite received_app.
  destruct (is_inbound ev) eqn:Hin.
  - rewrite run_cons. cbn [fst snd]. rewrite received_app.
    destruct (inbound_alike ev m1 m2 Hin Ha) as [Ha' ->].
    destruct (IH _ _ Hevs Ha') as [-> Ha'']. done.
  - simpl in Hev. destruct (outbound_alike ev m1 Hev) as [Ha' ->].
    apply IH; [done|]. by eapply receive_alike_trans.
Qed.

(** X17. Sending does not disturb receiving. Whatever the sending side
    of a manager does while the frames of the receiving side come in
    (files submitted, the peer's accepts and rejects, chunks sent by the
    timers, pauses and resumptions, the transport), the files given to
    the application, the reassembly table, the active receive and the
    key held are those of the inbound frames (the peer's key, queue
    announcements, offers, chunks, completions) handled alone, in their
    order. *)
Theorem sending_leaves_receiving_alone evs (m : FileTransferManager) :
  forallb (λ ev, is_inbound ev || is_outbound ev) evs = true →
  let both := run evs m in
  let alone := run (List.filter is_inbound evs) m in
  received (snd both) = received (snd alone)
  ∧ receivingFiles (fst both) = receivingFiles (fst alone)
  ∧ currentReceiveFileId (fst both) = currentReceiveFileId (fst alone)
  ∧ Encryption.key (encryption (fst both))
    = Encryption.key (encryption (fst alone))
  ∧ isEncryptionReady (fst both) = isEncryptionReady (fst alone).
Proof.
  intros Hevs both alone. subst both alone.
  destruct (run_alike evs m m Hevs) as (Hr & Hf & Hc & Hk & Hy); [done|].
  done.
Qed.

End Directions.

Section BatchFacts.
Context `{WebCrypto} `{JsonText} `{FileTransferCallbacks}.
Import Transfer TransferSpec TransferRuns.
Local Open Scope N_scope.

#[local] Arguments N.to_nat : simpl never.
#[local] Arguments N.of_nat : simpl never.
#[local] Arguments Bytes.byte_of_N : simpl never.
#[local] Arguments Bytes.slice : simpl never.
#[local] Arguments encodeEncryptedChunk : simpl never.
#[local] Arguments decodeEncryptedChunk : simpl never.
#[local] Arguments N.mul : simpl never.
#[local] Arguments N.add : simpl never.
#[local] Arguments N.leb : simpl never.
#[local] Arguments N.ltb : simpl never.
#[local] Arguments N.min : simpl never.


Lemma kept_refl (m : FileTransferManager) : kept m m.
Proof. by repeat split. Qed.

Lemma kept_trans (m1 m2 m3 : FileTransferManager) :
  kept m1 m2 → kept m2 m3 → kept m1 m3.
Proof.
  intros (? & ? & ? & ?) (? & ? & ? & ?). repeat split; try congruence. auto.
Qed.

Lemma sendMessage_kept type payload (m : FileTransferManager) :
  kept m (fst (sendMessage type payload m)).
Proof.
  unfold sendMessage. destruct (sendChannel m) as [ch|] eqn:Hch;
    [|apply kept_refl].
  destruct (is_open ch) eqn:Ho; [|apply kept_refl].
  repeat split. simpl. intros _. unfold is_open in *. simpl.
  by destruct (readyState ch).
Qed.

Lemma sendNextChunk_kept (m : FileTransferManager) :
  kept m (fst (sendNextChunk m)).
Proof.
  unfold sendNextChunk.
  destruct (currentSendFile m) as [cur|]; [|apply kept_refl].
  destruct (sendChannel m) as [ch|] eqn:Hch; [|apply kept_refl].
  destruct (isPaused m); [apply kept_refl|].
  destruct (totalChunks m <=? currentChunkIndex m).
  { unfold andThen, modify, notifyProgress, emit.
    pose proof (sendMessage_kept FILE_COMPLETE [] m) as Hk.
    destruct (sendMessage FILE_COMPLETE [] m) as [m1 e1]. by simpl in *. }
  destruct (BUFFER_FULL_THRESHOLD <? bufferedAmount ch); [by repeat split|].
  unfold Encryption.encryptChunk.
  destruct (Encryption.key (encryption m)) as [k|] eqn:Hkey;
    [|by repeat split].
  destruct (Encryption.generateIV (encryption m)) as [iv0 em] eqn:Hgen.
  unfold Encryption.generateIV in Hgen. injection Hgen as _ <-.
  unfold andThen, modify, notifyProgress, emit.
  match goal with
  | |- context [sendMessage ?t ?p ?m1] =>
      pose proof (sendMessage_kept t p m1) as Hk;
      destruct (sendMessage t p m1) as [m2 e2]
  end.
  simpl in *. destruct Hk as (? & ? & ? & Ho). by repeat split.
Qed.

Lemma handle_kept (m : FileTransferManager) ev :
  is_streaming ev = true → kept m (fst (handle ev m)).
Proof.
  intros Hev.
  destruct ev as [| | |[|tag payload]| |[|]|st n]; simpl in Hev;
    try discriminate.
  - apply N.eqb_eq in Hev. cbn [handle handleMessage]. rewrite Hev. simpl.
    apply sendNextChunk_kept.
  - cbn [handle]. unfold onBufferedAmountLow.
    destruct (isPaused m); [|apply kept_refl].
    destruct (currentSendFile m); [|apply kept_refl].
    unfold andThen, modify.
    pose proof (sendNextChunk_kept (set_isPaused false m)) as Hk.
    destruct (sendNextChunk (set_isPaused false m)) as [m1 e1]. done.
  - apply sendNextChunk_kept.
  - destruct st; try discriminate. repeat split. simpl.
    by destruct (sendChannel m).
Qed.

Lemma run_kept evs : ∀ (m : FileTransferManager),
  forallb is_streaming evs = true → kept m (fst (run evs m)).
Proof.
  induction evs as [|ev evs IH]; intros m Hevs; [apply kept_refl|].
  cbn [forallb] in Hevs. apply andb_prop in Hevs as [Hev Hevs].
  rewrite run_cons. cbn [fst].
  eapply kept_trans; [by apply handle_kept|by apply IH].
Qed.


(** Under the drained schedule a file in flight at chunk 0 is streamed
    whole and is then no longer in flight; the queue, the key, the
    session prefix and the open channel are as before. *)
Lemma file_streams k sid c0 qf (m : FileTransferManager) :
  length sid = 4%nat →
  sending k sid c0 qf 0 m →
  isPaused m = false →
  let n := N.to_nat (FileInfo.totalChunks (QueuedFile.info qf)) in
  let out := run (drained_schedule n) m in
  frames (snd out)
  = map (chunk_frame k sid c0 qf) (seq 0 n) ++ [frame FILE_COMPLETE []]
  ∧ currentSendFile (fst out) = None
  ∧ kept m (fst out).
Proof.
  intros Hsid Hs Hp n out. subst out.
  destruct (drained_schedule_completes k sid c0 qf m Hsid Hs Hp)
    as [Hfr Hstr].
  fold n in Hfr, Hstr. split; [done|]. split; [|by apply run_kept].
  destruct (run_sending k sid c0 qf (drained_schedule n) 0 m Hsid
              ltac:(lia) Hs Hstr) as (j & _ & _ & [(Hfr' & _)|(_ & _ & Hidle)]);
    [|done].
  exfalso. rewrite Hfr in Hfr'.
  assert (Hin : frame FILE_COMPLETE [] ∈ map (chunk_frame k sid c0 qf)
                                          (seq 0 (j - 0))).
  { rewrite <- Hfr'. apply elem_of_app. right. apply list_elem_of_here. }
  apply list_elem_of_In, in_map_iff in Hin as (i & Hd & _).
  apply (f_equal frame_type) in Hd.
  rewrite frame_type_frame, frame_type_chunk in Hd. discriminate.
Qed.

(** The sender alone, through a batch: it ends idle, and the last thing
    it does is report the transfer complete. *)
Lemma batch_sender ks sid : ∀ qs qf (m : FileTransferManager) c0,
  length sid = 4%nat →
  sending ks sid c0 qf 0 m →
  isPaused m = false →
  sendQueue m = qs →
  let sender := run (batch_schedule (qf :: qs)) m in
  last (snd sender) = Some OnTransferComplete
  ∧ currentSendFile (fst sender) = None
  ∧ sendQueue (fst sender) = [].
Proof.
  induction qs as [|qf' qs IH]; intros qf m c0 Hsid Hs Hp Hq sender;
    subst sender.
  - unfold batch_schedule. cbn [map concat]. rewrite app_nil_r, run_app.
    cbn [fst snd].
    destruct (file_streams ks sid c0 qf m Hsid Hs Hp) as (_ & Hidle & Hkq & _).
    set (m1 := fst (run (drained_schedule _) m)) in *.
    assert (Hpnf : run [EvTimer TimerProcessNextFile] m1
                   = (m1, [OnTransferComplete])).
    { cbn [run handle]. unfold andThen, processNextFile.
      rewrite Hkq, Hq. by simpl. }
    rewrite Hpnf. cbn [fst snd].
    split; [apply last_snoc|]. split; [done|]. by rewrite Hkq.
  - unfold batch_schedule. cbn [map concat].
    fold (batch_schedule (qf' :: qs)).
    rewrite <- app_assoc, run_app. cbn [fst snd].
    destruct (file_streams ks sid c0 qf m Hsid Hs Hp)
      as (_ & Hidle & Hkq & Hkk & Hks & Hko).
    set (m1 := fst (run (drained_schedule _) m)) in *.
    cbn [app]. rewrite run_cons. cbn [fst snd handle].
    destruct Hs as (_ & _ & _ & Hkey & Hsess & _ & Hopen).
    destruct (processNextFile_starts m1 qf' qs ks)
      as (_ & Hq2 & Hp2 & Hs2).
    { by rewrite Hkq, Hq. }
    { by apply Hko. }
    { by rewrite Hkk. }
    rewrite Hks, Hsess in Hs2.
    set (m2 := fst (processNextFile m1)) in *.
    destruct (IH qf' m2 _ Hsid Hs2 Hp2 Hq2) as (Hlast & Hcur & Hqueue).
    split; [|done].
    rewrite app_assoc.
    destruct (snd (run _ m2)) as [|x l] eqn:Hl; [done|].
    by rewrite last_app, Hlast.
Qed.

(** What [sendFiles] does to an idle sender with an open channel and a
    key: the queue announcement, then [processNextFile] on the files
    queued. *)
Lemma sendFiles_idle (m0 : FileTransferManager) files :
  from_option is_open false (sendChannel m0) = true →
  isEncryptionReady m0 = true →
  currentSendFile m0 = None →
  sendQueue m0 = [] →
  ∃ ch1, is_open ch1 = true
    ∧ let m' := set_sendChannel (Some ch1)
                  (set_sendQueue (map queue_file files) m0) in
      sendFiles files m0
      = (fst (processNextFile m'),
         ChannelSend
           (frame QUEUE_INFO
              (encodeQueueInfo
                 (QueueInfo.mk (N.of_nat (length (map queue_file files))) 0)))
         :: snd (processNextFile m')).
Proof.
  intros Hopen Hready Hcur Hq.
  unfold sendFiles. rewrite Hopen, Hready. cbn [negb].
  unfold andThen, modify.
  match goal with
  | |- context [sendMessage QUEUE_INFO ?p ?m1] =>
      destruct (sendMessage_open QUEUE_INFO p m1) as (ch1 & Ho1 & ->)
  end; [done|].
  cbn [currentSendFile set_sendChannel set_sendQueue sendQueue].
  rewrite Hcur, Hq. cbn [app]. exists ch1. split; [done|]. cbv zeta.
  by destruct (processNextFile _).
Qed.

(** The sender alone, from the submission of a batch to its end. *)
Lemma batch_completes ks (m0 : FileTransferManager) files :
  from_option is_open false (sendChannel m0) = true →
  isEncryptionReady m0 = true →
  Encryption.key (encryption m0) = Some ks →
  length (Encryption.sessionId (encryption m0)) = 4%nat →
  currentSendFile m0 = None →
  sendQueue m0 = [] →
  let sender :=
    run (EvSendFiles files :: batch_schedule (map queue_file files)) m0 in
  last (snd sender) = Some OnTransferComplete
  ∧ currentSendFile (fst sender) = None
  ∧ sendQueue (fst sender) = []
  ∧ Forall (λ e, ∀ message, e ≠ Rejected message) (snd (sendFiles files m0)).
Proof.
  intros Hopen Hready Hkey Hsid Hcur Hq sender. subst sender.
  destruct (sendFiles_idle m0 files Hopen Hready Hcur Hq) as (ch1 & Ho1 & Hsf).
  cbv zeta in Hsf.
  set (m' := set_sendChannel (Some ch1) (set_sendQueue _ m0)) in Hsf.
  rewrite run_cons. cbn [fst snd handle]. rewrite Hsf. cbn [fst snd].
  destruct files as [|f fs].
  - cbn [map batch_schedule concat run]. unfold processNextFile, skip.
    cbn [sendQueue m' set_sendChannel set_sendQueue map].
    unfold emit. cbn [fst snd app]. split; [done|]. split; [done|].
    split; [done|]. by repeat (apply Forall_cons; split; [done|]).
  - destruct (processNextFile_starts m' (queue_file f) (map queue_file fs) ks)
      as (Hinfo & Hq2 & Hp2 & Hs2); [done|by simpl; rewrite Ho1|done|].
    change (Encryption.sessionId (encryption m'))
      with (Encryption.sessionId (encryption m0)) in Hs2.
    assert (Hnothrow : Forall (λ e, ∀ message, e ≠ Rejected message)
                         (snd (processNextFile m'))).
    { unfold processNextFile. cbn [sendQueue m' set_sendChannel set_sendQueue map].
      unfold andThen, modify. sent; simpl;
        by repeat (apply Forall_cons; split; [done|]). }
    destruct (processNextFile m') as [m1 e1] eqn:Hpnf. cbn [fst snd] in *.
    destruct (batch_sender ks _ (map queue_file fs) (queue_file f) m1 _
                Hsid Hs2 Hp2 Hq2) as (Hlast & Hidle & Hqueue).
    change (map queue_file (f :: fs))
      with (queue_file f :: map queue_file fs).
    split; [|split; [done|split; [done|]]].
    + destruct (snd (run _ m1)) as [|x l] eqn:Hl; [done|].
      change (ChannelSend ?a :: e1 ++ x :: l)
        with ((ChannelSend a :: e1) ++ x :: l).
      by rewrite last_app, Hlast.
    + apply Forall_cons. split; [done|exact Hnothrow].
Qed.

End BatchFacts.

(** ** The hook *)

Section HookFacts.
Context `{WebCrypto} `{JsonText} `{FileTransferCallbacks}.
Import Transfer TransferSpec TransferRuns Hook.
Local Open Scope N_scope.

Lemma answers_app o1 o2 : answers (o1 ++ o2) = answers o1 ++ answers o2.
Proof. apply omap_app. Qed.

Lemma callback_keeps_offer e h :
  resolveOfferRef (fst (callback e h)) = resolveOfferRef h
  ∧ pendingOffer (fst (callback e h)) = pendingOffer h
  ∧ isProcessingOfferRef (fst (callback e h)) = isProcessingOfferRef h
  ∧ answers (snd (callback e h)) = [].
Proof.
  destruct e as [| |t tot [] info| | | |]; done.
Qed.

(** One event: the guard holds after it, and the offers answered so far
    with the one pending are the offers made. *)
Lemma handle_one_pending ev h :
  one_pending h →
  one_pending (fst (handle ev h))
  ∧ (fst <$> answers (snd (handle ev h)))
    ++ option_list (resolveOfferRef (fst (handle ev h)))
    ≡ₚ option_list (resolveOfferRef h) ++ offers [ev]
  ∧ (∀ offer, (offer, true) ∈ answers (snd (handle ev h)) → ev = EvAccept).
Proof.
  intros Hg. pose proof Hg as [Hp Hf].
  destruct ev as [info q|e| |]; cbn [handle].
  - unfold onFileOffer.
    destruct (isProcessingOfferRef h) eqn:Hflag.
    + split; [exact Hg|]. simpl. split.
      * destruct (resolveOfferRef h); simpl; [apply perm_swap|done].
      * intros offer [[=]|?%elem_of_nil]%elem_of_cons. done.
    + assert (Hnone : resolveOfferRef h = None).
      { destruct (resolveOfferRef h) eqn:Hr; [|done].
        assert (false = true) by (apply Hf; eauto). done. }
      split; [split; simpl; [done|split; eauto]|]. simpl. rewrite Hnone.
      split; [done|]. by intros offer ?%elem_of_nil.
  - destruct (callback_keeps_offer e h) as (Hr & Hpo & Hfl & Ha).
    split; [unfold one_pending; by rewrite Hr, Hpo, Hfl|].
    rewrite Ha, Hr. simpl. rewrite app_nil_r. split; [done|].
    by intros offer ?%elem_of_nil.
  - unfold acceptFile. destruct (resolveOfferRef h) as [offer|] eqn:Hr.
    + split; [split; simpl; [done|]|].
      { split; [done|]. by intros [? [=]]. }
      simpl. split; [done|]. done.
    + split; [exact Hg|]. simpl. rewrite Hr. split; [done|].
      by intros offer ?%elem_of_nil.
  - unfold rejectFile. destruct (resolveOfferRef h) as [offer|] eqn:Hr.
    + split; [split; simpl; [done|]|].
      { split; [done|]. by intros [? [=]]. }
      simpl. split; [done|].
      intros o [[=]|?%elem_of_nil]%elem_of_cons. done.
    + split; [exact Hg|]. simpl. rewrite Hr. split; [done|].
      by intros offer ?%elem_of_nil.
Qed.

Lemma run_one_pending evs : ∀ h,
  one_pending h →
  one_pending (fst (run evs h))
  ∧ (fst <$> answers (snd (run evs h)))
    ++ option_list (resolveOfferRef (fst (run evs h)))
    ≡ₚ option_list (resolveOfferRef h) ++ offers evs
  ∧ (∀ offer, (offer, true) ∈ answers (snd (run evs h)) → EvAccept ∈ evs).
Proof.
  induction evs as [|ev evs IH]; intros h Hg.
  - simpl. split; [done|]. split; [by rewrite app_nil_r|].
    by intros offer ?%elem_of_nil.
  - cbn [run]. destruct (handle_one_pending ev h Hg) as (Hg1 & Hperm1 & Hacc1).
    destruct (handle ev h) as [h1 o1]. cbn [fst snd] in *.
    destruct (IH h1 Hg1) as (Hg2 & Hperm2 & Hacc2).
    destruct (run evs h1) as [h2 o2]. cbn [fst snd] in *.
    split; [done|]. split.
    + rewrite answers_app, fmap_app, <- app_assoc, Hperm2.
      rewrite app_assoc, Hperm1, <- app_assoc.
      assert (Hcons : offers (ev :: evs) = offers [ev] ++ offers evs)
        by apply (omap_app _ [ev] evs).
      by rewrite Hcons.
    + intros offer Hin. rewrite answers_app in Hin.
      apply elem_of_app in Hin as [Hin|Hin].
      * rewrite (Hacc1 _ Hin). apply list_elem_of_here.
      * apply list_elem_of_further. by eapply Hacc2.
Qed.

(** X19. The hook lets one offer wait for the user at a time. From its
    mounting and through any offers from the manager, other callbacks and
    calls of [acceptFile] and [rejectFile]: the offer shown is the one
    whose promise is held, the flag is up exactly while a promise is
    held; every offer made has been answered exactly once or is the one
    waiting (an offer that arrives while another waits is declined at
    once, [acceptFile] and [rejectFile] answer the one waiting and do
    nothing when none is); and no offer is answered with an acceptance
    unless [acceptFile] was called. *)
Theorem offers_answered_once evs :
  let h := fst (run evs initial) in
  let out := snd (run evs initial) in
  pendingOffer h = resolveOfferRef h
  ∧ (isProcessingOfferRef h = true ↔ is_Some (resolveOfferRef h))
  ∧ (fst <$> answers out) ++ option_list (pendingOffer h) ≡ₚ offers evs
  ∧ (∀ offer, (offer, true) ∈ answers out → EvAccept ∈ evs)
  ∧ (∀ h0 info q,
       isProcessingOfferRef h0 = true →
       onFileOffer info q h0 = (h0, [Resolve (info, q) false]))
  ∧ (∀ h0, resolveOfferRef h0 = None →
       acceptFile h0 = (h0, []) ∧ rejectFile h0 = (h0, [])).
Proof.
  intros h out. subst h out.
  assert (Hg0 : one_pending initial).
  { split; [done|]. split; [done|]. by intros [? [=]]. }
  destruct (run_one_pending evs initial Hg0) as ([Hp Hf] & Hperm & Hacc).
  split; [done|]. split; [done|]. split; [by rewrite Hp|]. split; [done|].
  split.
  - intros h0 info q Hflag. unfold onFileOffer. by rewrite Hflag.
  - intros h0 Hnone. unfold acceptFile, rejectFile. by rewrite Hnone.
Qed.


Lemma callbacks_app es1 es2 h :
  callbacks (es1 ++ es2) h
  = (fst (callbacks es2 (fst (callbacks es1 h))),
     snd (callbacks es1 h) ++ snd (callbacks es2 (fst (callbacks es1 h)))).
Proof.
  revert h. induction es1 as [|e es1 IH]; intros h.
  - simpl. by destruct (callbacks es2 h).
  - cbn [callbacks app]. destruct (callback e h) as [h1 o1]. rewrite IH.
    destruct (callbacks es1 h1) as [h2 o2]. simpl.
    destruct (callbacks es2 h2) as [h3 o3]. simpl. by rewrite app_assoc.
Qed.

Lemma manage_all_run evs : ∀ (m : FileTransferManager) h,
  manage_all evs m h
  = (fst (Transfer.run evs m),
     fst (callbacks (snd (Transfer.run evs m)) h),
     snd (callbacks (snd (Transfer.run evs m)) h)).
Proof.
  induction evs as [|ev evs IH]; intros m h; [done|].
  cbn [manage_all]. unfold manage. rewrite run_cons.
  destruct (Transfer.handle ev m) as [m1 e1]. cbn [fst snd].
  rewrite callbacks_app.
  destruct (callbacks e1 h) as [h1 o1]. cbn [fst snd]. rewrite IH.
  done.
Qed.

Lemma thrown_none es :
  Forall (λ e, ∀ message, e ≠ Rejected message) es → thrown es = None.
Proof.
  unfold thrown. induction es as [|e es IH]; intros Hall; [done|].
  apply Forall_cons in Hall as [He Hall]. csimpl.
  destruct e; try by apply IH. by destruct (He error).
Qed.

(** X20. A submission that the manager refuses. When the hook's
    [sendFiles] is called while the manager has no open channel, or has
    one but no key, the manager is left as it was, nothing is sent, and
    the application's [onError] gets the manager's message, "DataChannel
    not ready" or "Encryption not initialized"; the hook ends with
    [isSending] false and no send progress, and the rest of its state as
    before. *)
Theorem hook_reports_refusal files (m : FileTransferManager) h :
  from_option is_open false (sendChannel m) = false
  ∨ isEncryptionReady m = false →
  let result := Hook.sendFiles files m h in
  fst (fst result) = m
  ∧ snd result
    = [AppError (if from_option is_open false (sendChannel m)
                 then "Encryption not initialized"
                 else "DataChannel not ready")]
  ∧ snd (fst result)
    = Hook.mk false (isReceiving h) None (receiveProgress h) (pendingOffer h)
        (currentSendFile h) (currentReceiveFile h) (resolveOfferRef h)
        (isProcessingOfferRef h).
Proof.
  intros Hno result. subst result. unfold Hook.sendFiles, Transfer.sendFiles.
  destruct (from_option is_open false (sendChannel m)) eqn:Hopen.
  - destruct Hno as [?|Hr]; [done|]. rewrite Hr. by simpl.
  - by simpl.
Qed.

(** X21. The hook through a batch. The hook's [sendFiles] on an idle
    manager with an open channel and a key raises [isSending] and sets
    the send progress to 0 of the total size of the files; for a batch
    that is not empty it returns so, without calling the application.
    When the batch has streamed to its end (each offer accepted, the
    transport draining before each chunk), the manager's report that the
    transfer is complete has brought [isSending] down and cleared the send
    progress and the file shown as being sent. *)
Theorem hook_idle_after_batch ks (m0 : FileTransferManager) h0 files :
  from_option is_open false (sendChannel m0) = true →
  isEncryptionReady m0 = true →
  Encryption.key (encryption m0) = Some ks →
  length (Encryption.sessionId (encryption m0)) = 4%nat →
  Transfer.currentSendFile m0 = None →
  sendQueue m0 = [] →
  let submitted := Hook.sendFiles files m0 h0 in
  let m1 := fst (fst submitted) in
  let h1 := snd (fst submitted) in
  let streamed := manage_all (batch_schedule (map queue_file files)) m1 h1 in
  let h2 := snd (fst streamed) in
  m1 = fst (Transfer.sendFiles files m0)
  ∧ (files ≠ [] →
     snd submitted = []
     ∧ h1 = Hook.mk true (isReceiving h0)
              (Some (TransferProgress.mk 0 (total_size (map fst files))))
              (receiveProgress h0) (pendingOffer h0) (currentSendFile h0)
              (currentReceiveFile h0) (resolveOfferRef h0)
              (isProcessingOfferRef h0))
  ∧ isSending h2 = false
  ∧ sendProgress h2 = None
  ∧ currentSendFile h2 = None.
Proof.
  intros Hopen Hready Hkey Hsid Hcur Hq submitted m1 h1 streamed h2.
  destruct (batch_completes ks m0 files Hopen Hready Hkey Hsid Hcur Hq)
    as (Hlast & _ & _ & Hnothrow).
  pose proof (thrown_none _ Hnothrow) as Hthrown.
  set (h0' := Hook.mk true (isReceiving h0)
                (Some (TransferProgress.mk 0 (total_size (map fst files))))
                (receiveProgress h0) (pendingOffer h0) (currentSendFile h0)
                (currentReceiveFile h0) (resolveOfferRef h0)
                (isProcessingOfferRef h0)).
  assert (Hsub : submitted
                 = (fst (Transfer.sendFiles files m0),
                    fst (callbacks (snd (Transfer.sendFiles files m0)) h0'),
                    snd (callbacks (snd (Transfer.sendFiles files m0)) h0'))).
  { subst submitted. unfold Hook.sendFiles. fold h0'.
    destruct (Transfer.sendFiles files m0) as [m' es]. cbn [fst snd] in *.
    destruct (callbacks es h0') as [h' out]. by rewrite Hthrown. }
  subst m1 h1 h2 streamed. rewrite Hsub. cbn [fst snd].
  split; [done|]. split.
  - intros Hne. destruct files as [|f fs]; [done|].
    destruct (sendFiles_idle m0 (f :: fs) Hopen Hready Hcur Hq)
      as (ch1 & Ho1 & Hsf).
    cbv zeta in Hsf. rewrite Hsf. cbn [fst snd].
    unfold processNextFile.
    cbn [sendQueue set_sendChannel set_sendQueue map].
    unfold andThen, modify.
    match goal with
    | |- context [sendMessage FILE_INFO ?p ?m1] =>
        destruct (sendMessage_open FILE_INFO p m1) as (ch2 & Ho2 & ->)
    end; [by simpl; rewrite Ho1|].
    by simpl.
  - rewrite manage_all_run. cbn [fst snd].
    rewrite run_cons in Hlast. cbn [fst snd] in Hlast.
    change (Transfer.handle (EvSendFiles files) m0)
      with (Transfer.sendFiles files m0) in Hlast.
    set (es1 := snd (Transfer.sendFiles files m0)) in *.
    set (es2 := snd (Transfer.run _ _)) in *.
    assert (Hall : fst (callbacks es2 (fst (callbacks es1 h0')))
                   = fst (callbacks (es1 ++ es2) h0'))
      by (by rewrite callbacks_app).
    rewrite Hall.
    apply last_Some in Hlast as [es Hes]. rewrite Hes, callbacks_app.
    cbn [fst snd callbacks callback]. unfold onTransferComplete. done.
Qed.

End HookFacts.

(** ** The receiving side with its awaits *)

Section AwaitFacts.
Context `{WebCrypto} `{JsonText} `{FileTransferCallbacks}.
Import Transfer TransferSpec TransferAwait.
Local Open Scope N_scope.

#[local] Arguments N.to_nat : simpl never.
#[local] Arguments N.of_nat : simpl never.
#[local] Arguments Bytes.byte_of_N : simpl never.
#[local] Arguments encodeEncryptedChunk : simpl never.
#[local] Arguments decodeEncryptedChunk : simpl never.
#[local] Arguments N.leb : simpl never.

Lemma await_frame type payload :
  TransferAwait.handleMessage (frame type payload)
  = match type with
    | FILE_INFO => TransferAwait.handleFileInfo payload
    | FILE_CHUNK => TransferAwait.handleFileChunk payload
    | FILE_COMPLETE => TransferAwait.handleFileComplete
    | _ => on_fields (Transfer.handleMessage (frame type payload))
    end.
Proof.
  unfold frame. cbn [TransferAwait.handleMessage].
  rewrite (type_of_frame type). by destruct type.
Qed.

Lemma await_run_app sts1 sts2 (r : Manager) :
  TransferAwait.run (sts1 ++ sts2) r
  = (fst (TransferAwait.run sts2 (fst (TransferAwait.run sts1 r))),
     snd (TransferAwait.run sts1 r)
     ++ snd (TransferAwait.run sts2 (fst (TransferAwait.run sts1 r)))).
Proof.
  revert r. induction sts1 as [|st sts1 IH]; intros r.
  - simpl. by destruct (TransferAwait.run sts2 r).
  - cbn [TransferAwait.run app]. destruct (step st r) as [r1 e1]. rewrite IH.
    destruct (TransferAwait.run sts1 r1) as [r2 e2]. simpl.
    destruct (TransferAwait.run sts2 r2) as [r3 e3]. simpl.
    by rewrite app_assoc.
Qed.

Lemma await_run_cons st sts (r : Manager) :
  TransferAwait.run (st :: sts) r
  = (fst (TransferAwait.run sts (fst (step st r))),
     snd (step st r) ++ snd (TransferAwait.run sts (fst (step st r)))).
Proof.
  cbn [TransferAwait.run]. destruct (step st r) as [r1 e1]. cbn [fst snd].
  by destruct (TransferAwait.run sts r1).
Qed.

(** An offer the application accepts, at a receiver that is receiving
    nothing: a new metadata object of [totalChunks] holes. *)
Lemma await_offer k (r0 : FileTransferManager) info file payload :
  decodeFileInfo payload = Some info →
  onFileOffer info (QueueInfo.mk 1 0) = true →
  FileInfo.totalChunks info < 4294967296 →
  Encryption.key (encryption r0) = Some k →
  let r := fst (step (Frame (frame FILE_INFO payload)) (start r0)) in
  received (snd (step (Frame (frame FILE_INFO payload)) (start r0))) = []
  ∧ assembling k info file 0 [] r
  ∧ pending r = [].
Proof.
  intros Hdec Hoffer Htot Hkey. cbn [step]. rewrite await_frame.
  unfold TransferAwait.handleFileInfo. rewrite Hdec, Hoffer.
  destruct (N.leb_spec 4294967296 (FileInfo.totalChunks info)) as [?|_];
    [lia|].
  unfold on_fields, andThen, modify. cbn [fields start heap table pending].
  match goal with
  | |- context [sendMessage FILE_ACCEPT [] ?m1] =>
      destruct (sendMessage_receiver FILE_ACCEPT [] m1) as (Hr & He & _ & Hc);
      destruct (sendMessage FILE_ACCEPT [] m1) as [m2 e2]
  end.
  simpl in *. split; [done|]. split; [|done]. unfold assembling. simpl.
  rewrite He, Hc. split; [done|]. split; [done|].
  split; [by rewrite lookup_insert_eq|]. split; [|by apply Forall_nil].
  exists 0. by rewrite stored_nil.
Qed.

(** The frame of chunk [j] arrives: a call more waits for its plaintext. *)
Lemma await_chunk ks kr sid c0 qf object j got (r : Manager) :
  (∀ iv p, aes_gcm_decrypt kr iv (aes_gcm_encrypt ks iv p) = Some p) →
  assembling kr (QueuedFile.info qf) (QueuedFile.file qf) object got r →
  (j < N.to_nat (FileInfo.totalChunks (QueuedFile.info qf)))%nat →
  FileInfo.totalChunks (QueuedFile.info qf) < 4294967296 →
  (length (list_byte_of_string (FileInfo.id (QueuedFile.info qf))) < 256)%nat →
  length sid = 4%nat →
  step (Frame (chunk_frame ks sid c0 qf j)) r
  = (mkManager (fields r) (heap r) (table r)
       (pending r
        ++ [mkPending object (N.of_nat j)
              (Some (chunk_of (QueuedFile.file qf) j))]),
     []).
Proof.
  intros Hgcm (Hkey & Hcur & Htab & _ & _) Hj Htot Hid Hsid.
  cbn [step]. unfold chunk_frame. rewrite await_frame.
  unfold TransferAwait.handleFileChunk.
  rewrite decode_encode;
    [|done|unfold EncryptionSpec.expected_iv;
            rewrite length_app, be_bytes_length; lia].
  cbn [fileId chunkIndex encrypted iv].
  rewrite Htab. unfold Encryption.decryptChunk. rewrite Hkey, Hgcm.
  by rewrite N.mod_small by lia.
Qed.

(** One move keeps the receiver assembling the file, gives nothing to
    the application, and keeps each chunk that was on its way on its
    way. *)
Lemma await_move ks kr sid c0 qf object mv got (r : Manager) :
  (∀ iv p, aes_gcm_decrypt kr iv (aes_gcm_encrypt ks iv p) = Some p) →
  assembling kr (QueuedFile.info qf) (QueuedFile.file qf) object got r →
  (∀ j, mv = Arrives j →
     (j < N.to_nat (FileInfo.totalChunks (QueuedFile.info qf)))%nat) →
  FileInfo.totalChunks (QueuedFile.info qf) < 4294967296 →
  (length (list_byte_of_string (FileInfo.id (QueuedFile.info qf))) < 256)%nat →
  length sid = 4%nat →
  let r' := fst (step (step_of ks sid c0 qf mv) r) in
  received (snd (step (step_of ks sid c0 qf mv) r)) = []
  ∧ ∃ got',
      assembling kr (QueuedFile.info qf) (QueuedFile.file qf) object got' r'
      ∧ (∀ j, on_its_way got r j → on_its_way got' r' j)
      ∧ (∀ j, mv = Arrives j → on_its_way got' r' j).
Proof.
  intros Hgcm Hr Hmv Htot Hid Hsid r'. subst r'.
  destruct mv as [j|k]; cbn [step_of].
  - (* a frame *)
    rewrite (await_chunk ks kr sid c0 qf object j got r Hgcm Hr
               (Hmv j eq_refl) Htot Hid Hsid).
    cbn [fst snd]. split; [done|]. exists got.
    destruct Hr as (Hkey & Hcur & Htab & Hheap & Hpend).
    split; [|split].
    + unfold assembling. cbn [fields table heap pending].
      split; [done|]. split; [done|]. split; [done|]. split; [done|].
      apply Forall_app. split; [done|].
      apply Forall_cons. split; [|by apply Forall_nil].
      split; [done|]. exists j. by specialize (Hmv j eq_refl).
    + intros i [Hi|Hi]; [by left|right].
      cbn [pending]. rewrite fmap_app. apply elem_of_app. by left.
    + intros i [= <-]. right. cbn [pending]. rewrite fmap_app.
      apply elem_of_app. right. apply list_elem_of_here.
  - (* a decryption settles *)
    cbn [step]. unfold resume.
    destruct (pending r !! k) as [call|] eqn:Hcall.
    2:{ split; [done|]. exists got. done. }
    destruct Hr as (Hkey & Hcur & Htab & (b & Hheap) & Hpend).
    pose proof (proj1 (Forall_lookup _ _) Hpend k call Hcall)
      as (Hheld & j & Hj & Hidx & Hplain).
    rewrite Hplain, Hheld, Hheap. cbn [fst snd]. split; [done|].
    exists (j :: got). split; [|split].
    + unfold assembling. cbn [fields table heap pending].
      split; [done|]. split; [done|]. split; [done|]. split.
      * eexists. rewrite list_lookup_insert_eq
          by (by eapply lookup_lt_Some).
        cbn [FileMetadata.info FileMetadata.receivedChunks].
        rewrite Hidx, stored_store by lia. done.
      * apply Forall_lookup. intros i call' Hi.
        rewrite list_lookup_delete in Hi.
        case_decide; by eapply (proj1 (Forall_lookup _ _) Hpend).
    + intros i [Hi|Hi]; [left; by apply list_elem_of_further|].
      cbn [pending].
      apply list_elem_of_fmap in Hi as (call' & Hci & Hin).
      apply list_elem_of_lookup in Hin as [k' Hk'].
      destruct (decide (k' = k)) as [->|Hne].
      * left. rewrite Hcall in Hk'. injection Hk' as <-.
        rewrite Hidx in Hci. apply Nat2N.inj in Hci as ->.
        apply list_elem_of_here.
      * right. cbn [pending]. apply list_elem_of_fmap. exists call'.
        split; [done|]. apply list_elem_of_lookup.
        destruct (decide (k' < k)%nat).
        -- exists k'. by rewrite list_lookup_delete_lt.
        -- exists (pred k'). rewrite list_lookup_delete_ge by lia.
           by replace (S (pred k')) with k' by lia.
    + intros i [=].
Qed.

Lemma await_moves ks kr sid c0 qf object moves : ∀ got (r : Manager),
  (∀ iv p, aes_gcm_decrypt kr iv (aes_gcm_encrypt ks iv p) = Some p) →
  assembling kr (QueuedFile.info qf) (QueuedFile.file qf) object got r →
  (∀ j, Arrives j ∈ moves →
     (j < N.to_nat (FileInfo.totalChunks (QueuedFile.info qf)))%nat) →
  FileInfo.totalChunks (QueuedFile.info qf) < 4294967296 →
  (length (list_byte_of_string (FileInfo.id (QueuedFile.info qf))) < 256)%nat →
  length sid = 4%nat →
  let r' := fst (TransferAwait.run (map (step_of ks sid c0 qf) moves) r) in
  received (snd (TransferAwait.run (map (step_of ks sid c0 qf) moves) r)) = []
  ∧ ∃ got',
      assembling kr (QueuedFile.info qf) (QueuedFile.file qf) object got' r'
      ∧ (∀ j, on_its_way got r j → on_its_way got' r' j)
      ∧ (∀ j, Arrives j ∈ moves → on_its_way got' r' j).
Proof.
  induction moves as [|mv moves IH]; intros got r Hgcm Hr Hmvs Htot Hid Hsid.
  - simpl. split; [done|]. exists got. split; [done|]. split; [done|].
    by intros j ?%elem_of_nil.
  - cbn [map]. rewrite await_run_cons. cbn [fst snd].
    destruct (await_move ks kr sid c0 qf object mv got r Hgcm Hr)
      as (Hrcv1 & got1 & Hr1 & Hkeep1 & Hnew1); [|done..|].
    { intros j ->. apply Hmvs. apply list_elem_of_here. }
    destruct (IH got1 _ Hgcm Hr1) as (Hrcv2 & got2 & Hr2 & Hkeep2 & Hnew2);
      [|done..|].
    { intros j Hj. apply Hmvs. by apply list_elem_of_further. }
    split.
    + unfold received in *. by rewrite omap_app, Hrcv1, Hrcv2.
    + exists got2. split; [done|]. split; [by auto|].
      intros j [Heq|Hj]%elem_of_cons; [|by auto].
      apply Hkeep2. by apply Hnew1.
Qed.

(** [FILE_COMPLETE] while the receiver is assembling: what is stored
    then goes to the application, in index order. *)
Lemma await_complete k info file object got (r : Manager) :
  assembling k info file object got r →
  FileInfo.id info ≠ "" →
  received (snd (step (Frame (frame FILE_COMPLETE [])) r))
  = [File.mk (FileInfo.name info) (File.normal_type (FileInfo.type info)) ""
       (concat (chunk_of file
                <$> filter (λ j, j ∈ got)
                      (seq 0 (N.to_nat (FileInfo.totalChunks info)))))].
Proof.
  intros (Hkey & Hcur & Htab & (b & Hheap) & _) Hid. cbn [step].
  rewrite await_frame. unfold TransferAwait.handleFileComplete. rewrite Hcur.
  assert (Htr : truthy (Some (FileInfo.id info)) = true).
  { by destruct (FileInfo.id info). }
  rewrite Htr. cbn [default from_option id]. rewrite Htab. cbn [mbind option_bind].
  rewrite Hheap. cbn [snd received omap FileMetadata.receivedChunks FileMetadata.info].
  by rewrite filter_defined_stored.
Qed.

(** X15. The order of arrival does not matter, nor the order in which
    the decryptions settle, nor do repeats. The receiver accepts the offer
    of a file; then the chunk frames of the file arrive in any order,
    some of them more than once, and the decryptions they start settle in
    any order and at any time in between. When every chunk has arrived
    and no decryption is waiting as [FILE_COMPLETE] is handled, the file
    given to the application has the sender's name for it, the sender's
    type for it as [new File] reports it, and the sender's bytes. *)
Theorem chunks_in_any_order ks kr sid c0 (r0 : FileTransferManager)
    file uuid moves :
  let qf := queue_file (file, uuid) in
  let n := N.to_nat (chunk_count (File.size file)) in
  (∀ iv p, aes_gcm_decrypt kr iv (aes_gcm_encrypt ks iv p) = Some p) →
  Encryption.key (encryption r0) = Some kr →
  decodeFileInfo (encodeFileInfo (QueuedFile.info qf))
  = Some (QueuedFile.info qf) →
  onFileOffer (QueuedFile.info qf) (QueueInfo.mk 1 0) = true →
  chunk_count (File.size file) < 4294967296 →
  is_ascii_string uuid = true →
  (length (list_byte_of_string uuid) < 256)%nat →
  uuid ≠ "" →
  length sid = 4%nat →
  (∀ j, Arrives j ∈ moves ↔ (j < n)%nat) →
  let steps :=
    Frame (frame FILE_INFO (encodeFileInfo (QueuedFile.info qf)))
    :: map (step_of ks sid c0 qf) moves in
  pending (fst (TransferAwait.run steps (start r0))) = [] →
  received
    (snd (TransferAwait.run (steps ++ [Frame (frame FILE_COMPLETE [])])
            (start r0)))
  = [File.mk (File.name file) (File.normal_type (File.type file)) ""
       (File.bytes file)].
Proof.
  intros qf n Hgcm Hkey Hjson Hoffer Hcount _ Hid Hnz Hsid Hmoves steps Hidle.
  subst steps. revert Hidle. rewrite await_run_app, !await_run_cons.
  cbn [fst snd].
  destruct (await_offer kr r0 (QueuedFile.info qf) file _ Hjson Hoffer)
    as (Hr0 & Ha0 & _); [done..|].
  cbv zeta in Ha0.
  set (r1 := fst (step _ (start r0))) in *.
  destruct (await_moves ks kr sid c0 qf 0%nat moves [] r1 Hgcm Ha0)
    as (Hr1 & got & Ha1 & _ & Hway); [|done..|].
  { intros j Hj. by apply Hmoves. }
  cbv zeta in Ha1, Hway.
  set (r2 := fst (TransferAwait.run _ r1)) in *.
  intros Hidle.
  pose proof (await_complete _ _ _ _ _ r2 Ha1 Hnz) as Hr2.
  cbn [TransferAwait.run]. 
  destruct (step (Frame (frame FILE_COMPLETE [])) r2) as [r3 e3].
  cbn [fst snd] in *. rewrite app_nil_r.
  unfold received in *. rewrite !omap_app, Hr0, Hr1, Hr2. cbn [app].
  subst qf. cbn [queue_file QueuedFile.info QueuedFile.file
                   FileInfo.name FileInfo.type FileInfo.totalChunks].
  fold n. rewrite filter_all; [by rewrite chunks_concat|].
  intros x Hx%elem_of_seq.
  destruct (Hway x) as [Hg|Hw]; [apply Hmoves; lia|done|].
  rewrite Hidle in Hw. by apply elem_of_nil in Hw.
Qed.

End AwaitFacts.

(** ** A batch, from the sender to a receiver with its awaits *)

Section AwaitBatch.
Context `{WebCrypto} `{JsonText} `{FileTransferCallbacks}.
Import Transfer TransferSpec TransferRuns TransferAwait.
Local Open Scope N_scope.

#[local] Arguments N.to_nat : simpl never.
#[local] Arguments N.of_nat : simpl never.
#[local] Arguments Bytes.byte_of_N : simpl never.
#[local] Arguments Bytes.slice : simpl never.
#[local] Arguments encodeEncryptedChunk : simpl never.
#[local] Arguments decodeEncryptedChunk : simpl never.
#[local] Arguments N.mul : simpl never.
#[local] Arguments N.add : simpl never.
#[local] Arguments N.leb : simpl never.
#[local] Arguments N.ltb : simpl never.
#[local] Arguments N.min : simpl never.

Lemma settled_in_turn_app fs1 fs2 :
  settled_in_turn (fs1 ++ fs2) = settled_in_turn fs1 ++ settled_in_turn fs2.
Proof. unfold settled_in_turn. by rewrite map_app, concat_app. Qed.

Lemma settled_in_turn_cons f fs :
  settled_in_turn (f :: fs) = Frame f :: Settle 0 :: settled_in_turn fs.
Proof. done. Qed.

(** Nothing waits: a settlement is no step at all. *)
Lemma resume_idle k (r : Manager) : pending r = [] → resume k r = (r, []).
Proof. intros Hp. unfold resume. by rewrite Hp. Qed.

Lemma settle_idle k (r : Manager) : pending r = [] → step (Settle k) r = (r, []).
Proof. intros Hp. cbn [step]. by apply resume_idle. Qed.

(** An offer the application accepts, at a receiver where nothing
    waits: a new metadata object of [totalChunks] holes. *)
Lemma await_offer_next k (r : Manager) info file payload :
  decodeFileInfo payload = Some info →
  onFileOffer info (QueueInfo.mk 1 0) = true →
  FileInfo.totalChunks info < 4294967296 →
  Encryption.key (encryption (fields r)) = Some k →
  pending r = [] →
  let r' := fst (step (Frame (frame FILE_INFO payload)) r) in
  received (snd (step (Frame (frame FILE_INFO payload)) r)) = []
  ∧ assembling k info file (length (heap r)) [] r'
  ∧ pending r' = [].
Proof.
  intros Hdec Hoffer Htot Hkey Hidle. cbn [step]. rewrite await_frame.
  unfold TransferAwait.handleFileInfo. rewrite Hdec, Hoffer.
  destruct (N.leb_spec 4294967296 (FileInfo.totalChunks info)) as [?|_];
    [lia|].
  unfold on_fields, andThen, modify. cbn [fields heap table pending].
  match goal with
  | |- context [sendMessage FILE_ACCEPT [] ?m1] =>
      destruct (sendMessage_receiver FILE_ACCEPT [] m1) as (Hr & He & _ & Hc);
      destruct (sendMessage FILE_ACCEPT [] m1) as [m2 e2]
  end.
  simpl in *. split; [done|]. split; [|done]. unfold assembling. simpl.
  rewrite He, Hc, Hidle. split; [done|]. split; [done|].
  split; [by rewrite lookup_insert_eq|]. split; [|by apply Forall_nil].
  exists 0. rewrite lookup_app_r by done. rewrite Nat.sub_diag. simpl.
  by rewrite stored_nil.
Qed.

(** A chunk arrives and its decryption settles before anything else:
    nothing waits afterwards. *)
Lemma await_turn ks kr sid c0 qf object j got (r : Manager) :
  (∀ iv p, aes_gcm_decrypt kr iv (aes_gcm_encrypt ks iv p) = Some p) →
  assembling kr (QueuedFile.info qf) (QueuedFile.file qf) object got r →
  pending r = [] →
  (j < N.to_nat (FileInfo.totalChunks (QueuedFile.info qf)))%nat →
  FileInfo.totalChunks (QueuedFile.info qf) < 4294967296 →
  (length (list_byte_of_string (FileInfo.id (QueuedFile.info qf))) < 256)%nat →
  length sid = 4%nat →
  let r' :=
    fst (TransferAwait.run [Frame (chunk_frame ks sid c0 qf j); Settle 0] r) in
  received
    (snd (TransferAwait.run [Frame (chunk_frame ks sid c0 qf j); Settle 0] r))
  = []
  ∧ assembling kr (QueuedFile.info qf) (QueuedFile.file qf) object
      (j :: got) r'
  ∧ pending r' = [].
Proof.
  intros Hgcm Hr Hidle Hj Htot Hid Hsid.
  rewrite await_run_cons.
  rewrite (await_chunk ks kr sid c0 qf object j got r Hgcm Hr Hj Htot Hid Hsid).
  cbn [fst snd]. rewrite Hidle. cbn [app].
  destruct Hr as (Hkey & Hcur & Htab & (b & Hheap) & _).
  rewrite await_run_cons. cbn [step TransferAwait.run fst snd].
  unfold resume. cbn [pending lookup list_lookup heap held index decrypted].
  rewrite Hheap. cbn [fst snd app received omap]. split; [done|].
  split; [|done].
  unfold assembling. cbn [fields table heap pending].
  split; [done|]. split; [done|]. split; [done|].
  split; [|by apply Forall_nil].
  eexists. rewrite list_lookup_insert_eq by (by eapply lookup_lt_Some).
  cbn [FileMetadata.info FileMetadata.receivedChunks].
  by rewrite stored_store by lia.
Qed.

Lemma await_turns ks kr sid c0 qf object js : ∀ got (r : Manager),
  (∀ iv p, aes_gcm_decrypt kr iv (aes_gcm_encrypt ks iv p) = Some p) →
  assembling kr (QueuedFile.info qf) (QueuedFile.file qf) object got r →
  pending r = [] →
  Forall (λ j, (j < N.to_nat (FileInfo.totalChunks (QueuedFile.info qf)))%nat)
    js →
  FileInfo.totalChunks (QueuedFile.info qf) < 4294967296 →
  (length (list_byte_of_string (FileInfo.id (QueuedFile.info qf))) < 256)%nat →
  length sid = 4%nat →
  let sts := settled_in_turn (map (chunk_frame ks sid c0 qf) js) in
  received (snd (TransferAwait.run sts r)) = []
  ∧ ∃ got',
      assembling kr (QueuedFile.info qf) (QueuedFile.file qf) object got'
        (fst (TransferAwait.run sts r))
      ∧ pending (fst (TransferAwait.run sts r)) = []
      ∧ ∀ x, x ∈ got' ↔ x ∈ js ∨ x ∈ got.
Proof.
  induction js as [|j js IH]; intros got r Hgcm Hr Hidle Hjs Htot Hid Hsid.
  - simpl. split; [done|]. exists got. split; [done|]. split; [done|].
    intros x. rewrite elem_of_nil. tauto.
  - apply Forall_cons in Hjs as [Hj Hjs].
    cbn [map]. rewrite settled_in_turn_cons.
    change (Frame ?f :: Settle 0 :: ?rest)
      with ([Frame f; Settle 0] ++ rest).
    rewrite await_run_app. cbn [fst snd].
    destruct (await_turn ks kr sid c0 qf object j got r Hgcm Hr Hidle Hj
                Htot Hid Hsid) as (Hrcv & Hr1 & Hidle1).
    cbv zeta in Hr1, Hidle1.
    destruct (IH (j :: got) _ Hgcm Hr1 Hidle1 Hjs Htot Hid Hsid)
      as (Hrcv2 & got' & Hr2 & Hidle2 & Hmem).
    split.
    + unfold received in *. by rewrite omap_app, Hrcv, Hrcv2.
    + exists got'. split; [done|]. split; [done|]. intros x.
      rewrite Hmem, !elem_of_cons. tauto.
Qed.

(** [FILE_COMPLETE] leaves the key and the waiting calls as they are. *)
Lemma await_complete_keeps (r : Manager) :
  let r' := fst (step (Frame (frame FILE_COMPLETE [])) r) in
  Encryption.key (encryption (fields r'))
  = Encryption.key (encryption (fields r))
  ∧ pending r' = pending r.
Proof.
  cbn [step]. rewrite await_frame. unfold TransferAwait.handleFileComplete.
  destruct (truthy _); [|done].
  by destruct (table r !! _ ≫= (heap r !!.)).
Qed.

(** The receiver, with the offer of a file accepted and nothing waiting,
    handles the file's chunk frames in order, each decryption settling
    before the next frame, and the completion: the application is given
    the file; the receiver keeps its key and nothing waits. *)
Lemma await_file_received ks kr sid c0 f object (r : Manager) :
  (∀ iv p, aes_gcm_decrypt kr iv (aes_gcm_encrypt ks iv p) = Some p) →
  deliverable f →
  length sid = 4%nat →
  let qf := queue_file f in
  let n := N.to_nat (FileInfo.totalChunks (QueuedFile.info qf)) in
  assembling kr (QueuedFile.info qf) (QueuedFile.file qf) object [] r →
  pending r = [] →
  let out :=
    TransferAwait.run
      (settled_in_turn
         (map (chunk_frame ks sid c0 qf) (seq 0 n)
          ++ [frame FILE_COMPLETE []])) r in
  received (snd out) = [delivered_file f]
  ∧ Encryption.key (encryption (fields (fst out))) = Some kr
  ∧ pending (fst out) = [].
Proof.
  intros Hgcm (Hjson & Hoffer & Hcount & _ & Hid & Hnz) Hsid qf n Hr Hidle out.
  subst out. destruct f as [file uuid]. simpl in Hcount, Hid, Hnz.
  rewrite settled_in_turn_app, await_run_app. cbn [fst snd].
  destruct (await_turns ks kr sid c0 qf object (seq 0 n) [] r Hgcm Hr Hidle)
    as (Hr1 & got & Ha1 & Hidle1 & Hmem); try done.
  { apply Forall_forall. intros x Hx%elem_of_seq. subst n. lia. }
  cbv zeta in Hr1, Ha1, Hidle1.
  set (r1 := fst (TransferAwait.run _ r)) in *.
  change (settled_in_turn [frame FILE_COMPLETE []])
    with [Frame (frame FILE_COMPLETE []); Settle 0].
  rewrite await_run_cons. cbn [fst snd].
  destruct (await_complete_keeps r1) as [Hkey2 Hp2]. cbv zeta in Hkey2, Hp2.
  set (r2 := fst (step (Frame (frame FILE_COMPLETE [])) r1)) in *.
  assert (Hidle2 : pending r2 = []) by congruence.
  rewrite await_run_cons, (settle_idle 0 r2 Hidle2).
  cbn [fst snd TransferAwait.run]. rewrite !app_nil_r.
  split; [|split; [|done]].
  - unfold received in *. rewrite omap_app, Hr1.
    rewrite (await_complete kr _ _ object got r1 Ha1) by done.
    cbn [app]. unfold delivered_file. cbn [fst snd].
    subst qf. cbn [queue_file QueuedFile.info QueuedFile.file
                     FileInfo.name FileInfo.type FileInfo.totalChunks] in *.
    fold n. rewrite filter_all.
    + subst n. by rewrite chunks_concat.
    + intros x Hx. apply Hmem. by left.
  - rewrite Hkey2. by destruct Ha1 as (? & _).
Qed.

Lemma await_batch_streams ks kr sid :
  ∀ fs f (m : FileTransferManager) (r : Manager) object c0,
  (∀ iv p, aes_gcm_decrypt kr iv (aes_gcm_encrypt ks iv p) = Some p) →
  length sid = 4%nat →
  Forall deliverable (f :: fs) →
  sending ks sid c0 (queue_file f) 0 m →
  isPaused m = false →
  sendQueue m = map queue_file fs →
  assembling kr (QueuedFile.info (queue_file f))
    (QueuedFile.file (queue_file f)) object [] r →
  pending r = [] →
  let sender := Transfer.run (batch_schedule (map queue_file (f :: fs))) m in
  received
    (snd (TransferAwait.run (settled_in_turn (frames (snd sender))) r))
  = map delivered_file (f :: fs).
Proof.
  induction fs as [|f' fs IH];
    intros f m r object c0 Hgcm Hsid Hall Hs Hp Hq Hr Hidle sender;
    subst sender; apply Forall_cons in Hall as [Hf Hall].
  - (* the last file of the batch *)
    unfold batch_schedule. cbn [map concat]. rewrite app_nil_r, run_app.
    cbn [fst snd].
    destruct (file_streams ks sid c0 (queue_file f) m Hsid Hs Hp)
      as (Hfr & Hidle' & Hkq & _).
    set (m1 := fst (Transfer.run (drained_schedule _) m)) in *.
    assert (Hpnf : Transfer.run [EvTimer TimerProcessNextFile] m1
                   = (m1, [OnTransferComplete])).
    { cbn [Transfer.run handle]. unfold andThen, processNextFile.
      rewrite Hkq, Hq. by simpl. }
    rewrite Hpnf. cbn [fst snd]. rewrite frames_app, Hfr. cbn [frames omap].
    rewrite app_nil_r.
    by destruct (await_file_received ks kr sid c0 f object r Hgcm Hf Hsid
                   Hr Hidle) as [Hrec _].
  - (* a file followed by others *)
    unfold batch_schedule. cbn [map concat].
    fold (batch_schedule (map queue_file (f' :: fs))).
    rewrite <- app_assoc, run_app. cbn [fst snd].
    destruct (file_streams ks sid c0 (queue_file f) m Hsid Hs Hp)
      as (Hfr & Hidle' & Hkq & Hkk & Hks & Hko).
    set (m1 := fst (Transfer.run (drained_schedule _) m)) in *.
    set (e1 := snd (Transfer.run (drained_schedule _) m)) in *.
    cbn [app]. rewrite run_cons. cbn [fst snd handle].
    destruct Hs as (_ & _ & _ & Hkey & Hsess & _ & Hopen).
    destruct (processNextFile_starts m1 (queue_file f') (map queue_file fs) ks)
      as (Hinfo & Hq2 & Hp2 & Hs2).
    { by rewrite Hkq, Hq. }
    { by apply Hko. }
    { by rewrite Hkk. }
    rewrite Hks, Hsess in Hs2.
    set (m2 := fst (processNextFile m1)) in *.
    set (e2 := snd (processNextFile m1)) in *.
    (* the receiver *)
    destruct (await_file_received ks kr sid c0 f object r Hgcm Hf Hsid
                Hr Hidle) as (Hrec & Hkr & Hidle1).
    cbv zeta in Hrec, Hkr, Hidle1.
    set (r1 := fst (TransferAwait.run (settled_in_turn _) r)) in *.
    pose proof Hall as Hall'. apply Forall_cons in Hall' as [Hf' _].
    destruct Hf' as (Hjson' & Hoffer' & Hcount' & _ & Hid' & Hnz').
    destruct (await_offer_next kr r1 (QueuedFile.info (queue_file f'))
                (QueuedFile.file (queue_file f')) _ Hjson' Hoffer')
      as (Hrec2 & Hr2 & Hidle2); [by destruct f'|done|done|].
    cbv zeta in Hr2, Hidle2.
    pose proof (IH f' m2 _ _ _ Hgcm Hsid Hall Hs2 Hp2 Hq2 Hr2 Hidle2) as Hrec3.
    cbv zeta in Hrec3.
    rewrite !frames_app, Hfr, Hinfo.
    rewrite settled_in_turn_app, await_run_app. cbn [fst snd].
    rewrite received_app, Hrec.
    fold r1. cbn [app]. rewrite settled_in_turn_cons.
    rewrite await_run_cons. cbn [fst snd].
    rewrite received_app, Hrec2. cbn [app].
    rewrite await_run_cons, (settle_idle 0 _ Hidle2). cbn [fst snd app].
    f_equal. exact Hrec3.
Qed.

(** X18. A batch is delivered whole and in order. An initiator that has
    just been given an open channel, and so holds a new key and has never
    sent a file or set a timer, is given a batch of files; the peer
    accepts each offer, the transport drains before each chunk, and
    nothing else happens at the sender. The receiver holds a key that
    decrypts what the sender's key encrypts, is receiving nothing, and
    handles the frames in the order sent, the decryption of each chunk
    settling before the next frame is handled. Then the receiving
    application is given the files of the batch, one for one and in the
    order submitted, each with its name, its type and its bytes; and the
    sender ends with nothing in flight, an empty queue, and the report
    that the transfer is complete as the last thing it does. *)
Theorem batch_delivered_in_order ks kr a0 a1 a2 a3 channel
    (r0 : FileTransferManager) files :
  (∀ iv p, aes_gcm_decrypt kr iv (aes_gcm_encrypt ks iv p) = Some p) →
  is_open channel = true →
  Encryption.key (encryption r0) = Some kr →
  Forall deliverable files →
  let m0 := fst (setDataChannel channel true ks (new a0 a1 a2 a3)) in
  let sender :=
    Transfer.run (EvSendFiles files :: batch_schedule (map queue_file files))
      m0 in
  received
    (snd (TransferAwait.run (settled_in_turn (frames (snd sender)))
            (start r0)))
  = map delivered_file files
  ∧ last (snd sender) = Some OnTransferComplete
  ∧ currentSendFile (fst sender) = None
  ∧ sendQueue (fst sender) = [].
Proof.
  intros Hgcm Hch Hkr Hall m0 sender.
  assert (Hm0 : from_option is_open false (sendChannel m0) = true
                ∧ isEncryptionReady m0 = true
                ∧ Encryption.key (encryption m0) = Some ks
                ∧ Encryption.sessionId (encryption m0) = [a0; a1; a2; a3]
                ∧ currentSendFile m0 = None
                ∧ sendQueue m0 = []).
  { subst m0. unfold setDataChannel, initializeEncryption, andThen, modify.
    cbn [fst snd new set_sendChannel sendChannel encryption].
    unfold Encryption.generateKey. cbn.
    unfold sendMessage. cbn [sendChannel set_sendChannel set_encryption
                               set_isEncryptionReady].
    unfold is_open in *. cbn [readyState]. destruct (readyState channel);
      try discriminate. done. }
  destruct Hm0 as (Hopen & Hready & Hkey & Hsess & Hcur & Hq).
  assert (Hsid : length (Encryption.sessionId (encryption m0)) = 4%nat)
    by (by rewrite Hsess).
  destruct (batch_completes ks m0 files Hopen Hready Hkey Hsid Hcur Hq)
    as (Hlast & Hidle & Hqueue & _).
  fold sender in Hlast, Hidle, Hqueue.
  split; [|done]. clear Hlast Hidle Hqueue. subst sender.
  destruct (sendFiles_idle m0 files Hopen Hready Hcur Hq) as (ch1 & Ho1 & Hsf).
  cbv zeta in Hsf.
  set (announce := frame QUEUE_INFO _) in Hsf.
  set (m' := set_sendChannel (Some ch1) (set_sendQueue _ m0)) in Hsf.
  rewrite run_cons. cbn [fst snd handle]. rewrite Hsf. cbn [fst snd].
  assert (Hq0 : ∀ r : Manager, step (Frame announce) r = (r, [])).
  { intros r. subst announce. cbn [step]. rewrite await_frame.
    unfold on_fields.
    change (Transfer.handleMessage (frame QUEUE_INFO ?p))
      with (handle (EvMessage (frame QUEUE_INFO p))).
    rewrite handle_frame. by destruct r. }
  destruct files as [|f fs].
  - (* nothing submitted *)
    cbn [map batch_schedule concat Transfer.run]. unfold processNextFile, skip.
    cbn [sendQueue m' set_sendChannel set_sendQueue map].
    unfold emit. cbn [fst snd app].
    change (frames [ChannelSend announce; OnTransferComplete])
      with [announce].
    rewrite settled_in_turn_cons, await_run_cons, Hq0. cbn [fst snd].
    by rewrite await_run_cons.
  - destruct (processNextFile_starts m' (queue_file f) (map queue_file fs) ks)
      as (Hinfo & Hq2 & Hp2 & Hs2); [done|by simpl; rewrite Ho1|done|].
    change (Encryption.sessionId (encryption m'))
      with (Encryption.sessionId (encryption m0)) in Hs2.
    destruct (processNextFile m') as [m1 e1] eqn:Hpnf. cbn [fst snd] in *.
    pose proof Hall as Hall'. apply Forall_cons in Hall' as [Hf _].
    destruct Hf as (Hjson & Hoffer & Hcount & _ & Hid & Hnz).
    destruct (await_offer_next kr (start r0) (QueuedFile.info (queue_file f))
                (QueuedFile.file (queue_file f)) _ Hjson Hoffer)
      as (Hrec1 & Hr1 & Hidle1); [by destruct f|done|done|].
    cbv zeta in Hr1, Hidle1.
    pose proof (await_batch_streams ks kr _ fs f m1 _ _ _ Hgcm Hsid Hall Hs2
                  Hp2 Hq2 Hr1 Hidle1) as Hrec.
    cbv zeta in Hrec.
    rewrite frames_app.
    change (frames (ChannelSend announce :: e1)) with (announce :: frames e1).
    rewrite Hinfo. cbn [app].
    rewrite !settled_in_turn_cons.
    rewrite await_run_cons, Hq0. cbn [fst snd app].
    rewrite await_run_cons, (settle_idle 0 (start r0) eq_refl).
    cbn [fst snd app].
    rewrite await_run_cons. cbn [fst snd]. rewrite received_app, Hrec1.
    cbn [app].
    rewrite await_run_cons, (settle_idle 0 _ Hidle1).
    cbn [fst snd app]. exact Hrec.
Qed.

End AwaitBatch.

(** ** The theorems on examples, continued *)

Section TransferExamples.
Import Transfer TransferSpec TransferRuns.
Local Open Scope N_scope.

#[local] Existing Instance Toy.crypto.
#[local] Existing Instance Toy.json.
#[local] Existing Instance Toy.accept_all.

Lemma generateIV_layout_witness :
  fst (Encryption.generateIV
         (Encryption.new Byte.xa0 Byte.xa1 Byte.xa2 Byte.xa3))
  ≠ fst (Encryption.generateIV
           (Encryption.new Byte.xb0 Byte.xb1 Byte.xb2 Byte.xb3)).
Proof.
  pose proof (@generateIV_layout Toy.crypto
                (Encryption.new Byte.xa0 Byte.xa1 Byte.xa2 Byte.xa3)
                (Encryption.new Byte.xb0 Byte.xb1 Byte.xb2 Byte.xb3)
                eq_refl eq_refl) as Hlayout.
  cbv zeta in Hlayout. destruct Hlayout as (_ & _ & _ & _ & Hiff).
  intros Heq. apply Hiff in Heq as [Hsid _]. discriminate Hsid.
Defined.

Lemma peers_share_ivs_iff_prefix_witness :
  Forall
    (λ u,
       Forall (λ v, Encryption.use_iv u ≠ Encryption.use_iv v)
         (snd (Encryption.calls
                 [Encryption.CallGenerateKey Toy.key;
                  Encryption.CallEncryptChunk [Byte.x69]]
                 (Encryption.new Byte.xb0 Byte.xb1 Byte.xb2 Byte.xb3))))
    (snd (Encryption.calls
            [Encryption.CallGenerateKey Toy.key;
             Encryption.CallEncryptChunk [Byte.x68]]
            (Encryption.new Byte.xa0 Byte.xa1 Byte.xa2 Byte.xa3))).
Proof.
  pose proof (@peers_share_ivs_iff_prefix Toy.crypto
                Byte.xa0 Byte.xa1 Byte.xa2 Byte.xa3
                Byte.xb0 Byte.xb1 Byte.xb2 Byte.xb3
                [Encryption.CallGenerateKey Toy.key;
                 Encryption.CallEncryptChunk [Byte.x68]]
                [Encryption.CallGenerateKey Toy.key;
                 Encryption.CallEncryptChunk [Byte.x69]]
                _ _ _ _ eq_refl eq_refl
                (surjective_pairing _) (surjective_pairing _)) as Hpeers.
  destruct Hpeers as [Hdiffer _].
  - vm_compute. discriminate.
  - vm_compute. discriminate.
  - apply Forall_forall. intros u Hu. apply Forall_forall. intros v Hv.
    apply Hdiffer; [discriminate|exact Hu|exact Hv].
Defined.

Lemma chunk_record_round_trip_witness :
  decodeEncryptedChunk
    (encodeEncryptedChunk 5 [Byte.x01; Byte.x02] (replicate 12 Byte.x00)
       Toy.uuid1)
  = Some (mkChunk Toy.uuid1 5 [Byte.x01; Byte.x02] (replicate 12 Byte.x00)).
Proof.
  pose proof (chunk_record_round_trip 5 [Byte.x01; Byte.x02]
                (replicate 12 Byte.x00) Toy.uuid1 eq_refl) as Hrecord.
  destruct Hrecord as (_ & Hdecode & _).
  - vm_compute. lia.
  - vm_compute. lia.
  - exact Hdecode.
Defined.

Lemma sending_leaves_receiving_alone_witness :
  let evs :=
    [EvMessage (frame ENCRYPTION_KEY Toy.key);
     EvSendFiles [(Toy.one, Toy.uuid2)];
     EvMessage
       (frame FILE_INFO
          (encodeFileInfo
             (QueuedFile.info (queue_file (Toy.empty, Toy.uuid1)))));
     EvMessage (frame FILE_ACCEPT []);
     EvTimer TimerSendNextChunk;
     EvMessage (frame FILE_COMPLETE [])] in
  received (snd (run evs Toy.joiner))
  = received (snd (run (List.filter is_inbound evs) Toy.joiner))
  ∧ receivingFiles (fst (run evs Toy.joiner))
    = receivingFiles (fst (run (List.filter is_inbound evs) Toy.joiner))
  ∧ currentReceiveFileId (fst (run evs Toy.joiner))
    = currentReceiveFileId
        (fst (run (List.filter is_inbound evs) Toy.joiner)).
Proof.
  intros evs.
  destruct (@sending_leaves_receiving_alone Toy.crypto Toy.json
              Toy.accept_all evs Toy.joiner eq_refl)
    as (Hreceived & Htable & Hactive & _).
  split; [exact Hreceived|]. split; [exact Htable|exact Hactive].
Defined.

Lemma hook_reports_refusal_witness :
  snd (Hook.sendFiles [(Toy.hello, Toy.uuid1)]
         (new Byte.xa0 Byte.xa1 Byte.xa2 Byte.xa3) Hook.initial)
  = [Hook.AppError "DataChannel not ready"].
Proof.
  destruct (hook_reports_refusal (H := Toy.crypto) (H0 := Toy.json)
              [(Toy.hello, Toy.uuid1)]
              (new Byte.xa0 Byte.xa1 Byte.xa2 Byte.xa3) Hook.initial)
    as (_ & Hout & _).
  - left. reflexivity.
  - exact Hout.
Defined.

Lemma hook_idle_after_batch_witness :
  let submitted :=
    Hook.sendFiles [(Toy.hello, Toy.uuid1)] Toy.initiator Hook.initial in
  Hook.isSending (snd (fst submitted)) = true
  ∧ Hook.isSending
      (snd (fst (Hook.manage_all
                   (batch_schedule
                      (map queue_file [(Toy.hello, Toy.uuid1)]))
                   (fst (fst submitted)) (snd (fst submitted)))))
    = false.
Proof.
  intros submitted.
  destruct (hook_idle_after_batch (H := Toy.crypto) (H0 := Toy.json)
              (H1 := Toy.accept_all) Toy.key Toy.initiator Hook.initial [(Toy.hello, Toy.uuid1)]
              eq_refl eq_refl eq_refl eq_refl eq_refl eq_refl)
    as (_ & Hraised & Hdown & _).
  split.
  - destruct Hraised as [_ Hh1]; [discriminate|].
    subst submitted. rewrite Hh1. reflexivity.
  - exact Hdown.
Defined.

(** The initiator is given its channel and a file: the file is in
    flight and the key is held. *)
Lemma key_held_while_sending_witness :
  is_Some
    (Encryption.key
       (encryption
          (fst (run [EvSetDataChannel Toy.channel true Toy.key;
                     EvSendFiles [(Toy.hello, Toy.uuid1)]]
                  (new Byte.xa0 Byte.xa1 Byte.xa2 Byte.xa3))))).
Proof.
  destruct (key_held_while_sending (H := Toy.crypto) (H0 := Toy.json)
              (H1 := Toy.accept_all)
              Byte.xa0 Byte.xa1 Byte.xa2 Byte.xa3
              [EvSetDataChannel (H := Toy.crypto) Toy.channel true Toy.key;
               EvSendFiles [(Toy.hello, Toy.uuid1)]])
    as [_ Hkey].
  destruct Hkey as (_ & _ & Hbusy).
  - intros a b c d Hin.
    repeat (apply elem_of_cons in Hin as [Hin|Hin]; [discriminate|]).
    by apply elem_of_nil in Hin.
  - apply Hbusy. left. vm_compute. by eexists.
Defined.

End TransferExamples.

Section AwaitExamples.
Import Transfer TransferSpec TransferRuns TransferAwait.
Local Open Scope N_scope.

#[local] Existing Instance Toy.crypto.
#[local] Existing Instance Toy.json.
#[local] Existing Instance Toy.accept_all.

(** C1. The bytes delivered are not always the bytes sent: the receiver
    does not wait for the decryptions under way when [FILE_COMPLETE]
    comes. The sender streams hello.bin, three bytes in one
    chunk: its frames are [FILE_INFO], one [FILE_CHUNK], [FILE_COMPLETE].
    When the receiver handles [FILE_COMPLETE] before the decryption of the
    chunk has settled, the application is given a file of no bytes, and
    the chunk is stored afterwards into a metadata object the table no
    longer holds. When the decryption settles first, the three bytes are
    delivered. *)
Theorem complete_overtakes_decryption :
  let fs := file_frames (Toy.queued Toy.hello Toy.uuid1) Toy.accept_then_timer in
  frame_type <$> fs = [Some FILE_INFO; Some FILE_CHUNK; Some FILE_COMPLETE]
  ∧ received
      (snd (TransferAwait.run (map Frame fs ++ [Settle 0]) (start Toy.joiner)))
    = [File.mk "hello.bin" "application/octet-stream" "" []]
  ∧ received
      (snd (TransferAwait.run (settled_in_turn fs) (start Toy.joiner)))
    = [File.mk "hello.bin" "application/octet-stream" ""
         [Byte.x68; Byte.x69; Byte.x21]].
Proof. vm_compute. done. Qed.

(** The one chunk of hello.bin arrives twice; the second decryption
    settles before the first. *)
Lemma chunks_in_any_order_witness :
  received
    (snd (TransferAwait.run
            ((Frame (frame FILE_INFO
                       (encodeFileInfo
                          (QueuedFile.info (queue_file (Toy.hello, Toy.uuid1)))))
              :: map (step_of Toy.key [Byte.xa0; Byte.xa1; Byte.xa2; Byte.xa3] 0
                        (queue_file (Toy.hello, Toy.uuid1)))
                   [Arrives 0; Arrives 0; Settles 1; Settles 0])
             ++ [Frame (frame FILE_COMPLETE [])])
            (start Toy.joiner)))
  = [File.mk "hello.bin" "application/octet-stream" ""
       [Byte.x68; Byte.x69; Byte.x21]].
Proof.
  apply (chunks_in_any_order (H := Toy.crypto) (H0 := Toy.json)
           (H1 := Toy.accept_all)
           Toy.key Toy.key [Byte.xa0; Byte.xa1; Byte.xa2; Byte.xa3] 0
           Toy.joiner Toy.hello Toy.uuid1
           [Arrives 0; Arrives 0; Settles 1; Settles 0]).
  - exact (toy_decrypt_encrypt Toy.key).
  - reflexivity.
  - reflexivity.
  - reflexivity.
  - vm_compute. reflexivity.
  - reflexivity.
  - vm_compute. lia.
  - discriminate.
  - reflexivity.
  - intros j. change (N.to_nat (chunk_count (File.size Toy.hello))) with 1%nat.
    rewrite !elem_of_cons, elem_of_nil. split.
    + intros [Hj|[Hj|[Hj|[Hj|[]]]]]; inversion Hj; lia.
    + intros Hj. left. f_equal. lia.
  - vm_compute. reflexivity.
Defined.

(** A file of three bytes, then an empty file. *)
Lemma batch_delivered_in_order_witness :
  received
    (snd (TransferAwait.run
            (settled_in_turn
               (frames
                  (snd (Transfer.run
                          (EvSendFiles [(Toy.hello, Toy.uuid1);
                                        (Toy.empty, Toy.uuid2)]
                           :: batch_schedule
                                (map queue_file [(Toy.hello, Toy.uuid1);
                                                 (Toy.empty, Toy.uuid2)]))
                          Toy.initiator))))
            (start Toy.joiner)))
  = [File.mk "hello.bin" "application/octet-stream" ""
       [Byte.x68; Byte.x69; Byte.x21];
     File.mk "empty.txt" "text/plain" "" []].
Proof.
  destruct (batch_delivered_in_order (H := Toy.crypto) (H0 := Toy.json)
              (H1 := Toy.accept_all)
              Toy.key Toy.key Byte.xa0 Byte.xa1 Byte.xa2 Byte.xa3 Toy.channel
              Toy.joiner
              [(Toy.hello, Toy.uuid1); (Toy.empty, Toy.uuid2)])
    as [Hreceived _].
  - exact (toy_decrypt_encrypt Toy.key).
  - reflexivity.
  - reflexivity.
  - apply Forall_cons. split; [|apply Forall_cons; split; [|by apply Forall_nil]].
    + split; [reflexivity|]. split; [reflexivity|].
      split; [vm_compute; reflexivity|]. split; [reflexivity|].
      split; [vm_compute; lia|discriminate].
    + split; [reflexivity|]. split; [reflexivity|].
      split; [vm_compute; reflexivity|]. split; [reflexivity|].
      split; [vm_compute; lia|discriminate].
  - exact Hreceived.
Defined.

End AwaitExamples.
